(** * javastyle-collection: the priority queue and its default comparator

    A shallow embedding of [priorityqueue] (the [PriorityQueue] container and
    its [internalHeap]) and of [util] ([Comparator], [Equals],
    [DefaultComparator]), together with the part of Go's [container/heap]
    that the queue calls ([Init], [Push], [Pop], [Remove], [up], [down]).

    Conventions of the embedding.
    - A Go [int] is a [Z].  Values computed by the default comparator wrap
      around at 64 bits ([wrap]); slice indices and lengths are kept
      unbounded, since an index of a live slice is below its length.
    - A panic is an outcome of its own, and the state it leaves behind is the
      state at the point of the panic (what a deferred [recover] sees).
    - The loops [for { ... }] of [container/heap] run on fuel; [OutOfFuel] is
      an outcome of its own, and the theorems show it is never reached.
    - What [reflect], a type switch and [==] report about a value depends
      on its dynamic type ([GoType]); an element type that is an interface
      type has a nil value, which has none.
    - An ordering function ([Comparator]) is called like any code: it
      returns or panics.  A nil one is one that panics at every call.
    - An equality function ([Equals]) is a pure function, as the data model
      asks of it; a nil one is [None].
    - The queue is first a value, [items] being the sequence of its
      elements.  Where a property is about storage shared with a caller
      ([ToArray]), [items] is a slice over a store of backing arrays
      ([memory]), and the two readings are shown to agree. *)

From Stdlib Require Import ZArith Lia SpecFloat Sorted.
From stdpp Require Import base list strings.

Local Open Scope Z_scope.

(** ** Go values *)

(** An interface value of type [any] holding either nothing or an [E]. *)
Inductive any (E : Type) : Type :=
| nil_any
| box (x : E).
Arguments nil_any {E}.
Arguments box {E} x.

(** The outcome of running a piece of Go code. *)
Inductive outcome (A : Type) : Type :=
| Ok (a : A)
| Panic (msg : string)
| OutOfFuel.
Arguments Ok {A} a.
Arguments Panic {A} msg.
Arguments OutOfFuel {A}.

(** Code that reads and writes a state [S] and may panic. *)
Definition M (S A : Type) : Type := S -> outcome A * S.

Definition ret {S A} (a : A) : M S A := fun s => (Ok a, s).

Definition bind {S A B} (m : M S A) (k : A -> M S B) : M S B :=
  fun s =>
    match m s with
    | (Ok a, s') => k a s'
    | (Panic msg, s') => (Panic msg, s')
    | (OutOfFuel, s') => (OutOfFuel, s')
    end.

Definition panic {S A} (msg : string) : M S A := fun s => (Panic msg, s).
Definition out_of_fuel {S A} : M S A := fun s => (OutOfFuel, s).
Definition get {S} : M S S := fun s => (Ok s, s).

(** A call of a function that does not touch the state: it returns or
    panics. *)
Definition call {S A} (r : outcome A) : M S A := fun s => (r, s).

Declare Scope go_scope.
Delimit Scope go_scope with go.
Notation "'let*' x ':=' m 'in' k" := (bind m (fun x => k))
  (at level 10, x name, m at level 100, k at level 200) : go_scope.
Notation "m '>>' k" := (bind m (fun _ => k))
  (at level 100, k at level 200, right associativity) : go_scope.
Local Open Scope go_scope.

(** [s[i]] for an [int] index: [None] stands for index out of range. *)
Definition index {A} (l : list A) (i : Z) : option A :=
  if i <? 0 then None else l !! Z.to_nat i.

(** The bounds-checked read [s[i]] as Go code. *)
Definition read_index {S A} (l : list A) (i : Z) : M S A :=
  match index l i with
  | Some x => ret x
  | None => panic "runtime error: index out of range"
  end.

(** ** 64-bit [int] arithmetic *)

Definition int_modulus : Z := 2 ^ 64.
Definition MinInt : Z := - 2 ^ 63.
Definition MaxInt : Z := 2 ^ 63 - 1.

(** The value of an [int] expression whose exact result is [z]. *)
Definition wrap (z : Z) : Z := (z - MinInt) mod int_modulus + MinInt.

Definition is_int (z : Z) : Prop := MinInt <= z <= MaxInt.

(** ** Package util *)

Module util.

(** [type Comparator[T any] func(o1, o2 T) int] *)
Definition Comparator (T : Type) : Type := T -> T -> outcome Z.

(** [type Equals[E any] func(a, b E) bool] *)
Definition Equals (E : Type) : Type := E -> E -> bool.

(** What the type switch of [DefaultComparator] finds for a value: its
    dynamic type is [int], [float64] or [string], with the value, or it is
    none of them. *)
Inductive type_case : Type :=
| CaseInt (x : Z)
| CaseFloat64 (x : spec_float)
| CaseString (x : string)
| CaseOther.

(** The largest allocation of the Go runtime on the 64-bit platforms
    ([maxAlloc], 48 address bits). *)
Definition maxAlloc : Z := 2 ^ 48.

(** What the program asks of the values of an element type at run time.
    - [zero] is the zero value of the type and [Sizeof] the size of its
      values in bytes.
    - [is_nil x]: [x] is a nil interface value, so that [any(x) == nil] and
      [reflect.TypeOf(x) == nil].  A type that is not an interface type has
      no such value.
    - [Comparable x] is [reflect.TypeOf(x).Comparable()], for [x] not nil.
    - [go_eq v x] is
      [reflect.ValueOf(v).Interface() == reflect.ValueOf(x).Interface()],
      which panics on a nil interface value and on two values of the same
      dynamic type that cannot be compared.
    - [type_switch x] is the case that [switch any(x).(type)] selects among
      [int], [float64] and [string], and [type_name x] the name of the
      dynamic type of [x] as a failed type assertion prints it.
    - A nil interface value is the zero value of its type, and [==]
      returns or panics. *)
Class GoType (T : Type) : Type := {
  zero : T;
  Sizeof : Z;
  is_nil : T -> bool;
  Comparable : T -> bool;
  go_eq : T -> T -> outcome bool;
  type_switch : T -> type_case;
  type_name : T -> string;
  Sizeof_nonneg : 0 <= Sizeof;
  nil_is_zero : forall x, is_nil x = true -> x = zero;
  go_eq_ends : forall v x, go_eq v x <> OutOfFuel
}.

(** What [makeslice] checks of the capacity of [make([]T, 0, c)]: it is
    not negative, and the array is no larger than the largest allocation.
    (Running out of memory below that size is a fatal error of the
    runtime, not a panic, and is left out.) *)
Definition makeslice_ok {T} `{GoType T} (c : Z) : bool :=
  (0 <=? c) && (Sizeof * c <=? maxAlloc).

Definition makeslice_msg : string := "runtime error: makeslice: cap out of range".

(** The conversion [any(x)]. *)
Definition to_any {T} `{GoType T} (x : T) : any T :=
  if is_nil x then nil_any else box x.

(** The built-in types the default comparator knows. *)

(** [int] *)
#[export] Instance int_GoType : GoType Z := {
  zero := 0;
  Sizeof := 8;
  is_nil := fun _ => false;
  Comparable := fun _ => true;
  go_eq := fun a b => Ok (a =? b);
  type_switch := CaseInt;
  type_name := fun _ => "int"%string;
  Sizeof_nonneg := ltac:(done);
  nil_is_zero := ltac:(done);
  go_eq_ends := ltac:(done)
}.

(** [float64] *)
#[export] Instance float64_GoType : GoType spec_float := {
  zero := S754_zero false;
  Sizeof := 8;
  is_nil := fun _ => false;
  Comparable := fun _ => true;
  go_eq := fun a b => Ok (SFeqb a b);
  type_switch := CaseFloat64;
  type_name := fun _ => "float64"%string;
  Sizeof_nonneg := ltac:(done);
  nil_is_zero := ltac:(done);
  go_eq_ends := ltac:(done)
}.

(** [string] *)
#[export] Instance string_GoType : GoType string := {
  zero := EmptyString;
  Sizeof := 16;
  is_nil := fun _ => false;
  Comparable := fun _ => true;
  go_eq := fun a b => Ok (String.eqb a b);
  type_switch := CaseString;
  type_name := fun _ => "string"%string;
  Sizeof_nonneg := ltac:(done);
  nil_is_zero := ltac:(done);
  go_eq_ends := ltac:(done)
}.

(** [strings.Compare]: 0 when equal, -1 when [a < b], +1 otherwise; Go
    orders strings byte by byte. *)
Definition strings_Compare (a b : string) : Z :=
  if String.eqb a b then 0
  else if String.ltb a b then -1
  else 1.

(** [a < b] and [a > b] on [float64]. *)
Definition float64_lt (a b : spec_float) : bool := SFltb a b.
Definition float64_gt (a b : spec_float) : bool := SFltb b a.

(** The panic of a type assertion [any(b).(want)] that fails. *)
Definition interface_conversion {T} `{GoType T} {A} (b : T) (want : string) : outcome A :=
  Panic ("interface conversion: interface {} is " ++ type_name b ++ ", not " ++ want).

(** [func DefaultComparator[T any]() Comparator[T]]: the type switch is on
    the dynamic type of [a]; the assertions on [b] are not checked. *)
Definition DefaultComparator {T} `{GoType T} : Comparator T :=
  fun a b =>
    match type_switch a with
    | CaseInt aTyped =>
        match type_switch b with
        | CaseInt bTyped => Ok (wrap (aTyped - bTyped))
        | _ => interface_conversion b "int"
        end
    | CaseFloat64 aTyped =>
        match type_switch b with
        | CaseFloat64 bTyped =>
            Ok (if float64_lt aTyped bTyped then -1
                else if float64_gt aTyped bTyped then 1
                else 0)
        | _ => interface_conversion b "float64"
        end
    | CaseString aTyped =>
        match type_switch b with
        | CaseString bTyped => Ok (strings_Compare aTyped bTyped)
        | _ => interface_conversion b "string"
        end
    | CaseOther => Ok 0
    end.

End util.

(** ** Go's container/heap, over any implementation of [heap.Interface]

    The package is Go's standard library, not this repository; the
    functions below follow its source ([container/heap/heap.go]). *)

(** [heap.Interface]: [sort.Interface] ([Len], [Less], [Swap]) with [Push]
    and [Pop].  The methods act on a receiver [h] whose state is [H]. *)
Module h.
Class Interface (H E : Type) : Type := {
  Len : M H Z;
  Less : Z -> Z -> M H bool;
  Swap : Z -> Z -> M H unit;
  Push : any E -> M H unit;
  Pop : M H (any E)
}.
End h.

Module heap.

Section algorithms.
Context {H E : Type} `{h.Interface H E}.

(** The loop of [up(h, j)]:
    [i := (j - 1) / 2; if i == j || !h.Less(j, i) { break }; h.Swap(i, j); j = i]. *)
Fixpoint up_loop (fuel : nat) (j : Z) : M H unit :=
  match fuel with
  | O => out_of_fuel
  | S fuel' =>
      let i := (j - 1) ÷ 2 in
      if i =? j then ret tt
      else
        let* lt := h.Less j i in
        if negb lt then ret tt
        else h.Swap i j >> up_loop fuel' i
  end.

Definition up (j : Z) : M H unit := up_loop (S (Z.to_nat j)) j.

(** The loop of [down(h, i0, n)], which returns [i > i0]. *)
Fixpoint down_loop (fuel : nat) (i0 i n : Z) : M H bool :=
  match fuel with
  | O => out_of_fuel
  | S fuel' =>
      let j1 := 2 * i + 1 in
      if (n <=? j1) || (j1 <? 0) then ret (i0 <? i)
      else
        let j2 := j1 + 1 in
        let* j :=
          (if j2 <? n
           then let* lt := h.Less j2 j1 in ret (if lt then j2 else j1)
           else ret j1) in
        let* lt := h.Less j i in
        if negb lt then ret (i0 <? i)
        else h.Swap i j >> down_loop fuel' i0 j n
  end.

Definition down (i0 n : Z) : M H bool := down_loop (S (Z.to_nat n)) i0 i0 n.

(** [for i := n/2 - 1; i >= 0; i-- { down(h, i, n) }], counted by [c = i + 1]. *)
Fixpoint Init_loop (c : nat) (n : Z) : M H unit :=
  match c with
  | O => ret tt
  | S c' => down (Z.of_nat c') n >> Init_loop c' n
  end.

Definition Init : M H unit :=
  let* n := h.Len in
  Init_loop (Z.to_nat (n ÷ 2)) n.

Definition Push (x : any E) : M H unit :=
  h.Push x >>
  let* n := h.Len in
  up (n - 1).

Definition Pop : M H (any E) :=
  let* len := h.Len in
  let n := len - 1 in
  h.Swap 0 n >>
  down 0 n >>
  h.Pop.

Definition Remove (i : Z) : M H (any E) :=
  let* len := h.Len in
  let n := len - 1 in
  (if negb (n =? i)
   then h.Swap i n >>
        let* moved := down i n in
        if negb moved then up i else ret tt
   else ret tt) >>
  h.Pop.

End algorithms.

End heap.

(** ** Package priorityqueue *)

Module priorityqueue.
Import util.



(** [type internalHeap[E any] struct { items []E; comparator util.Comparator[E] }] *)
Record internalHeap (E : Type) : Type := mk_internalHeap {
  items : list E;
  comparator : Comparator E
}.
Arguments mk_internalHeap {E} items comparator.
Arguments items {E} i.
Arguments comparator {E} i.

(** [type PriorityQueue[E any] struct { heap *internalHeap[E]; equals util.Equals[E] }];
    a nil [equals] is [None]. *)
Record PriorityQueue (E : Type) : Type := mk_PriorityQueue {
  heap : internalHeap E;
  equals : option (Equals E)
}.
Arguments mk_PriorityQueue {E} heap equals.
Arguments heap {E} p.
Arguments equals {E} p.

Section queue.
Context {E : Type} `{GoType E}.

Definition set_items (l : list E) : M (internalHeap E) unit :=
  fun ph => (Ok tt, mk_internalHeap l (comparator ph)).

(** [func (ph internalHeap[E]) Len() int] *)
Definition Len : M (internalHeap E) Z :=
  let* ph := get in ret (Z.of_nat (length (items ph))).

(** [func (ph internalHeap[E]) Less(i, j int) bool] *)
Definition Less (i j : Z) : M (internalHeap E) bool :=
  let* ph := get in
  let* a := read_index (items ph) i in
  let* b := read_index (items ph) j in
  let* r := call (comparator ph a b) in
  ret (r <? 0).

(** [func (ph *internalHeap[E]) Swap(i, j int)]: both right-hand sides are
    read before either slot is written. *)
Definition Swap (i j : Z) : M (internalHeap E) unit :=
  let* ph := get in
  let* vj := read_index (items ph) j in
  let* vi := read_index (items ph) i in
  set_items (<[Z.to_nat j := vi]> (<[Z.to_nat i := vj]> (items ph))).

(** [func (ph *internalHeap[E]) Push(x any)]: when the assertion [x.(E)]
    fails, on a nil [x], nothing is appended. *)
Definition Push (x : any E) : M (internalHeap E) unit :=
  match x with
  | box item => let* ph := get in set_items (items ph ++ [item])
  | nil_any => ret tt
  end.

(** [func (ph *internalHeap[E]) Pop() any] *)
Definition Pop : M (internalHeap E) (any E) :=
  let* ph := get in
  let old := items ph in
  let n := Z.of_nat (length old) in
  let* item := read_index old (n - 1) in
  set_items (take (Z.to_nat (n - 1)) old) >>
  ret (to_any item).

#[export] Instance internalHeap_Interface : h.Interface (internalHeap E) E := {
  h.Len := Len;
  h.Less := Less;
  h.Swap := Swap;
  h.Push := Push;
  h.Pop := Pop
}.

(** Code on [pq.heap], run on the queue that owns it. *)
Definition on_heap {A} (m : M (internalHeap E) A) : M (PriorityQueue E) A :=
  fun pq =>
    let (r, ph) := m (heap pq) in
    (r, mk_PriorityQueue ph (equals pq)).

(** [type Option[E any] func(pq *PriorityQueue[E])] *)
Definition Option : Type := M (PriorityQueue E) unit.

(** [pq.heap.items = make([]E, 0, c)] *)
Definition make_items (c : Z) : M (PriorityQueue E) unit :=
  if makeslice_ok c
  then on_heap (set_items [])
  else panic makeslice_msg.

(** [func WithCapacity[E any](initialCapacity int) Option[E]] *)
Definition WithCapacity (initialCapacity : Z) : Option :=
  make_items initialCapacity.

Definition WithComparator (c : Comparator E) : Option :=
  fun pq => (Ok tt, mk_PriorityQueue (mk_internalHeap (items (heap pq)) c) (equals pq)).

Definition WithEquals (eq : Equals E) : Option :=
  fun pq => (Ok tt, mk_PriorityQueue (heap pq) (Some eq)).

(** [for _, opt := range opts { opt(pq) }] *)
Fixpoint apply_options (opts : list Option) : M (PriorityQueue E) unit :=
  match opts with
  | [] => ret tt
  | opt :: rest => opt >> apply_options rest
  end.

(** [func New[E any](opts ...Option[E]) *PriorityQueue[E]] *)
Definition New (opts : list Option) : outcome (PriorityQueue E) :=
  let pq := mk_PriorityQueue (mk_internalHeap [] DefaultComparator) None in
  match (make_items 11 >> apply_options opts >> on_heap heap.Init) pq with
  | (Ok _, pq') => Ok pq'
  | (Panic msg, _) => Panic msg
  | (OutOfFuel, _) => OutOfFuel
  end.

(** [func (pq *PriorityQueue[E]) Offer(item E) (success bool)]: the deferred
    function turns a panic of [heap.Push] into the result [false]. *)
Definition Offer (item : E) : M (PriorityQueue E) bool :=
  fun pq =>
    match on_heap (heap.Push (to_any item)) pq with
    | (Ok _, pq') => (Ok true, pq')
    | (Panic _, pq') => (Ok false, pq')
    | (OutOfFuel, pq') => (OutOfFuel, pq')
    end.

(** [func (pq *PriorityQueue[E]) Add(item E) bool] *)
Definition Add (item : E) : M (PriorityQueue E) bool :=
  let* ok := Offer item in
  if negb ok then panic "Queue is full" else ret true.

(** [func (pq *PriorityQueue[E]) Clear()] *)
Definition Clear : M (PriorityQueue E) unit :=
  on_heap (set_items [] >> heap.Init).

(** [func (pq *PriorityQueue[E]) Comparator() util.Comparator[E]] *)
Definition Comparator : M (PriorityQueue E) (util.Comparator E) :=
  let* pq := get in ret (comparator (heap pq)).

(** [for i, v := range s { if p(v) { return i } }], from index [i] on, for
    a test [p] that returns or panics. *)
Fixpoint range_find (p : E -> outcome bool) (s : list E) (i : Z) : outcome (option Z) :=
  match s with
  | [] => Ok None
  | v :: rest =>
      match p v with
      | Ok true => Ok (Some i)
      | Ok false => range_find p rest (i + 1)
      | Panic msg => Panic msg
      | OutOfFuel => OutOfFuel
      end
  end.

Definition nil_dereference_msg : string :=
  "runtime error: invalid memory address or nil pointer dereference".

Definition not_comparable_msg : string :=
  "Type is not comparable and equals function is not provided".

(** [reflect.TypeOf(item).Comparable()]: on a nil interface value
    [reflect.TypeOf] returns nil, and the call of its method panics. *)
Definition reflect_Comparable {S} (item : E) : M S bool :=
  if is_nil item then panic nil_dereference_msg else ret (Comparable item).

(** [func (pq *PriorityQueue[E]) Contains(item E) bool] *)
Definition Contains (item : E) : M (PriorityQueue E) bool :=
  let* pq := get in
  let* comparable := reflect_Comparable item in
  if comparable then
    let* found := call (range_find (fun v => go_eq v item) (items (heap pq)) 0) in
    match found with
    | Some _ => ret true
    | None => ret false
    end
  else
    match equals pq with
    | None => panic not_comparable_msg
    | Some eq =>
        let* found := call (range_find (fun v => Ok (eq v item)) (items (heap pq)) 0) in
        match found with
        | Some _ => ret true
        | None => ret false
        end
    end.

(** [func (pq *PriorityQueue[E]) Poll() E] *)
Definition Poll : M (PriorityQueue E) E :=
  let* item := on_heap heap.Pop in
  match item with
  | nil_any => ret zero
  | box x => ret x
  end.

(** [func (pq *PriorityQueue[E]) Peek() E] *)
Definition Peek : M (PriorityQueue E) E :=
  let* n := on_heap Len in
  if n =? 0 then ret zero
  else let* pq := get in read_index (items (heap pq)) 0.

(** [func (pq *PriorityQueue[E]) Remove(item E) bool] *)
Definition Remove (item : E) : M (PriorityQueue E) bool :=
  let* pq := get in
  let* comparable := reflect_Comparable item in
  if comparable then
    let* found := call (range_find (fun v => go_eq v item) (items (heap pq)) 0) in
    match found with
    | Some i => on_heap (heap.Remove i) >> ret true
    | None => ret false
    end
  else
    match equals pq with
    | None => panic not_comparable_msg
    | Some eq =>
        let* found := call (range_find (fun v => Ok (eq v item)) (items (heap pq)) 0) in
        match found with
        | Some i => on_heap (heap.Remove i) >> ret true
        | None => ret false
        end
    end.

(** [func (pq *PriorityQueue[E]) Size() int] *)
Definition Size : M (PriorityQueue E) Z :=
  let* pq := get in ret (Z.of_nat (length (items (heap pq)))).

(** [func (pq *PriorityQueue[E]) ToArray() []E]: the elements of
    [append([]E(nil), pq.heap.items...)]. *)
Definition ToArray : M (PriorityQueue E) (list E) :=
  let* pq := get in ret ([] ++ items (heap pq)).

End queue.

Arguments Option E : clear implicits.

End priorityqueue.

(** ** The queue in memory

    [pq.heap.items] as a slice value over a store of backing arrays, for
    the calls whose result shares, or does not share, storage with the
    queue.  The methods of [internalHeap] are the ones above, reading and
    writing the cells of the array behind [items]. *)

Module memory.
Import util.

(** A slice value: backing array, length and capacity.  Every slice of the
    program starts at the first cell of its array; a slice of capacity 0
    (nil, or [[]E{}]) has no cell. *)
Record slice : Type := mk_slice { arr : nat; len : nat; cap : nat }.

Definition nil_slice : slice := mk_slice 0 0 0.

(** The backing arrays, in the order of their allocation. *)
Abbreviation store E := (list (list E)).

Section store.
Context {E : Type} `{GoType E}.

Definition array (m : store E) (s : slice) : list E := default [] (m !! arr s).

(** The elements [s[0], ..., s[len(s)-1]]. *)
Definition elements (m : store E) (s : slice) : list E := take (len s) (array m s).

(** [s[i] = v] *)
Definition assign (s : slice) (i : Z) (v : E) : M (store E) unit :=
  fun m =>
    if (0 <=? i) && (i <? Z.of_nat (len s))
    then (Ok tt, alter (fun a => <[Z.to_nat i := v]> a) (arr s) m)
    else (Panic "runtime error: index out of range", m).

(** The capacity of the array [append] allocates when [needed] elements do
    not fit: at least [needed]; the allocator's rounding is left out. *)
Definition growslice (oldcap needed : nat) : nat := Nat.max needed (2 * oldcap).

(** [append(s, xs...)]: in place when the capacity allows, into a new array
    otherwise. *)
Definition append (s : slice) (xs : list E) : M (store E) slice :=
  fun m =>
    let n := (len s + length xs)%nat in
    if (n <=? cap s)%nat
    then (Ok (mk_slice (arr s) n (cap s)),
          alter (fun a => take (len s) a ++ xs ++ drop n a) (arr s) m)
    else
      let c := growslice (cap s) n in
      (Ok (mk_slice (length m) n c),
       m ++ [elements m s ++ xs ++ replicate (c - n) zero]).

(** The memory, with the fields of the one queue in it. *)
Record world : Type := mk_world {
  mem : store E;
  q_items : slice;
  q_comparator : Comparator E;
  q_equals : option (Equals E)
}.

(** Code on the memory alone, run in a world. *)
Definition on_mem {A} (f : M (store E) A) : M world A :=
  fun w =>
    let (r, m) := f (mem w) in
    (r, mk_world m (q_items w) (q_comparator w) (q_equals w)).

Definition set_items (s : slice) : M world unit :=
  fun w => (Ok tt, mk_world (mem w) s (q_comparator w) (q_equals w)).

(** The elements of [pq.heap.items]. *)
Definition view (w : world) : list E := elements (mem w) (q_items w).

(** [Len]: [len(ph.items)]. *)
Definition Len : M world Z :=
  let* w := get in ret (Z.of_nat (len (q_items w))).

(** [Less]: [ph.comparator(ph.items[i], ph.items[j]) < 0]. *)
Definition Less (i j : Z) : M world bool :=
  let* w := get in
  let* a := read_index (view w) i in
  let* b := read_index (view w) j in
  let* r := call (q_comparator w a b) in
  ret (r <? 0).

(** [Swap]: [ph.items[i], ph.items[j] = ph.items[j], ph.items[i]], two
    reads and then two writes into the backing array. *)
Definition Swap (i j : Z) : M world unit :=
  let* w := get in
  let* vj := read_index (view w) j in
  let* vi := read_index (view w) i in
  on_mem (assign (q_items w) i vj) >>
  on_mem (assign (q_items w) j vi).

(** [Push]: [ph.items = append(ph.items, item)], when [x.(E)] holds. *)
Definition Push (x : any E) : M world unit :=
  match x with
  | box item =>
      let* w := get in
      let* s := on_mem (append (q_items w) [item]) in
      set_items s
  | nil_any => ret tt
  end.

(** [Pop]: [item := old[n-1]; ph.items = old[0 : n-1]], the same array with
    one element less in view. *)
Definition Pop : M world (any E) :=
  let* w := get in
  let old := q_items w in
  let n := Z.of_nat (len old) in
  let* item := read_index (view w) (n - 1) in
  set_items (mk_slice (arr old) (Z.to_nat (n - 1)) (cap old)) >>
  ret (to_any item).

#[export] Instance world_Interface : h.Interface world E := {
  h.Len := Len;
  h.Less := Less;
  h.Swap := Swap;
  h.Push := Push;
  h.Pop := Pop
}.

(** [Poll], [Size] and [ToArray] as above, in a world. *)
Definition Poll : M world E :=
  let* item := heap.Pop in
  match item with
  | nil_any => ret zero
  | box x => ret x
  end.

Definition Size : M world Z :=
  let* w := get in ret (Z.of_nat (len (q_items w))).

Definition ToArray : M world slice :=
  let* w := get in on_mem (append nil_slice (view w)).

(** A caller that holds the slice [s] and assigns to its elements,
    recovering from a panic of an assignment out of range. *)
Fixpoint assign_all (s : slice) (writes : list (Z * E)) (w : world) : world :=
  match writes with
  | [] => w
  | (i, v) :: rest => assign_all s rest (snd (on_mem (assign s i v) w))
  end.

(** [n] calls of [Poll()], whatever they return. *)
Fixpoint poll_n (n : nat) (w : world) : list (outcome E) :=
  match n with
  | O => []
  | S n' => let (r, w') := Poll w in r :: poll_n n' w'
  end.

(** A queue laid out in a memory of its own. *)
Definition world_of (pq : priorityqueue.PriorityQueue E) : world :=
  let l := priorityqueue.items (priorityqueue.heap pq) in
  mk_world [l] (mk_slice 0 (length l) (length l))
    (priorityqueue.comparator (priorityqueue.heap pq)) (priorityqueue.equals pq).

End store.

Arguments world E : clear implicits.

End memory.

(** ** Callers of the queue *)

Module caller.
Import util priorityqueue.

(** *** Element types of the callers *)

(** [type Person struct { Name string; Age int }], the struct of the README. *)
Record Person : Type := mk_Person { Name : string; Age : Z }.

#[export] Instance Person_GoType : GoType Person := {
  zero := mk_Person EmptyString 0;
  Sizeof := 24;
  is_nil := fun _ => false;
  Comparable := fun _ => true;
  go_eq := fun a b => Ok (String.eqb (Name a) (Name b) && (Age a =? Age b));
  type_switch := fun _ => CaseOther;
  type_name := fun _ => "main.Person"%string;
  Sizeof_nonneg := ltac:(done);
  nil_is_zero := ltac:(done);
  go_eq_ends := ltac:(done)
}.

(** The slice type [[]int]: it is not comparable, and [==] on two boxed
    slices panics. *)
Record IntSlice : Type := mk_IntSlice { elems : list Z }.

Definition uncomparable_msg : string :=
  "runtime error: comparing uncomparable type []int".

#[export] Instance IntSlice_GoType : GoType IntSlice := {
  zero := mk_IntSlice [];
  Sizeof := 24;
  is_nil := fun _ => false;
  Comparable := fun _ => false;
  go_eq := fun _ _ => Panic uncomparable_msg;
  type_switch := fun _ => CaseOther;
  type_name := fun _ => "[]int"%string;
  Sizeof_nonneg := ltac:(done);
  nil_is_zero := ltac:(done);
  go_eq_ends := ltac:(done)
}.

(** The interface type [any] as an element type, with the values a caller
    puts in it here: nil, or a value of dynamic type [int], [float64],
    [string] or [[]int]. *)
Inductive AnyValue : Type :=
| AnyNil
| AnyInt (x : Z)
| AnyFloat64 (x : spec_float)
| AnyString (x : string)
| AnyIntSlice (x : list Z).

Definition zero_Value_msg : string :=
  "reflect: call of reflect.Value.Interface on zero Value".

(** [==] on two interface values: false when the dynamic types differ, the
    comparison of the values when they agree, which panics for [[]int];
    [reflect.ValueOf(nil).Interface()] panics before that. *)
Definition AnyValue_eq (v x : AnyValue) : outcome bool :=
  match v, x with
  | AnyNil, _ | _, AnyNil => Panic zero_Value_msg
  | AnyInt a, AnyInt b => Ok (a =? b)
  | AnyFloat64 a, AnyFloat64 b => Ok (SFeqb a b)
  | AnyString a, AnyString b => Ok (String.eqb a b)
  | AnyIntSlice _, AnyIntSlice _ => Panic uncomparable_msg
  | _, _ => Ok false
  end.

#[export] Instance AnyValue_GoType : GoType AnyValue := {
  zero := AnyNil;
  Sizeof := 16;
  is_nil := fun x => match x with AnyNil => true | _ => false end;
  Comparable := fun x => match x with AnyIntSlice _ => false | _ => true end;
  go_eq := AnyValue_eq;
  type_switch := fun x =>
    match x with
    | AnyInt a => CaseInt a
    | AnyFloat64 a => CaseFloat64 a
    | AnyString a => CaseString a
    | _ => CaseOther
    end;
  type_name := fun x =>
    match x with
    | AnyNil => "nil"
    | AnyInt _ => "int"
    | AnyFloat64 _ => "float64"
    | AnyString _ => "string"
    | AnyIntSlice _ => "[]int"
    end%string;
  Sizeof_nonneg := ltac:(done);
  nil_is_zero := ltac:(by intros []);
  go_eq_ends := ltac:(by intros [] [])
}.

Section programs.
Context {E : Type} `{GoType E}.

(** The mutating calls of the interface. *)
Inductive op : Type :=
| OpAdd (item : E)
| OpOffer (item : E)
| OpPoll
| OpRemove (item : E).

(** What a call returns. *)
Inductive value : Type :=
| VBool (b : bool)
| VElem (x : E)
| VUnit
| VInt (n : Z)
| VArray (l : list E)
| VFunc (c : util.Comparator E).

Definition run_op (o : op) : M (PriorityQueue E) value :=
  match o with
  | OpAdd item => let* b := Add item in ret (VBool b)
  | OpOffer item => let* b := Offer item in ret (VBool b)
  | OpPoll => let* x := Poll in ret (VElem x)
  | OpRemove item => let* b := Remove item in ret (VBool b)
  end.

(** One call as a caller sees it: the call, [Size()] before it, and its
    outcome. *)
Record event : Type := mk_event {
  ev_op : op;
  ev_size : Z;
  ev_outcome : outcome value
}.

(** A caller that makes the calls [ops] one after the other, going on after
    a panic (which it recovers from) with the queue as the panic left it. *)
Fixpoint run_ops (ops : list op) (pq : PriorityQueue E) : list event * PriorityQueue E :=
  match ops with
  | [] => ([], pq)
  | o :: rest =>
      let (r, pq') := run_op o pq in
      let (tr, pq'') := run_ops rest pq' in
      (mk_event o (Z.of_nat (length (items (heap pq)))) r :: tr, pq'')
  end.

(** [for pq.Size() > 0 { out = append(out, pq.Poll()) }] *)
Fixpoint drain_loop (fuel : nat) : M (PriorityQueue E) (list E) :=
  match fuel with
  | O => out_of_fuel
  | S fuel' =>
      let* n := Size in
      if 0 <? n
      then let* x := Poll in
           let* rest := drain_loop fuel' in
           ret (x :: rest)
      else ret []
  end.

(** [n] calls of [Poll()], whatever they return. *)
Fixpoint poll_n (n : nat) (pq : PriorityQueue E) : list (outcome E) :=
  match n with
  | O => []
  | S n' => let (r, pq') := Poll pq in r :: poll_n n' pq'
  end.

Definition is_insertion (o : op) : bool :=
  match o with
  | OpAdd _ | OpOffer _ => true
  | _ => false
  end.

(** The element a call hands to [Push] that passes its assertion [x.(E)]:
    the item of an insertion, unless it is a nil interface value. *)
Definition inserted (o : op) : list E :=
  match o with
  | OpAdd item | OpOffer item => if is_nil item then [] else [item]
  | _ => []
  end.

(** The calls that count for [Size()]. *)
Definition insertion_succeeded (e : event) : bool :=
  match ev_op e, ev_outcome e with
  | (OpAdd _ | OpOffer _), Ok (VBool true) => true
  | _, _ => false
  end.

Definition removal_succeeded (e : event) : bool :=
  match ev_op e, ev_outcome e with
  | OpRemove _, Ok (VBool true) => true
  | _, _ => false
  end.

Definition polled_nonempty (e : event) : bool :=
  match ev_op e with
  | OpPoll => 0 <? ev_size e
  | _ => false
  end.

Definition count (p : event -> bool) (tr : list event) : Z :=
  Z.of_nat (length (filter (fun e => p e = true) tr)).

(** Every method of the queue: the mutating calls above, and the others. *)
Inductive method : Type :=
| Mutating (o : op)
| MClear
| MPeek
| MContains (item : E)
| MSize
| MToArray
| MComparator.

Definition run_method (m : method) : M (PriorityQueue E) value :=
  match m with
  | Mutating o => run_op o
  | MClear => Clear >> ret VUnit
  | MPeek => let* x := Peek in ret (VElem x)
  | MContains item => let* b := Contains item in ret (VBool b)
  | MSize => let* n := Size in ret (VInt n)
  | MToArray => let* l := ToArray in ret (VArray l)
  | MComparator => let* c := Comparator in ret (VFunc c)
  end.

(** A call of any method as a caller sees it: the call, [Size()] before
    it, and its outcome. *)
Record record : Type := mk_record {
  rec_method : method;
  rec_size : Z;
  rec_outcome : outcome value
}.

(** A caller that calls the methods [ms] one after the other, recovering
    from a panic. *)
Fixpoint run_methods (ms : list method) (pq : PriorityQueue E)
    : list record * PriorityQueue E :=
  match ms with
  | [] => ([], pq)
  | m :: rest =>
      let (r, pq') := run_method m pq in
      let (tr, pq'') := run_methods rest pq' in
      (mk_record m (Z.of_nat (length (items (heap pq)))) r :: tr, pq'')
  end.

End programs.

Arguments op E : clear implicits.
Arguments value E : clear implicits.
Arguments event E : clear implicits.
Arguments method E : clear implicits.
Arguments record E : clear implicits.

End caller.

(** * The queue in memory: capacity and allocation *)

(** The constructor and the other methods of the queue on the memory
    model of [Module memory], where [make] and [append] allocate backing
    arrays. *)
Module allocation.
Import util memory.

Section allocation.
Context {E : Type} `{GoType E}.

(** [make([]E, 0, c)]: a new array of [c] zero values, none of them in
    view. *)
Definition make (c : Z) : M (store E) slice :=
  fun m =>
    if makeslice_ok c
    then (Ok (mk_slice (length m) 0 (Z.to_nat c)),
          m ++ [replicate (Z.to_nat c) zero])
    else (Panic makeslice_msg, m).

(** [type Option[E any] func(pq *PriorityQueue[E])] *)
Definition Option : Type := M (world E) unit.

(** [pq.heap.items = make([]E, 0, initialCapacity)] *)
Definition WithCapacity (initialCapacity : Z) : Option :=
  let* s := on_mem (make initialCapacity) in set_items s.

(** [pq.heap.comparator = comparator] *)
Definition WithComparator (c : Comparator E) : Option :=
  fun w => (Ok tt, mk_world (mem w) (q_items w) c (q_equals w)).

(** [pq.equals = equals] *)
Definition WithEquals (eq : Equals E) : Option :=
  fun w => (Ok tt, mk_world (mem w) (q_items w) (q_comparator w) (Some eq)).

(** [for _, opt := range opts { opt(pq) }] *)
Fixpoint apply_options (opts : list Option) : M (world E) unit :=
  match opts with
  | [] => ret tt
  | opt :: rest => opt >> apply_options rest
  end.

(** [New]: the queue starts on [make([]E, 0, 11)] with the default
    comparator; then the options run, then [heap.Init]. *)
Definition New (opts : list Option) (m : store E) : outcome (world E) :=
  match make 11 m with
  | (Ok s, m1) =>
      match (apply_options opts >> heap.Init) (mk_world m1 s DefaultComparator None) with
      | (Ok _, w) => Ok w
      | (Panic msg, _) => Panic msg
      | (OutOfFuel, _) => OutOfFuel
      end
  | (Panic msg, _) => Panic msg
  | (OutOfFuel, _) => OutOfFuel
  end.

(** [Offer]: [heap.Push(pq.heap, item)], a panic of which is recovered
    into the result [false]. *)
Definition Offer (item : E) : M (world E) bool :=
  fun w =>
    match heap.Push (to_any item) w with
    | (Ok _, w') => (Ok true, w')
    | (Panic _, w') => (Ok false, w')
    | (OutOfFuel, w') => (OutOfFuel, w')
    end.

(** [Add] *)
Definition Add (item : E) : M (world E) bool :=
  let* ok := Offer item in
  if negb ok then panic "Queue is full" else ret true.

(** [Clear]: [pq.heap.items = []E{}; heap.Init(pq.heap)] *)
Definition Clear : M (world E) unit :=
  set_items nil_slice >> heap.Init.

(** [Remove] *)
Definition Remove (item : E) : M (world E) bool :=
  let* w := get in
  let* comparable := priorityqueue.reflect_Comparable item in
  if comparable then
    let* found := call (priorityqueue.range_find (fun v => go_eq v item) (view w) 0) in
    match found with
    | Some i => heap.Remove i >> ret true
    | None => ret false
    end
  else
    match q_equals w with
    | None => panic priorityqueue.not_comparable_msg
    | Some eq =>
        let* found :=
          call (priorityqueue.range_find (fun v => Ok (eq v item)) (view w) 0) in
        match found with
        | Some i => heap.Remove i >> ret true
        | None => ret false
        end
    end.

(** One call of a caller, and a sequence of calls with a recover after
    each. *)
Definition run_op (o : caller.op E) : M (world E) (caller.value E) :=
  match o with
  | caller.OpAdd item => let* b := Add item in ret (caller.VBool b)
  | caller.OpOffer item => let* b := Offer item in ret (caller.VBool b)
  | caller.OpPoll => let* x := Poll in ret (caller.VElem x)
  | caller.OpRemove item => let* b := Remove item in ret (caller.VBool b)
  end.

Fixpoint run_ops (ops : list (caller.op E)) (w : world E)
    : list (outcome (caller.value E)) * world E :=
  match ops with
  | [] => ([], w)
  | o :: rest =>
      let (r, w') := run_op o w in
      let (tr, w'') := run_ops rest w' in
      (r :: tr, w'')
  end.

End allocation.

Arguments Option E : clear implicits.

End allocation.

(** * Specification *)

(** The list after [s[i], s[j] = s[j], s[i]] with both indices in range. *)
Definition exchange {A} (l : list A) (i j : Z) : list A :=
  match index l i, index l j with
  | Some a, Some b => <[Z.to_nat j := a]> (<[Z.to_nat i := b]> l)
  | _, _ => l
  end.

(** The result of a comparison that returns. *)
Definition result {E : Type} (cmp : util.Comparator E) (a b : E) : Z :=
  match cmp a b with
  | Ok z => z
  | _ => 0
  end.

(** [compare(a, b) <= 0]: the comparison returns, and its result is not
    positive. *)
Definition at_most {E : Type} (cmp : util.Comparator E) (a b : E) : Prop :=
  exists z, cmp a b = Ok z /\ z <= 0.

(** The comparator is a pure function, as the data model asks of an
    ordering function: it returns a result for every pair. *)
Class Returns {E : Type} (cmp : util.Comparator E) : Prop :=
  returns : forall a b, cmp a b = Ok (result cmp a b).

(** A three-way comparator that is a strict weak ordering: it returns, the
    two directions agree on the sign, [<] is transitive, and so is
    equivalence. *)
Class StrictWeakOrder {E : Type} (cmp : util.Comparator E) : Prop := {
  cmp_returns :: Returns cmp;
  cmp_sign : forall a b, result cmp a b < 0 <-> 0 < result cmp b a;
  cmp_lt_trans : forall a b c,
    result cmp a b < 0 -> result cmp b c < 0 -> result cmp a c < 0;
  cmp_eq_trans : forall a b c,
    result cmp a b = 0 -> result cmp b c = 0 -> result cmp a c = 0
}.

(** ** The heap order on the backing array *)

Section heap_order.
Context {E : Type} (cmp : util.Comparator E).
Implicit Types (l : list E) (i j k n c p : Z).

(** The heap property as the data model states it: every element is at most
    its children at [2i+1] and [2i+2]. *)
Definition heap_ordered l : Prop :=
  forall i c x y, 0 <= i -> c = 2 * i + 1 \/ c = 2 * i + 2 ->
    index l i = Some x -> index l c = Some y -> at_most cmp x y.

(** Slot [p] is at most slot [c]. *)
Definition slot_le l p c : Prop :=
  forall x y, index l p = Some x -> index l c = Some y -> result cmp x y <= 0.

(** The heap property on the first [n] slots, by parents. *)
Definition heap_upto n l : Prop :=
  forall c, 0 < c < n -> slot_le l ((c - 1) / 2) c.

(** The first [n] slots are a heap but for slot [j], which may be smaller
    than its parent: what [up] repairs. *)
Definition hole_up n j l : Prop :=
  (forall c, 0 < c < n -> c <> j -> slot_le l ((c - 1) / 2) c) /\
  (forall c, 0 < c < n -> (c - 1) / 2 = j -> 0 < j -> slot_le l ((j - 1) / 2) c).

(** The first [n] slots are a heap but for slot [i], which may be larger
    than its children: what [down] repairs. *)
Definition hole_down n i l : Prop :=
  (forall c, 0 < c < n -> (c - 1) / 2 <> i -> slot_le l ((c - 1) / 2) c) /\
  (forall c, 0 < c < n -> (c - 1) / 2 = i -> 0 < i -> slot_le l ((i - 1) / 2) c).

(** Slot [i] holds [x], and [x] is at most every child of [i] below [n]. *)
Definition le_children n i l (x : E) : Prop :=
  forall k y, k = 2 * i + 1 \/ k = 2 * i + 2 -> k < n ->
    index l k = Some y -> result cmp x y <= 0.

(** The whole backing array is a heap. *)
Definition is_heap l : Prop := heap_upto (Z.of_nat (length l)) l.

End heap_order.

(** ** The calls of the queue *)

Section queue_specification.
Import util priorityqueue caller.
Context {E : Type} `{GoType E}.
Implicit Types (pq : PriorityQueue E) (item : E).

(** What [Push] appends for [item]: the item, unless it is a nil interface
    value, for which the assertion [x.(E)] fails. *)
Definition appended item : list E :=
  if is_nil item then [] else [item].

(** The index, from [i] on, of the first element that satisfies [q]. *)
Fixpoint first_match (q : E -> bool) (s : list E) (i : Z) : option Z :=
  match s with
  | [] => None
  | v :: rest => if q v then Some i else first_match q rest (i + 1)
  end.

(** The test that [Remove] and [Contains] apply to an element [v] when
    they look for [item]: [==] when the dynamic type of [item] is
    comparable, the configured function otherwise. *)
Definition equal_to pq item (v : E) : outcome bool :=
  if Comparable item then go_eq v item
  else match equals pq with
       | Some eq => Ok (eq v item)
       | None => Panic not_comparable_msg
       end.

(** The test holds of [v]. *)
Definition matches pq item (v : E) : bool :=
  match equal_to pq item v with
  | Ok b => b
  | _ => false
  end.

(** [item] can be looked for among the elements [l]: it has a dynamic
    type, that type is comparable or an equality function is configured,
    and the test returns on every element of [l]. *)
Definition searchable pq item (l : list E) : Prop :=
  is_nil item = false /\
  (Comparable item = true \/ equals pq <> None) /\
  Forall (fun v => equal_to pq item v = Ok (matches pq item v)) l.


(** An option made by one of the three constructors of the package. *)
Definition package_option (opt : Option E) : Prop :=
  (exists n, opt = WithCapacity n) \/
  (exists c, opt = WithComparator c) \/
  (exists f, opt = WithEquals f).

(** An option that supplies no ordering. *)
Definition no_ordering (opt : Option E) : Prop :=
  (exists n, opt = WithCapacity n) \/ (exists f, opt = WithEquals f).

(** An insertion that returned [true] for an item that [Push] appends:
    any item but a nil interface value. *)
Definition insertion_stored (e : event E) : bool :=
  match ev_op e, ev_outcome e with
  | (OpAdd item | OpOffer item), Ok (VBool true) => negb (is_nil item)
  | _, _ => false
  end.

(** The size of the queue after a call, from the size before and the
    outcome of the call. *)
Definition size_after (e : event E) : Z :=
  ev_size e + (if insertion_stored e then 1 else 0)
            - (if removal_succeeded e then 1 else 0)
            - (if polled_nonempty e then 1 else 0).

(** A call of a method as a mutating call, when it is one. *)
Definition as_event (r : record E) : option (event E) :=
  match rec_method r with
  | Mutating o => Some (mk_event o (rec_size r) (rec_outcome r))
  | _ => None
  end.

(** The number of the calls [tr] that are mutating calls of the kind [p]. *)
Definition tally (p : event E -> bool) (tr : list (record E)) : Z :=
  count p (omap as_event tr).

Definition is_Clear (r : record E) : bool :=
  match rec_method r with
  | MClear => true
  | _ => false
  end.

(** The calls made after the last [Clear()], or all of them, after the
    calls [acc] already made since then. *)
Fixpoint after_last_Clear (acc tr : list (record E)) : list (record E) :=
  match tr with
  | [] => acc
  | r :: rest =>
      if is_Clear r then after_last_Clear [] rest
      else after_last_Clear (acc ++ [r]) rest
  end.

Definition since_Clear (tr : list (record E)) : list (record E) :=
  after_last_Clear [] tr.

(** The size of the queue after a call of any method: a mutating call
    changes it as above, [Clear] makes it 0, the others leave it. *)
Definition size_after_method (r : record E) : Z :=
  match rec_method r with
  | Mutating o => size_after (mk_event o (rec_size r) (rec_outcome r))
  | MClear => 0
  | _ => rec_size r
  end.

(** The call inserts a nil interface value. *)
Definition inserts_nil (m : method E) : bool :=
  match m with
  | Mutating (OpAdd item | OpOffer item) => is_nil item
  | _ => false
  end.

(** The size of the queue after a call as its caller counts it: one more
    after an insertion that returned [true], one less after a removal that
    returned [true] or a poll on a queue that was not empty, 0 after
    [Clear], and the same otherwise. *)
Definition size_after_call (r : record E) : Z :=
  match as_event r with
  | Some e =>
      rec_size r + (if insertion_succeeded e then 1 else 0)
                 - (if removal_succeeded e then 1 else 0)
                 - (if polled_nonempty e then 1 else 0)
  | None => if is_Clear r then 0 else rec_size r
  end.

End queue_specification.

(** ** The queue in memory *)

(** Two pieces of code, run from states related by [R], have the same
    outcome and end in related states. *)
Definition sim {H1 H2 A : Type} (R : H1 -> H2 -> Prop)
    (m1 : M H1 A) (m2 : M H2 A) : Prop :=
  forall s1 s2, R s1 s2 ->
    fst (m1 s1) = fst (m2 s2) /\ R (snd (m1 s1)) (snd (m2 s2)).

Section memory_specification.
Import util.
Context {E : Type} `{GoType E}.
Implicit Types (w : memory.world E) (s : memory.slice)
  (ph : priorityqueue.internalHeap E).

(** The slice of the queue lies within its backing array. *)
Definition well_formed w : Prop :=
  (memory.len (memory.q_items w) <= memory.cap (memory.q_items w))%nat /\
  (memory.cap (memory.q_items w) <= length (memory.array (memory.mem w) (memory.q_items w)))%nat.

(** The internal heap [ph] is the queue of the world [w]. *)
Definition represents ph w : Prop :=
  well_formed w /\
  priorityqueue.items ph = memory.view w /\
  priorityqueue.comparator ph = memory.q_comparator w.

(** The slice [s] shares no cell with the slice of the queue. *)
Definition separate s w : Prop :=
  memory.len s = 0%nat \/
  memory.cap (memory.q_items w) = 0%nat \/
  memory.arr (memory.q_items w) <> memory.arr s.

(** What a caller cannot change by writing through another slice. *)
Definition same_queue w w' : Prop :=
  memory.view w' = memory.view w /\
  memory.q_items w' = memory.q_items w /\
  memory.q_comparator w' = memory.q_comparator w /\
  memory.q_equals w' = memory.q_equals w.

(** The queue a well-formed world holds. *)
Definition queue_of w : priorityqueue.PriorityQueue E :=
  priorityqueue.mk_PriorityQueue
    (priorityqueue.mk_internalHeap (memory.view w) (memory.q_comparator w))
    (memory.q_equals w).

End memory_specification.

(** ** The default ordering, as the documentation words it *)

(** The sign of the difference of two [float64] values: -1, 0 or +1 by
    their IEEE comparison, 0 when they are unordered. *)
Definition float64_sign_of_difference (a b : spec_float) : Z :=
  match SFcompare a b with
  | Some Lt => -1
  | Some Gt => 1
  | Some Eq | None => 0
  end.

(** The lexicographic order of strings, byte by byte. *)
Inductive lex_lt : string -> string -> Prop :=
| lex_lt_empty c s : lex_lt EmptyString (String c s)
| lex_lt_head c1 c2 s1 s2 :
    (Ascii.N_of_ascii c1 < Ascii.N_of_ascii c2)%N ->
    lex_lt (String c1 s1) (String c2 s2)
| lex_lt_tail c s1 s2 : lex_lt s1 s2 -> lex_lt (String c s1) (String c s2).

(** A three-way comparison of [int]s that cannot overflow:
    [if a < b { return -1 }; if a > b { return 1 }; return 0]. *)
Definition three_way : util.Comparator Z :=
  fun a b => Ok (if a <? b then -1 else if b <? a then 1 else 0).

(** The comparator of the README: [a.Age - b.Age]. *)
Definition by_age : util.Comparator caller.Person :=
  fun a b => Ok (wrap (caller.Age a - caller.Age b)).

(** * Further definitions for the specifications *)

Section further_specification.
Import util priorityqueue caller.
Context {E : Type} `{GoType E}.

(** The options of the package, by name. *)
Inductive option_name : Type :=
| Capacity (initialCapacity : Z)
| Ordering (c : util.Comparator E)
| Equality (f : Equals E).

Definition option_of (o : option_name) : Option E :=
  match o with
  | Capacity n => WithCapacity n
  | Ordering c => WithComparator c
  | Equality f => WithEquals f
  end.

(** The comparator and the equality function that a list of options leaves
    in place of [c] and [eq], read from left to right; [None] when
    [makeslice] refuses a capacity. *)
Fixpoint configured (names : list option_name) (c : util.Comparator E)
    (eq : option (Equals E)) : option (util.Comparator E * option (Equals E)) :=
  match names with
  | [] => Some (c, eq)
  | Capacity n :: rest => if makeslice_ok n then configured rest c eq else None
  | Ordering c' :: rest => configured rest c' eq
  | Equality f :: rest => configured rest c (Some f)
  end.

Definition is_capacity (o : option_name) : bool :=
  match o with
  | Capacity _ => true
  | _ => false
  end.

Definition capacity_ok (o : option_name) : bool :=
  match o with
  | Capacity n => makeslice_ok n
  | _ => true
  end.

(** The element a call put into the queue, if it did: the item of an
    insertion that returned [true], unless it is a nil interface value,
    which [Push] does not append. *)
Definition put_in (e : event E) : list E :=
  match ev_op e, ev_outcome e with
  | (OpAdd item | OpOffer item), Ok (VBool true) => if is_nil item then [] else [item]
  | _, _ => []
  end.

(** The element a call took out of the queue, if it did: the result of a
    [Poll] that returned, the argument of a [Remove] that returned [true]. *)
Definition taken_out (e : event E) : list E :=
  match ev_op e, ev_outcome e with
  | OpPoll, Ok (VElem x) => [x]
  | OpRemove item, Ok (VBool true) => [item]
  | _, _ => []
  end.

(** Whether the result of a comparison is negative, when it returns. *)
Definition negative (r : outcome Z) : outcome bool :=
  match r with
  | Ok z => Ok (z <? 0)
  | Panic msg => Panic msg
  | OutOfFuel => OutOfFuel
  end.

(** The comparators [c1] and [c2] agree on whether a result is negative,
    for the values that satisfy [P]. *)
Definition same_sign (P : E -> Prop) (c1 c2 : util.Comparator E) : Prop :=
  forall a b, P a -> P b -> negative (c1 a b) = negative (c2 a b).

(** Two internal heaps with the same items, all satisfying [P], one under
    [c1] and the other under [c2]. *)
Definition same_items (P : E -> Prop) (c1 c2 : util.Comparator E)
    (ph1 ph2 : internalHeap E) : Prop :=
  items ph1 = items ph2 /\ Forall P (items ph1) /\
  comparator ph1 = c1 /\ comparator ph2 = c2.

Definition same_queues (P : E -> Prop) (c1 c2 : util.Comparator E)
    (pq1 pq2 : PriorityQueue E) : Prop :=
  same_items P c1 c2 (heap pq1) (heap pq2) /\ equals pq1 = equals pq2.

End further_specification.

Arguments option_name E : clear implicits.

(** The elements lie in one window of width [MaxInt]: the difference of any
    two of them is an [int]. *)
Definition in_window (lo x : Z) : Prop := lo <= x <= lo + MaxInt.

(** A key that places the [float64] values other than NaN in their IEEE
    order, and NaN below them all. *)
Definition float64_rank (x : spec_float) : Z * Z * Z :=
  match x with
  | S754_nan => (-3, 0, 0)
  | S754_infinity true => (-2, 0, 0)
  | S754_finite true m e => (-1, - e, Z.neg m)
  | S754_zero _ => (0, 0, 0)
  | S754_finite false m e => (1, e, Z.pos m)
  | S754_infinity false => (2, 0, 0)
  end.

Definition compare_rank (k1 k2 : Z * Z * Z) : comparison :=
  let '(x1, y1, z1) := k1 in
  let '(x2, y2, z2) := k2 in
  match x1 ?= x2 with
  | Eq => match y1 ?= y2 with Eq => z1 ?= z2 | r => r end
  | r => r
  end.

(** A total three-way comparison of [float64] values. *)
Definition float64_total : util.Comparator spec_float :=
  fun a b =>
    Ok match compare_rank (float64_rank a) (float64_rank b) with
       | Lt => -1
       | Eq => 0
       | Gt => 1
       end.

Definition not_NaN (x : spec_float) : Prop := x <> S754_nan.

(** 1, 5 and 0 as [float64] values. *)
Definition float64_one : spec_float := S754_finite false 4503599627370496 (-52).
Definition float64_five : spec_float := S754_finite false 5629499534213120 (-50).
Definition float64_zero : spec_float := S754_zero false.


(** ** The queue in memory *)

Section allocation_specification.
Import util.
Context {E : Type} `{GoType E}.

(** The option of a name, for the queue in memory. *)
Definition memory_option_of (o : option_name E) : allocation.Option E :=
  match o with
  | Capacity n => allocation.WithCapacity n
  | Ordering c => allocation.WithComparator c
  | Equality f => allocation.WithEquals f
  end.

(** The capacity that a list of options leaves in place of [d]. *)
Fixpoint configured_capacity (names : list (option_name E)) (d : Z) : Z :=
  match names with
  | [] => d
  | Capacity n :: rest => configured_capacity rest n
  | _ :: rest => configured_capacity rest d
  end.

(** The number of [WithCapacity] options. *)
Definition capacities (names : list (option_name E)) : nat :=
  length (filter (fun o => is_capacity o = true) names).

(** The slice of the queue lies on array [a], of capacity [c], with at most
    [n] elements in view, and the memory holds [k] arrays. *)
Definition within (a c k n : nat) (w : memory.world E) : Prop :=
  memory.arr (memory.q_items w) = a /\
  memory.cap (memory.q_items w) = c /\
  length (memory.mem w) = k /\
  (memory.len (memory.q_items w) <= n)%nat.

(** The slice of the queue is [s], on the last of the arrays of the memory,
    which are those of [m0] and one more. *)
Definition on_new_array (s : memory.slice) (m0 : memory.store E)
    (w : memory.world E) : Prop :=
  memory.q_items w = s /\
  length (memory.mem w) = Datatypes.S (length m0) /\
  take (length m0) (memory.mem w) = m0.

(** The slice of the queue is [s], and the memory holds [k] arrays. *)
Definition same_slice (s : memory.slice) (k : nat) (w : memory.world E) : Prop :=
  memory.q_items w = s /\ length (memory.mem w) = k.

(** The queue [pq] is the queue of the world [w]. *)
Definition holds (pq : priorityqueue.PriorityQueue E) (w : memory.world E) : Prop :=
  represents (priorityqueue.heap pq) w /\
  priorityqueue.equals pq = memory.q_equals w.

(** Code that keeps an invariant of the state, whatever its outcome. *)
Definition keeps {S A : Type} (I : S -> Prop) (m : M S A) : Prop :=
  forall s, I s -> I (snd (m s)).

End allocation_specification.

(** A queue of [int]s holding 3 and 5 on an array of four cells, and one on
    an array of two. *)
Definition spacious_world : memory.world Z :=
  memory.mk_world [[3; 5; 0; 0]] (memory.mk_slice 0 2 4) three_way None.

Definition full_world : memory.world Z :=
  memory.mk_world [[3; 5]] (memory.mk_slice 0 2 2) three_way None.

(** * Verification *)

(** ** Lists under [int] indices *)

Section index_lemmas.
Context {A : Type}.
Implicit Types (l : list A) (i j k : Z).


Lemma index_Some l i x : index l i = Some x -> 0 <= i < Z.of_nat (length l).
Proof.
  unfold index. destruct (Z.ltb_spec i 0); [discriminate|].
  intros Hl. apply lookup_lt_Some in Hl. lia.
Qed.

Lemma index_is_Some l i : 0 <= i < Z.of_nat (length l) -> exists x, index l i = Some x.
Proof.
  intros Hi. unfold index. destruct (Z.ltb_spec i 0); [lia|].
  destruct (lookup_lt_is_Some_2 l (Z.to_nat i)) as [x Hx]; [lia|]. eauto.
Qed.

Lemma length_exchange l i j : length (exchange l i j) = length l.
Proof.
  unfold exchange. destruct (index l i), (index l j); try done.
  by rewrite !length_insert.
Qed.

Lemma index_exchange l i j k :
  0 <= i < Z.of_nat (length l) -> 0 <= j < Z.of_nat (length l) ->
  index (exchange l i j) k =
    if decide (k = j) then index l i
    else if decide (k = i) then index l j
    else index l k.
Proof.
  intros Hi Hj. unfold exchange.
  destruct (index_is_Some l i Hi) as [a Ha], (index_is_Some l j Hj) as [b Hb].
  rewrite Ha, Hb. unfold index.
  destruct (Z.ltb_spec k 0).
  { repeat case_decide; try lia; done. }
  case_decide as Hkj.
  { subst k. rewrite list_lookup_insert_eq; [done|]. rewrite length_insert. lia. }
  rewrite list_lookup_insert_ne by lia.
  case_decide as Hki.
  { subst k. by rewrite list_lookup_insert_eq by lia. }
  by rewrite list_lookup_insert_ne by lia.
Qed.

Lemma exchange_Permutation l i j : l ≡ₚ exchange l i j.
Proof.
  unfold exchange.
  destruct (index l i) as [a|] eqn:Ha; [|done].
  destruct (index l j) as [b|] eqn:Hb; [|done].
  pose proof (index_Some _ _ _ Ha) as Hi. pose proof (index_Some _ _ _ Hb) as Hj.
  apply Permutation_inj. split; [by rewrite !length_insert|].
  set (I := Z.to_nat i). set (J := Z.to_nat j).
  exists (fun n => if decide (n = I) then J else if decide (n = J) then I else n).
  split.
  { intros n m. repeat case_decide; lia. }
  intros n.
  assert (l !! I = Some a) as HI.
  { revert Ha. unfold index. destruct (Z.ltb_spec i 0); [lia|]. done. }
  assert (l !! J = Some b) as HJ.
  { revert Hb. unfold index. destruct (Z.ltb_spec j 0); [lia|]. done. }
  case_decide as HnI.
  { subst n. rewrite list_lookup_insert_eq; [done|]. rewrite length_insert; lia. }
  case_decide as HnJ.
  { subst n. rewrite list_lookup_insert_ne by done.
    rewrite list_lookup_insert_eq by lia. done. }
  by rewrite !list_lookup_insert_ne by done.
Qed.

Lemma index_snoc l x k :
  index (l ++ [x]) k =
    if decide (k = Z.of_nat (length l)) then Some x else index l k.
Proof.
  unfold index. destruct (Z.ltb_spec k 0); [case_decide; [lia|done]|].
  case_decide as Hk.
  - subst k. rewrite Nat2Z.id. by rewrite list_lookup_middle.
  - destruct (decide (Z.to_nat k < length l)%nat).
    + by rewrite lookup_app_l.
    + rewrite !lookup_ge_None_2; [done|lia|]. rewrite length_app; simpl; lia.
Qed.

Lemma index_take l n k :
  0 <= n ->
  index (take (Z.to_nat n) l) k = if decide (k < n) then index l k else None.
Proof.
  intros Hn. unfold index. destruct (Z.ltb_spec k 0); [by case_decide|].
  case_decide.
  - by rewrite lookup_take_lt by lia.
  - by rewrite lookup_take_ge by lia.
Qed.

End index_lemmas.

(** ** Orderings *)


Section order_lemmas.
Context {E : Type} (cmp : util.Comparator E) `{!StrictWeakOrder cmp}.

Lemma cmp_refl a : result cmp a a = 0.
Proof. pose proof (cmp_sign a a). lia. Qed.

Lemma cmp_le_trans a b c : result cmp a b <= 0 -> result cmp b c <= 0 -> result cmp a c <= 0.
Proof.
  intros Hab Hbc.
  destruct (Z.lt_trichotomy (result cmp a c) 0) as [?|[?|Hac]]; [lia|lia|].
  apply cmp_sign in Hac.
  destruct (Z.eq_dec (result cmp a b) 0) as [Hab0|]; destruct (Z.eq_dec (result cmp b c) 0) as [Hbc0|].
  - pose proof (cmp_eq_trans _ _ _ Hab0 Hbc0). pose proof (cmp_sign c a). lia.
  - assert (result cmp b a < 0) by (apply (cmp_lt_trans b c a); lia).
    pose proof (cmp_sign b a). lia.
  - assert (result cmp c b < 0) by (apply (cmp_lt_trans c a b); lia).
    pose proof (cmp_sign c b). lia.
  - assert (result cmp a c < 0) by (apply (cmp_lt_trans a b c); lia).
    pose proof (cmp_sign a c). lia.
Qed.

Lemma cmp_not_lt_le a b : (result cmp a b <? 0) = false -> result cmp b a <= 0.
Proof. intros Hlt%Z.ltb_ge. pose proof (cmp_sign a b). pose proof (cmp_sign b a). lia. Qed.

Lemma cmp_le_not_lt a b : result cmp a b <= 0 -> (result cmp b a <? 0) = false.
Proof. intros Hle. apply Z.ltb_ge. pose proof (cmp_sign b a). lia. Qed.

End order_lemmas.


(** ** The methods of [internalHeap] *)

Section methods.
Import priorityqueue.
Context {E : Type} `{util.GoType E}.
Implicit Types (l : list E) (c : util.Comparator E) (i j k n : Z).

Lemma Len_run l c :
  h.Len (mk_internalHeap l c) = (Ok (Z.of_nat (length l)), mk_internalHeap l c).
Proof. reflexivity. Qed.

Lemma Less_run l c `{!Returns c} i j a b :
  index l i = Some a -> index l j = Some b ->
  h.Less i j (mk_internalHeap l c) = (Ok (result c a b <? 0), mk_internalHeap l c).
Proof.
  intros Ha Hb. cbn. unfold Less, bind, get, read_index, call. cbn.
  rewrite Ha, Hb. cbn. by rewrite (returns (cmp := c) a b).
Qed.

Lemma Swap_run l c i j a b :
  index l i = Some a -> index l j = Some b ->
  h.Swap i j (mk_internalHeap l c) = (Ok tt, mk_internalHeap (exchange l i j) c).
Proof.
  intros Ha Hb. cbn. unfold Swap, bind, get, read_index, exchange. cbn.
  by rewrite Ha, Hb.
Qed.

Lemma Swap_panics l c i j :
  index l i = None \/ index l j = None ->
  exists msg, h.Swap i j (mk_internalHeap l c) = (Panic msg, mk_internalHeap l c).
Proof.
  intros Hij. cbn. unfold Swap, bind, get, read_index. cbn.
  destruct (index l j); [|by eexists].
  destruct Hij as [-> | ?]; [by eexists|done].
Qed.

Lemma Push_run l c x :
  h.Push (box x) (mk_internalHeap l c) = (Ok tt, mk_internalHeap (l ++ [x]) c).
Proof. reflexivity. Qed.

Lemma Pop_run l c x :
  index l (Z.of_nat (length l) - 1) = Some x ->
  h.Pop (mk_internalHeap l c) =
    (Ok (util.to_any x), mk_internalHeap (take (Z.to_nat (Z.of_nat (length l) - 1)) l) c).
Proof.
  intros Hx. cbn. unfold Pop, bind, get, read_index. cbn. by rewrite Hx.
Qed.

(** One turn of the loops. *)
Lemma up_loop_S fuel j (ph : internalHeap E) :
  heap.up_loop (S fuel) j ph =
    (let i := (j - 1) ÷ 2 in
     if i =? j then ret tt
     else bind (h.Less j i) (fun lt =>
            if negb lt then ret tt
            else bind (h.Swap i j) (fun _ => heap.up_loop fuel i))) ph.
Proof. reflexivity. Qed.

Lemma down_loop_S fuel i0 i n (ph : internalHeap E) :
  heap.down_loop (S fuel) i0 i n ph =
    (let j1 := 2 * i + 1 in
     if (n <=? j1) || (j1 <? 0) then ret (i0 <? i)
     else
       let j2 := j1 + 1 in
       bind (if j2 <? n
             then bind (h.Less j2 j1) (fun lt => ret (if lt then j2 else j1))
             else ret j1) (fun j =>
       bind (h.Less j i) (fun lt =>
         if negb lt then ret (i0 <? i)
         else bind (h.Swap i j) (fun _ => heap.down_loop fuel i0 j n)))) ph.
Proof. reflexivity. Qed.

End methods.

(** ** [up] and [down] on an [internalHeap] *)

Ltac zlia := Z.to_euclidean_division_equations; lia.

Section sifting.
Import priorityqueue.
Context {E : Type} `{util.GoType E}.
Implicit Types (l : list E) (c : util.Comparator E) (i j k n : Z).

Lemma hole_up_stop c `{!StrictWeakOrder c} n j l a b :
  0 < j < n ->
  index l j = Some a -> index l ((j - 1) / 2) = Some b ->
  (result c a b <? 0) = false ->
  hole_up c n j l -> heap_upto c n l.
Proof.
  intros Hj Ha Hb Hlt [Hup _] k Hk.
  destruct (decide (k = j)) as [->|]; [|by apply Hup].
  intros x y Hx Hy. assert (x = b) by congruence. assert (y = a) by congruence.
  subst. by apply cmp_not_lt_le.
Qed.

Lemma hole_up_step c `{!StrictWeakOrder c} n j l a b :
  0 < j < n -> n <= Z.of_nat (length l) ->
  index l j = Some a -> index l ((j - 1) / 2) = Some b ->
  (result c a b <? 0) = true ->
  hole_up c n j l -> hole_up c n ((j - 1) / 2) (exchange l ((j - 1) / 2) j).
Proof.
  intros Hj Hn Ha Hb Hlt [Hup Hgrand].
  set (i := (j - 1) / 2) in *.
  assert (0 <= i < j) as Hi by (subst i; zlia).
  pose proof (cmp_le_trans c) as Htrans.
  apply Z.ltb_lt in Hlt.
  assert (forall k, 0 <= k < n -> exists z, index l k = Some z) as Hsome.
  { intros k Hk. apply index_is_Some. lia. }
  split.
  - intros k Hk Hki x y. rewrite !index_exchange by lia.
    set (p := (k - 1) / 2). assert (0 <= p < k) by (subst p; zlia).
    destruct (decide (k = j)) as [->|Hkj].
    + rewrite decide_False by lia. rewrite decide_True by done.
      intros Hx Hy. assert (x = a) by congruence. assert (y = b) by congruence.
      subst. lia.
    + rewrite (decide_False (P := k = i)) by done.
      destruct (decide (p = j)) as [Hpj|Hpj].
      * intros Hx Hy. eapply (Hgrand k); [lia|done|lia| |done].
        fold i. congruence.
      * destruct (decide (p = i)) as [Hpi|Hpi].
        -- intros Hx Hy. assert (x = a) by congruence. subst x.
           apply (Htrans a b y); [lia|].
           apply (Hup k); [lia|done| |done]. fold p. congruence.
        -- intros Hx Hy. by apply (Hup k).
  - intros k Hk Hpk Hi0 x y. rewrite !index_exchange by lia.
    set (q := (i - 1) / 2). assert (0 <= q < i) by (subst q; zlia).
    rewrite decide_False by lia. rewrite decide_False by lia.
    intros Hx.
    destruct (decide (k = j)) as [->|Hkj].
    + intros Hy. assert (y = b) by congruence. subst y.
      apply (Hup i); [lia|lia|done|done].
    + rewrite decide_False by zlia. intros Hy.
      apply (Htrans x b y).
      * apply (Hup i); [lia|lia|done|done].
      * apply (Hup k); [lia|done| |done]. congruence.
Qed.

Lemma up_loop_ok fuel : forall j l c, Returns c ->
  0 <= j < Z.of_nat (length l) -> (Z.to_nat j < fuel)%nat ->
  exists l',
    heap.up_loop fuel j (mk_internalHeap l c) = (Ok tt, mk_internalHeap l' c) /\
    l ≡ₚ l' /\ length l' = length l /\
    (forall k, j < k -> index l' k = index l k) /\
    (StrictWeakOrder c -> forall n, j < n <= Z.of_nat (length l) ->
       hole_up c n j l -> heap_upto c n l').
Proof.
  induction fuel as [|fuel IH]; intros j l c Hret Hj Hfuel; [lia|].
  rewrite up_loop_S. cbv zeta.
  destruct (Z.eqb_spec ((j - 1) ÷ 2) j) as [Heq|Hne].
  { exists l. repeat split; try done.
    intros Hswo n Hn [Hup _] k Hk. apply Hup; [done|]. zlia. }
  assert (0 < j) as Hj0 by zlia.
  assert ((j - 1) ÷ 2 = (j - 1) / 2) as -> by zlia.
  set (i := (j - 1) / 2) in *. assert (0 <= i < j) as Hi by (subst i; zlia).
  destruct (index_is_Some l j) as [a Ha]; [lia|].
  destruct (index_is_Some l i) as [b Hb]; [lia|].
  unfold bind at 1. rewrite (Less_run l c j i a b Ha Hb).
  destruct (result c a b <? 0) eqn:Hlt; cbn [negb].
  - unfold bind. rewrite (Swap_run l c i j b a Hb Ha).
    destruct (IH i (exchange l i j) c _) as (l' & Hrun & Hperm & Hlen & Hframe & Hheap).
    { rewrite length_exchange. lia. }
    { lia. }
    exists l'. split; [done|]. split; [|split; [|split]].
    + etrans; [apply (exchange_Permutation l i j)|done].
    + by rewrite Hlen, length_exchange.
    + intros k Hk. rewrite Hframe by lia. rewrite index_exchange by lia.
      by rewrite !decide_False by lia.
    + intros Hswo n Hn Hhole. apply Hheap; [done|rewrite length_exchange; lia|].
      apply (hole_up_step c n j l a b); [lia|lia|done..].
  - exists l. repeat split; try done.
    intros Hswo n Hn Hhole. apply (hole_up_stop c n j l a b); [lia|done..].
Qed.

End sifting.

Section sifting_down.
Import priorityqueue.
Context {E : Type} `{util.GoType E}.
Implicit Types (l : list E) (c : util.Comparator E) (i j k n : Z).


Lemma hole_down_leaf c n i l :
  0 <= i -> n <= 2 * i + 1 -> hole_down c n i l -> heap_upto c n l.
Proof. intros Hi Hn [Hdown _] k Hk. apply Hdown; [done|]. zlia. Qed.

Lemma hole_down_stop c n i l x :
  0 <= i -> index l i = Some x -> le_children c n i l x ->
  hole_down c n i l -> heap_upto c n l.
Proof.
  intros Hi Hx Hle [Hdown _] k Hk.
  destruct (decide ((k - 1) / 2 = i)) as [Hp|Hp]; [|by apply Hdown].
  intros x' y Hx' Hy. rewrite Hp in Hx'. assert (x' = x) by congruence. subst x'.
  apply (Hle k); [zlia|lia|done].
Qed.

Lemma hole_down_step c `{!StrictWeakOrder c} n i j l x y :
  0 <= i -> n <= Z.of_nat (length l) ->
  j = 2 * i + 1 \/ j = 2 * i + 2 -> j < n ->
  index l i = Some x -> index l j = Some y ->
  (result c y x <? 0) = true -> le_children c n i l y ->
  hole_down c n i l -> hole_down c n j (exchange l i j).
Proof.
  intros Hi Hn Hj Hjn Hx Hy Hlt Hle [Hdown Hgrand].
  pose proof (cmp_le_trans c) as Htrans.
  apply Z.ltb_lt in Hlt.
  assert ((j - 1) / 2 = i) as Hpj by zlia.
  split.
  - intros k Hk Hpk x' y'. rewrite !index_exchange by lia.
    remember ((k - 1) / 2) as p eqn:Hp. assert (0 <= p < k) by zlia.
    rewrite (decide_False (P := p = j)) by done.
    destruct (decide (k = j)) as [->|Hkj].
    + rewrite decide_True by lia.
      intros Hx' Hy'. assert (x' = y) by congruence. assert (y' = x) by congruence.
      subst. lia.
    + destruct (decide (k = i)) as [->|Hki].
      * rewrite decide_False by lia.
        intros Hx' Hy'. assert (y' = y) by congruence. subst y'.
        subst p. apply (Hgrand j); [lia|done|lia|done|done].
      * destruct (decide (p = i)) as [Hpi|Hpi].
        -- intros Hx' Hy'. assert (x' = y) by congruence. subst x'.
           apply (Hle k); [zlia|lia|done].
        -- intros Hx' Hy'. subst p. by apply (Hdown k).
  - intros k Hk Hpk _ x' y'. rewrite Hpj. rewrite !index_exchange by lia.
    rewrite decide_False by lia. rewrite decide_True by done.
    rewrite decide_False by zlia. rewrite decide_False by zlia.
    intros Hx' Hy'. assert (x' = y) by congruence. subst x'.
    apply (Hdown k); [lia|zlia| |done]. by rewrite Hpk.
Qed.

(** The choice of the smaller child in [down]. *)
Lemma smaller_child_run l c `{!Returns c} i n :
  0 <= i -> 2 * i + 1 < n <= Z.of_nat (length l) ->
  exists j y,
    (if 2 * i + 1 + 1 <? n
     then bind (h.Less (2 * i + 1 + 1) (2 * i + 1))
            (fun lt => ret (if lt then 2 * i + 1 + 1 else 2 * i + 1))
     else ret (2 * i + 1)) (mk_internalHeap l c) = (Ok j, mk_internalHeap l c) /\
    (j = 2 * i + 1 \/ j = 2 * i + 2) /\ j < n /\
    index l j = Some y /\
    (StrictWeakOrder c -> le_children c n i l y).
Proof.
  intros Hi Hn.
  destruct (index_is_Some l (2 * i + 1)) as [y1 Hy1]; [lia|].
  destruct (Z.ltb_spec (2 * i + 1 + 1) n) as [Hj2|Hj2].
  - destruct (index_is_Some l (2 * i + 1 + 1)) as [y2 Hy2]; [lia|].
    unfold bind. rewrite (Less_run l c _ _ y2 y1 Hy2 Hy1).
    destruct (result c y2 y1 <? 0) eqn:Hlt.
    + exists (2 * i + 1 + 1), y2. repeat split; try done; try lia.
      intros Hswo k y [->| ->] Hk Hy.
      * assert (y = y1) by congruence. subst. apply Z.ltb_lt in Hlt. lia.
      * replace (2 * i + 2) with (2 * i + 1 + 1) in Hy by lia.
        assert (y = y2) by congruence. subst. rewrite (cmp_refl c). lia.
    + exists (2 * i + 1), y1. repeat split; try done; try lia.
      intros Hswo k y [->| ->] Hk Hy.
      * assert (y = y1) by congruence. subst. rewrite (cmp_refl c). lia.
      * replace (2 * i + 2) with (2 * i + 1 + 1) in Hy by lia.
        assert (y = y2) by congruence. subst. by apply cmp_not_lt_le.
  - exists (2 * i + 1), y1. repeat split; try done; try lia.
    intros Hswo k y [->| ->] Hk Hy; [|lia].
    assert (y = y1) by congruence. subst. rewrite (cmp_refl c). lia.
Qed.

Lemma down_loop_ok fuel : forall i0 i n l c, Returns c ->
  0 <= i -> n <= Z.of_nat (length l) -> (Z.to_nat (n - i) < fuel)%nat ->
  exists l' i',
    heap.down_loop fuel i0 i n (mk_internalHeap l c) =
      (Ok (i0 <? i'), mk_internalHeap l' c) /\
    i <= i' /\ (i' = i -> l' = l) /\
    l ≡ₚ l' /\ length l' = length l /\
    (forall k, k < i \/ n <= k -> index l' k = index l k) /\
    (StrictWeakOrder c -> hole_down c n i l -> heap_upto c n l').
Proof.
  induction fuel as [|fuel IH]; intros i0 i n l c Hret Hi Hn Hfuel; [lia|].
  rewrite down_loop_S. cbv zeta.
  destruct ((n <=? 2 * i + 1) || (2 * i + 1 <? 0)) eqn:Hstop.
  { exists l, i. repeat split; try done; try lia.
    intros Hswo Hhole. apply (hole_down_leaf c n i l); [done|lia|done]. }
  apply orb_false_iff in Hstop as [Hj1%Z.leb_gt _].
  destruct (smaller_child_run l c i n) as (j & y & Hpick & Hj & Hjn & Hy & Hmin); [lia|lia|].
  unfold bind at 1. rewrite Hpick.
  destruct (index_is_Some l i) as [x Hx]; [lia|].
  unfold bind at 1. rewrite (Less_run l c j i y x Hy Hx).
  destruct (result c y x <? 0) eqn:Hlt; cbn [negb].
  - unfold bind. rewrite (Swap_run l c i j x y Hx Hy).
    destruct (IH i0 j n (exchange l i j) c _) as (l' & i' & Hrun & Hi' & _ & Hperm & Hlen & Hframe & Hheap).
    { lia. } { rewrite length_exchange. lia. } { lia. }
    exists l', i'. split; [done|]. split; [lia|]. split; [lia|].
    split; [|split; [|split]].
    + etrans; [apply (exchange_Permutation l i j)|done].
    + by rewrite Hlen, length_exchange.
    + intros k Hk. rewrite Hframe by lia. rewrite index_exchange by lia.
      by rewrite !decide_False by lia.
    + intros Hswo Hhole. apply Hheap; [done|].
      apply (hole_down_step c n i j l x y); auto.
  - exists l, i. repeat split; try done; try lia.
    intros Hswo Hhole. apply (hole_down_stop c n i l x); [done|done| |done].
    intros k yk Hk Hkn Hyk.
    apply (cmp_le_trans c x y yk); [by apply cmp_not_lt_le|by apply (Hmin Hswo k)].
Qed.

(** When slot [i] is already at most its children, [down] moves nothing. *)
Lemma down_loop_noop c `{!StrictWeakOrder c} fuel i0 i n l x :
  0 <= i -> n <= Z.of_nat (length l) ->
  index l i = Some x -> le_children c n i l x ->
  heap.down_loop (S fuel) i0 i n (mk_internalHeap l c) =
    (Ok (i0 <? i), mk_internalHeap l c).
Proof.
  intros Hi Hn Hx Hle.
  rewrite down_loop_S. cbv zeta.
  destruct ((n <=? 2 * i + 1) || (2 * i + 1 <? 0)) eqn:Hstop; [done|].
  apply orb_false_iff in Hstop as [Hj1%Z.leb_gt _].
  destruct (smaller_child_run l c i n) as (j & y & Hpick & Hj & Hjn & Hy & Hmin); [lia|lia|].
  unfold bind at 1. rewrite Hpick.
  unfold bind at 1. rewrite (Less_run l c j i y x Hy Hx).
  rewrite (cmp_le_not_lt c x y); [done|]. by apply (Hle j).
Qed.

End sifting_down.

(** ** [heap.Push], [heap.Pop] and [heap.Remove] on an [internalHeap] *)

Section heap_operations.
Import priorityqueue.
Context {E : Type} `{util.GoType E}.
Implicit Types (l : list E) (c : util.Comparator E) (i j k n : Z).


Lemma heap_upto_hole_up c `{!StrictWeakOrder c} n j l :
  n <= Z.of_nat (length l) -> heap_upto c n l -> hole_up c n j l.
Proof.
  intros Hn Hheap. split; [intros k Hk _; by apply Hheap|].
  intros k Hk Hp Hj x y Hx Hy.
  destruct (index_is_Some l j) as [z Hz]; [zlia|].
  apply (cmp_le_trans c x z y).
  - apply (Hheap j); [zlia|done|done].
  - apply (Hheap k); [done| |done]. by rewrite Hp.
Qed.

Lemma heap_upto_le n m c l : m <= n -> heap_upto c n l -> heap_upto c m l.
Proof. intros Hm Hheap k Hk. apply Hheap. lia. Qed.

Lemma heap_upto_agree c n l l' :
  (forall k, 0 <= k < n -> index l' k = index l k) ->
  heap_upto c n l -> heap_upto c n l'.
Proof.
  intros Hagree Hheap k Hk x y. rewrite !Hagree by zlia. by apply Hheap.
Qed.

Lemma list_snoc_index l x :
  index l (Z.of_nat (length l) - 1) = Some x ->
  l = take (Z.to_nat (Z.of_nat (length l) - 1)) l ++ [x].
Proof.
  intros Hx. pose proof (index_Some _ _ _ Hx) as Hlen.
  rewrite <- (take_drop (Z.to_nat (Z.of_nat (length l) - 1)) l) at 1. f_equal.
  revert Hx. unfold index. destruct (Z.ltb_spec (Z.of_nat (length l) - 1) 0); [lia|].
  intros Hx. apply list_eq. intros [|m]; cbn.
  - rewrite lookup_drop. by rewrite Nat.add_0_r.
  - rewrite lookup_drop. apply lookup_ge_None_2. lia.
Qed.

Lemma heap_Push_ok l c `{!Returns c} x :
  exists l',
    heap.Push (box x) (mk_internalHeap l c) = (Ok tt, mk_internalHeap l' c) /\
    l' ≡ₚ x :: l /\
    (StrictWeakOrder c -> is_heap c l -> is_heap c l').
Proof.
  unfold heap.Push. unfold bind at 1. rewrite Push_run.
  unfold bind at 1. rewrite Len_run.
  destruct (up_loop_ok (S (Z.to_nat (Z.of_nat (length (l ++ [x])) - 1)))
              (Z.of_nat (length (l ++ [x])) - 1) (l ++ [x]) c _)
    as (l' & Hrun & Hperm & Hlen & _ & Hheap).
  { rewrite length_app. cbn. lia. } { lia. }
  exists l'. split; [done|]. split.
  - rewrite <- Hperm. by rewrite Permutation_app_comm.
  - intros Hswo Hl. unfold is_heap. rewrite Hlen.
    apply Hheap; [done|lia|]. rewrite length_app. cbn.
    replace (Z.of_nat (length l + 1) - 1) with (Z.of_nat (length l)) by lia.
    split.
    + intros k Hk Hne u v. rewrite !index_snoc.
      rewrite !decide_False by zlia. by apply Hl; lia.
    + intros k Hk Hp. zlia.
Qed.

(** [heap.Push] of a nil [any]: nothing is appended, and [up] runs on the
    last element there is. *)
Lemma heap_Push_nil_ok l c `{!Returns c} :
  exists l',
    heap.Push nil_any (mk_internalHeap l c) = (Ok tt, mk_internalHeap l' c) /\
    l' ≡ₚ l /\
    (StrictWeakOrder c -> is_heap c l -> is_heap c l').
Proof.
  unfold heap.Push. unfold bind at 1.
  change (h.Push nil_any (mk_internalHeap l c)) with (Ok tt, mk_internalHeap l c).
  unfold bind at 1. rewrite Len_run.
  destruct (decide (l = [])) as [->|Hne].
  { exists []. split; [reflexivity|done]. }
  assert (0 < length l)%nat as Hpos by (destruct l; [done|cbn; lia]).
  destruct (up_loop_ok (S (Z.to_nat (Z.of_nat (length l) - 1)))
              (Z.of_nat (length l) - 1) l c _)
    as (l' & Hrun & Hperm & Hlen & _ & Hheap).
  { lia. } { lia. }
  exists l'. split; [done|]. split; [done|].
  intros Hswo Hl. unfold is_heap. rewrite Hlen.
  apply Hheap; [done|lia|]. apply heap_upto_hole_up; [done|lia|].
  apply (heap_upto_le (Z.of_nat (length l))); [lia|done].
Qed.

Lemma hole_down_root c n l :
  0 <= n -> Z.of_nat (length l) = n + 1 ->
  is_heap c l -> hole_down c n 0 (exchange l 0 n).
Proof.
  intros Hn Hlen Hheap. split; [|lia].
  intros k Hk Hp x y. rewrite !index_exchange by lia.
  rewrite !decide_False by zlia. apply Hheap. lia.
Qed.

Lemma heap_Pop_empty c :
  exists msg, heap.Pop (mk_internalHeap ([] : list E) c) = (Panic msg, mk_internalHeap [] c).
Proof.
  unfold heap.Pop. unfold bind at 1. rewrite Len_run. cbn [length].
  unfold bind at 1.
  destruct (Swap_panics [] c 0 (Z.of_nat 0 - 1)) as [msg ->]; [by left|]. by eexists.
Qed.

Lemma heap_Pop_ok l c `{!Returns c} :
  l <> [] ->
  exists x l',
    heap.Pop (mk_internalHeap l c) = (Ok (util.to_any x), mk_internalHeap l' c) /\
    index l 0 = Some x /\ l ≡ₚ x :: l' /\
    (StrictWeakOrder c -> is_heap c l -> is_heap c l').
Proof.
  intros Hne. assert (0 < Z.of_nat (length l)) as Hlen by (destruct l; [done|cbn; lia]).
  unfold heap.Pop. unfold bind at 1. rewrite Len_run. cbv zeta.
  set (n := Z.of_nat (length l) - 1).
  destruct (index_is_Some l 0) as [x Hx]; [lia|].
  destruct (index_is_Some l n) as [v Hv]; [lia|].
  unfold bind at 1. rewrite (Swap_run l c 0 n x v Hx Hv).
  destruct (down_loop_ok (S (Z.to_nat n)) 0 0 n (exchange l 0 n) c _)
    as (l2 & i' & Hrun & _ & _ & Hperm & Hlen2 & Hframe & Hheap).
  { lia. } { rewrite length_exchange. lia. } { lia. }
  unfold bind at 1. unfold heap.down. rewrite Hrun.
  assert (index l2 (Z.of_nat (length l2) - 1) = Some x) as Hlast.
  { rewrite Hlen2, length_exchange. fold n. rewrite Hframe by lia.
    rewrite index_exchange by lia. by rewrite decide_True. }
  rewrite (Pop_run l2 c x Hlast). rewrite Hlen2, length_exchange. fold n.
  exists x, (take (Z.to_nat n) l2). split; [done|]. split; [done|]. split.
  - rewrite (exchange_Permutation l 0 n), Hperm.
    rewrite (list_snoc_index l2 x Hlast) at 1.
    rewrite Hlen2, length_exchange. fold n. by rewrite Permutation_app_comm.
  - intros Hswo Hl. unfold is_heap. rewrite length_take, Hlen2, length_exchange.
    replace (Z.of_nat (Z.to_nat n `min` length l)) with n by lia.
    apply (heap_upto_agree c n l2).
    { intros k Hk. rewrite index_take by lia. by rewrite decide_True by lia. }
    apply Hheap; [done|]. apply hole_down_root; [lia|lia|done].
Qed.

End heap_operations.

Section heap_remove.
Import priorityqueue.
Context {E : Type} `{util.GoType E}.
Implicit Types (l : list E) (c : util.Comparator E) (i j k n : Z).

(** After the last element [v] has been swapped into slot [i], the first
    [n] slots can be repaired downwards when [v] is not below the parent of
    [i]. *)
Lemma hole_down_removed c `{!StrictWeakOrder c} n i l v :
  0 <= i < n -> Z.of_nat (length l) = n + 1 ->
  index l n = Some v ->
  (i = 0 \/ forall p, index l ((i - 1) / 2) = Some p -> result c p v <= 0) ->
  is_heap c l -> hole_down c n i (exchange l i n).
Proof.
  intros Hi Hlen Hv Hpar Hheap. split.
  - intros k Hk Hp x y. rewrite !index_exchange by lia.
    rewrite (decide_False (P := _ = n)) by zlia.
    rewrite (decide_False (P := _ = i)) by done.
    rewrite (decide_False (P := k = n)) by lia.
    destruct (decide (k = i)) as [->|Hki].
    + intros Hx Hy. assert (y = v) by congruence. subst y.
      destruct Hpar as [?|Hpar]; [lia|]. by apply Hpar.
    + apply Hheap. lia.
  - intros k Hk Hp Hi0 x y. rewrite !index_exchange by lia.
    rewrite (decide_False (P := _ = n)) by zlia.
    rewrite (decide_False (P := _ = i)) by zlia.
    rewrite (decide_False (P := k = n)) by lia.
    rewrite (decide_False (P := k = i)) by zlia.
    intros Hx Hy.
    destruct (index_is_Some l i) as [z Hz]; [lia|].
    apply (cmp_le_trans c x z y).
    + apply (Hheap i); [lia|done|done].
    + apply (Hheap k); [lia| |done]. by rewrite Hp.
Qed.

(** When [v] is at most the children of [i], the first [n] slots can be
    repaired upwards. *)
Lemma hole_up_removed c `{!StrictWeakOrder c} n i l v :
  0 <= i < n -> Z.of_nat (length l) = n + 1 ->
  index l n = Some v ->
  le_children c n i (exchange l i n) v ->
  is_heap c l -> hole_up c n i (exchange l i n).
Proof.
  intros Hi Hlen Hv Hle Hheap. split.
  - intros k Hk Hki x y.
    destruct (decide ((k - 1) / 2 = i)) as [Hp|Hp].
    + rewrite Hp. rewrite (index_exchange l i n i) by lia.
      rewrite decide_False by lia. rewrite decide_True by done.
      intros Hx Hy. assert (x = v) by congruence. subst x.
      apply (Hle k); [zlia|lia|done].
    + rewrite !index_exchange by lia.
      rewrite (decide_False (P := _ = n)) by zlia.
      rewrite (decide_False (P := _ = i)) by done.
      rewrite (decide_False (P := k = n)) by lia.
      rewrite (decide_False (P := k = i)) by done.
      apply Hheap. lia.
  - intros k Hk Hp Hi0 x y. rewrite !index_exchange by lia.
    rewrite (decide_False (P := _ = n)) by zlia.
    rewrite (decide_False (P := _ = i)) by zlia.
    rewrite (decide_False (P := k = n)) by lia.
    rewrite (decide_False (P := k = i)) by zlia.
    intros Hx Hy.
    destruct (index_is_Some l i) as [z Hz]; [lia|].
    apply (cmp_le_trans c x z y).
    + apply (Hheap i); [lia|done|done].
    + apply (Hheap k); [lia| |done]. by rewrite Hp.
Qed.

(** When [v] is below the parent of [i], it is at most the children of [i]. *)
Lemma le_children_removed c `{!StrictWeakOrder c} n i l v p :
  0 < i < n -> Z.of_nat (length l) = n + 1 ->
  index l n = Some v -> index l ((i - 1) / 2) = Some p -> 0 < result c p v ->
  is_heap c l -> le_children c n i (exchange l i n) v.
Proof.
  intros Hi Hlen Hv Hp Hlt Hheap k y Hk Hkn.
  rewrite index_exchange by lia. rewrite !decide_False by lia. intros Hy.
  destruct (index_is_Some l i) as [z Hz]; [lia|].
  apply (cmp_le_trans c v p y); [apply cmp_sign in Hlt; lia|].
  apply (cmp_le_trans c p z y).
  - apply (Hheap i); [lia|done|done].
  - apply (Hheap k); [lia| |done]. by replace ((k - 1) / 2) with i by zlia.
Qed.

Lemma heap_Remove_ok l c `{!Returns c} i :
  0 <= i < Z.of_nat (length l) ->
  exists x l',
    heap.Remove i (mk_internalHeap l c) = (Ok (util.to_any x), mk_internalHeap l' c) /\
    index l i = Some x /\ l ≡ₚ x :: l' /\
    (StrictWeakOrder c -> is_heap c l -> is_heap c l').
Proof.
  intros Hi.
  unfold heap.Remove. unfold bind at 1. rewrite Len_run. cbv zeta.
  set (n := Z.of_nat (length l) - 1).
  destruct (index_is_Some l i) as [x Hx]; [lia|].
  destruct (Z.eqb_spec n i) as [Heq|Hne]; cbn [negb].
  { (* the last slot: nothing to repair *)
    unfold bind, ret. subst i. rewrite (Pop_run l c x Hx). fold n.
    exists x, (take (Z.to_nat n) l). split; [done|]. split; [done|]. split.
    - rewrite (list_snoc_index l x Hx) at 1. fold n. by rewrite Permutation_app_comm.
    - intros Hswo Hl. unfold is_heap. rewrite length_take.
      replace (Z.of_nat (Z.to_nat n `min` length l)) with n by lia.
      apply (heap_upto_agree c n l).
      { intros k Hk. rewrite index_take by lia. by rewrite decide_True by lia. }
      apply (heap_upto_le (Z.of_nat (length l))); [lia|done]. }
  destruct (index_is_Some l n) as [v Hv]; [lia|].
  set (l1 := exchange l i n).
  assert (length l1 = length l) as Hlen1 by apply length_exchange.
  destruct (down_loop_ok (S (Z.to_nat n)) i i n l1 c _)
    as (l2 & i' & Hdown & Hi' & Hsame & Hperm2 & Hlen2 & Hframe2 & Hheap2).
  { lia. } { lia. } { lia. }
  destruct (up_loop_ok (S (Z.to_nat i)) i l2 c _)
    as (l3 & Hup & Hperm3 & Hlen3 & Hframe3 & Hheap3).
  { lia. } { lia. }
  (* the run of the repair, whichever branch is taken *)
  assert (exists l4,
    (bind (h.Swap i n) (fun _ =>
       bind (heap.down i n) (fun moved =>
         if negb moved then heap.up i else ret tt))) (mk_internalHeap l c) =
      (Ok tt, mk_internalHeap l4 c) /\
    l ≡ₚ l4 /\ length l4 = length l /\ index l4 n = Some x /\
    (StrictWeakOrder c -> is_heap c l -> heap_upto c n l4))
    as (l4 & Hrun & Hperm4 & Hlen4 & Hlast & Hheap4).
  { unfold bind at 1. rewrite (Swap_run l c i n x v Hx Hv). fold l1.
    unfold bind at 1. unfold heap.down. rewrite Hdown.
    assert (index l1 n = Some x) as Hl1n.
    { unfold l1. rewrite index_exchange by lia. by rewrite decide_True. }
    destruct (Z.ltb_spec i i') as [Hmoved|Hstay]; cbn [negb].
    - (* [down] moved the element *)
      exists l2. split; [done|]. split; [|split; [|split]].
      + by rewrite (exchange_Permutation l i n).
      + lia.
      + rewrite Hframe2 by lia. done.
      + intros Hswo Hl. apply Hheap2; [done|].
        destruct (decide (i = 0)) as [Hi0|Hi0].
        { apply hole_down_removed with v; auto; lia. }
        destruct (index_is_Some l ((i - 1) / 2)) as [p Hp]; [zlia|].
        destruct (Z.le_gt_cases (result c p v) 0) as [Hle|Hgt].
        { apply hole_down_removed with v; auto; [lia|lia|].
          right. intros p' Hp'. by assert (p' = p) as -> by congruence. }
        (* otherwise [down] would not have moved *)
        exfalso.
        assert (index l1 i = Some v) as Hl1i.
        { unfold l1. rewrite index_exchange by lia.
          rewrite decide_False by lia. by rewrite decide_True. }
        rewrite (down_loop_noop c (Z.to_nat n) i i n l1 v) in Hdown;
          [|lia|lia|done|].
        * injection Hdown as Hb _. rewrite Z.ltb_irrefl in Hb. discriminate.
        * apply le_children_removed with p; auto; lia.
    - (* [down] left the element in place: [up] runs *)
      assert (l2 = l1) as -> by (apply Hsame; lia).
      unfold heap.up. rewrite Hup.
      exists l3. split; [done|]. split; [|split; [|split]].
      + by rewrite (exchange_Permutation l i n).
      + lia.
      + rewrite Hframe3 by lia. done.
      + intros Hswo Hl. apply Hheap3; [done|lia|].
        destruct (decide (i = 0)) as [Hi0|Hi0].
        { apply heap_upto_hole_up; [done|lia|]. apply Hheap2; [done|].
          apply hole_down_removed with v; auto; lia. }
        destruct (index_is_Some l ((i - 1) / 2)) as [p Hp]; [zlia|].
        destruct (Z.le_gt_cases (result c p v) 0) as [Hle|Hgt].
        { apply heap_upto_hole_up; [done|lia|]. apply Hheap2; [done|].
          apply hole_down_removed with v; auto; [lia|lia|].
          right. intros p' Hp'. by assert (p' = p) as -> by congruence. }
        apply hole_up_removed with v; auto; [lia|lia|].
        apply le_children_removed with p; auto; lia. }
  unfold bind at 1.
  change (bind (h.Swap i n) _ (mk_internalHeap l c)) with
    ((bind (h.Swap i n) (fun _ =>
       bind (heap.down i n) (fun moved =>
         if negb moved then heap.up i else ret tt))) (mk_internalHeap l c)).
  rewrite Hrun.
  assert (index l4 (Z.of_nat (length l4) - 1) = Some x) as Hlast'.
  { rewrite Hlen4. by fold n. }
  rewrite (Pop_run l4 c x Hlast'). rewrite Hlen4. fold n.
  exists x, (take (Z.to_nat n) l4). split; [done|]. split; [done|]. split.
  - rewrite Hperm4. rewrite (list_snoc_index l4 x Hlast') at 1.
    rewrite Hlen4. fold n. by rewrite Permutation_app_comm.
  - intros Hswo Hl. unfold is_heap. rewrite length_take, Hlen4.
    replace (Z.of_nat (Z.to_nat n `min` length l)) with n by lia.
    apply (heap_upto_agree c n l4).
    { intros k Hk. rewrite index_take by lia. by rewrite decide_True by lia. }
    by apply Hheap4.
Qed.

End heap_remove.

(** ** The operations of the queue *)

Section queue_operations.
Import util priorityqueue.
Context {E : Type} `{GoType E}.
Implicit Types (l : list E) (c : util.Comparator E) (eq : option (util.Equals E))
  (pq : PriorityQueue E) (item : E).


Lemma at_most_result c `{!Returns c} (a b : E) :
  at_most c a b <-> result c a b <= 0.
Proof.
  unfold at_most. rewrite (returns (cmp := c) a b). split.
  - by intros (z & [= <-] & Hz).
  - intros Hz. by eexists.
Qed.

Lemma heap_ordered_is_heap c `{!Returns c} l : heap_ordered c l <-> is_heap c l.
Proof.
  split.
  - intros Hl k Hk x y Hx Hy. apply (at_most_result c).
    apply (Hl ((k - 1) / 2) k); [zlia|zlia|done|done].
  - intros Hl i k x y Hi Hk Hx Hy. apply (at_most_result c).
    pose proof (index_Some _ _ _ Hy).
    apply (Hl k); [lia| |done]. by replace ((k - 1) / 2) with i by zlia.
Qed.

Lemma is_heap_nil c : is_heap c ([] : list E).
Proof. intros k Hk. cbn in Hk. lia. Qed.

(** The root of a heap is a minimum. *)
Lemma is_heap_root_min c `{!StrictWeakOrder c} l x :
  is_heap c l -> index l 0 = Some x ->
  forall k y, index l k = Some y -> result c x y <= 0.
Proof.
  intros Hl Hx k y Hy. pose proof (index_Some _ _ _ Hy) as Hk.
  assert (0 <= k) as Hk0 by lia. revert y Hy Hk.
  pattern k. apply Zlt_0_ind; [|done].
  clear k Hk0. intros k IH Hk0 y Hy Hk.
  destruct (decide (k = 0)) as [->|Hne].
  { assert (y = x) by congruence. subst. rewrite (cmp_refl c). lia. }
  destruct (index_is_Some l ((k - 1) / 2)) as [p Hp]; [zlia|].
  apply (cmp_le_trans c x p y).
  - apply (IH ((k - 1) / 2)); [zlia|done|zlia].
  - apply (Hl k); [lia|done|done].
Qed.

(** [any(x)] and back: what [Poll] returns for the element [heap.Pop]
    hands it. *)
Lemma from_to_any (x : E) :
  match to_any x with
  | nil_any => zero
  | box y => y
  end = x.
Proof.
  unfold to_any. destruct (is_nil x) eqn:Hx; [|done].
  symmetry. by apply nil_is_zero.
Qed.

Lemma heap_Push_to_any_ok l c `{!Returns c} item :
  exists l',
    heap.Push (to_any item) (mk_internalHeap l c) = (Ok tt, mk_internalHeap l' c) /\
    l' ≡ₚ appended item ++ l /\
    (StrictWeakOrder c -> is_heap c l -> is_heap c l').
Proof.
  unfold to_any, appended. destruct (is_nil item).
  - exact (heap_Push_nil_ok l c).
  - exact (heap_Push_ok l c item).
Qed.

Lemma Offer_ok item l c `{!Returns c} eq :
  exists l',
    Offer item (mk_PriorityQueue (mk_internalHeap l c) eq) =
      (Ok true, mk_PriorityQueue (mk_internalHeap l' c) eq) /\
    l' ≡ₚ appended item ++ l /\
    (StrictWeakOrder c -> is_heap c l -> is_heap c l').
Proof.
  destruct (heap_Push_to_any_ok l c item) as (l' & Hrun & Hperm & Hheap).
  exists l'. split; [|done].
  unfold Offer, on_heap. cbn [heap equals]. by rewrite Hrun.
Qed.

Lemma Add_ok item l c `{!Returns c} eq :
  exists l',
    Add item (mk_PriorityQueue (mk_internalHeap l c) eq) =
      (Ok true, mk_PriorityQueue (mk_internalHeap l' c) eq) /\
    l' ≡ₚ appended item ++ l /\
    (StrictWeakOrder c -> is_heap c l -> is_heap c l').
Proof.
  destruct (Offer_ok item l c eq) as (l' & Hrun & Hrest).
  exists l'. split; [|done]. unfold Add, bind. by rewrite Hrun.
Qed.

(** *** Whatever the ordering function does

    The calls of the ordering function change nothing, and an exchange of
    two elements keeps their number: an insertion appends its item also when
    the ordering function panics. *)

Lemma Less_state i j (ph : internalHeap E) : snd (Less i j ph) = ph.
Proof.
  unfold Less, bind, get, call, ret, read_index.
  destruct (index (items ph) i) as [a|]; [|done].
  destruct (index (items ph) j) as [b|]; [|done].
  cbn. by destruct (comparator ph a b).
Qed.

Lemma Swap_state i j (ph : internalHeap E) :
  exists l,
    snd (Swap i j ph) = mk_internalHeap l (comparator ph) /\
    length l = length (items ph).
Proof.
  unfold Swap, bind, get, set_items, read_index. destruct ph as [l c].
  destruct (index l j) as [b|] eqn:Hj; cbn; rewrite Hj; [|by exists l].
  destruct (index l i) as [a|] eqn:Hi; cbn; [|by exists l].
  eexists. split; [done|]. by rewrite !length_insert.
Qed.

Lemma up_loop_state fuel : forall j (ph : internalHeap E),
  exists l,
    snd (heap.up_loop fuel j ph) = mk_internalHeap l (comparator ph) /\
    length l = length (items ph).
Proof.
  induction fuel as [|fuel IH]; intros j ph; [exists (items ph); by destruct ph|].
  cbn [heap.up_loop]. destruct ((j - 1) ÷ 2 =? j); [exists (items ph); by destruct ph|].
  unfold bind at 1. cbn [h.Less internalHeap_Interface].
  pose proof (Less_state j ((j - 1) ÷ 2) ph) as Hless.
  destruct (Less j ((j - 1) ÷ 2) ph) as [[lt|msg|] ph1]; cbn in Hless; subst ph1;
    [|exists (items ph); by destruct ph..].
  destruct lt; [|exists (items ph); by destruct ph]. cbn [negb].
  unfold bind. cbn [h.Swap internalHeap_Interface].
  destruct (Swap_state ((j - 1) ÷ 2) j ph) as (l1 & Hswap & Hlen).
  destruct (Swap ((j - 1) ÷ 2) j ph) as [[[]|msg|] ph1]; cbn in Hswap; subst ph1;
    [|by exists l1..].
  destruct (IH ((j - 1) ÷ 2) (mk_internalHeap l1 (comparator ph))) as (l2 & Hup & Hlen').
  exists l2. split; [done|]. cbn in Hlen'. congruence.
Qed.

(** [Offer] and [Add] append their item, whatever they return. *)
Lemma Offer_state item pq :
  exists l,
    snd (Offer item pq) = mk_PriorityQueue (mk_internalHeap l (comparator (heap pq))) (equals pq) /\
    length l = length (appended item ++ items (heap pq)) /\
    snd (Add item pq) = snd (Offer item pq).
Proof.
  assert (snd (Add item pq) = snd (Offer item pq)) as HAdd.
  { unfold Add, bind. by destruct (Offer item pq) as [[[]|msg|] pq']. }
  destruct pq as [[l0 c] eq]. cbn [heap equals comparator items] in *.
  assert (exists l, snd (heap.Push (to_any item) (mk_internalHeap l0 c)) = mk_internalHeap l c /\
                    length l = length (appended item ++ l0)) as (l & Hpush & Hlen).
  { unfold to_any, appended.
    destruct (is_nil item); unfold heap.Push; unfold bind at 1;
      cbn [h.Push internalHeap_Interface Push];
      unfold bind, get, set_items, ret; cbn [h.Len internalHeap_Interface Len];
      unfold bind, get, ret, heap.up, Len; unfold bind, get, ret; cbn [items comparator];
      match goal with |- context [heap.up_loop ?f ?j ?p] =>
        destruct (up_loop_state f j p) as (l & Hup & Hlen) end;
      exists l; (split; [exact Hup|]); rewrite Hlen; cbn [items];
      rewrite ?length_app; cbn; lia. }
  exists l. split; [|done].
  unfold Offer, on_heap in *. cbn [heap equals] in *.
  by destruct (heap.Push (to_any item) (mk_internalHeap l0 c)) as [[[]|msg|] ph']; cbn in *; subst.
Qed.

Lemma Poll_empty c eq :
  Poll (mk_PriorityQueue (mk_internalHeap [] c) eq) =
    (Panic "runtime error: index out of range",
     mk_PriorityQueue (mk_internalHeap [] c) eq).
Proof. reflexivity. Qed.

Lemma Poll_ok l c `{!Returns c} eq :
  l <> [] ->
  exists x l',
    Poll (mk_PriorityQueue (mk_internalHeap l c) eq) =
      (Ok x, mk_PriorityQueue (mk_internalHeap l' c) eq) /\
    index l 0 = Some x /\ l ≡ₚ x :: l' /\
    (StrictWeakOrder c -> is_heap c l -> is_heap c l').
Proof.
  intros Hne. destruct (heap_Pop_ok l c Hne) as (x & l' & Hrun & Hrest).
  exists x, l'. split; [|done].
  unfold Poll, bind, on_heap. cbn [heap equals]. rewrite Hrun.
  pose proof (from_to_any x) as Hx. by destruct (to_any x); cbn in *; subst.
Qed.

Lemma first_match_None (q : E -> bool) l i :
  first_match q l i = None <-> existsb q l = false.
Proof.
  revert i. induction l as [|v l IH]; intros i; cbn; [done|].
  destruct (q v); cbn; [done|apply IH].
Qed.

Lemma first_match_Some (q : E -> bool) l i k :
  first_match q l i = Some k ->
  i <= k < i + Z.of_nat (length l) /\ existsb q l = true /\
  (exists x, index l (k - i) = Some x /\ q x = true) /\
  (forall j u, 0 <= j < k - i -> index l j = Some u -> q u = false).
Proof.
  revert i. induction l as [|v l IH]; intros i; cbn [first_match]; [done|].
  destruct (q v) eqn:Hv.
  - intros [= <-]. split; [cbn; lia|]. split; [by cbn; rewrite Hv|].
    split; [|intros; lia]. exists v. rewrite Z.sub_diag. done.
  - intros Hk. apply IH in Hk as (Hrange & Hex & (x & Hx & Hpx) & Hfirst).
    split; [cbn [length]; lia|]. split; [by cbn; rewrite Hv|]. split.
    + exists x. split; [|done]. revert Hx. unfold index.
      destruct (Z.ltb_spec (k - (i + 1)) 0); [done|].
      destruct (Z.ltb_spec (k - i) 0); [lia|].
      replace (Z.to_nat (k - i)) with (S (Z.to_nat (k - (i + 1)))) by lia. done.
    + intros j u Hj. destruct (decide (j = 0)) as [->|Hj0].
      * cbn. by intros [= <-].
      * intros Hu. apply (Hfirst (j - 1)); [lia|]. revert Hu. unfold index.
        destruct (Z.ltb_spec j 0); [done|].
        destruct (Z.ltb_spec (j - 1) 0); [lia|].
        replace (Z.to_nat j) with (S (Z.to_nat (j - 1))) by lia. done.
Qed.

(** The scan with a test that returns on every element. *)
Lemma range_find_returns (p : E -> outcome bool) (q : E -> bool) l i :
  Forall (fun v => p v = Ok (q v)) l -> range_find p l i = Ok (first_match q l i).
Proof.
  intros Hl. revert i. induction Hl as [|v l Hv Hl IH]; intros i; cbn; [done|].
  rewrite Hv. destruct (q v); [done|apply IH].
Qed.

(** The scan returns or panics, and an index it returns is in range. *)
Lemma range_find_ends (p : E -> outcome bool) l i :
  (forall v, p v <> OutOfFuel) -> range_find p l i <> OutOfFuel.
Proof.
  intros Hp. revert i. induction l as [|v l IH]; intros i; cbn; [done|].
  specialize (Hp v). destruct (p v) as [[]| |]; (done || apply IH).
Qed.

Lemma range_find_in_range (p : E -> outcome bool) l i k :
  range_find p l i = Ok (Some k) ->
  (i <= k < i + Z.of_nat (length l)) /\
  (exists x, index l (k - i) = Some x /\ p x = Ok true).
Proof.
  revert i. induction l as [|v l IH]; intros i; cbn [range_find]; [done|].
  destruct (p v) as [[]| |] eqn:Hv; try done.
  - intros [= <-]. split; [cbn; lia|]. exists v. by rewrite Z.sub_diag.
  - intros (Hk & x & Hx & Hpx)%IH. split; [cbn [length]; lia|].
    exists x. split; [|done]. revert Hx. unfold index.
    destruct (Z.ltb_spec (k - (i + 1)) 0); [done|].
    destruct (Z.ltb_spec (k - i) 0); [lia|].
    replace (Z.to_nat (k - i)) with (S (Z.to_nat (k - (i + 1)))) by lia. done.
Qed.

(** [heap.Remove] at an index in range, as [Remove] calls it. *)
Lemma Remove_at l c `{!Returns c} eq i :
  0 <= i < Z.of_nat (length l) ->
  exists x l',
    bind (on_heap (heap.Remove i)) (fun _ => ret true)
        (mk_PriorityQueue (mk_internalHeap l c) eq) =
      (Ok true, mk_PriorityQueue (mk_internalHeap l' c) eq) /\
    index l i = Some x /\ l ≡ₚ x :: l' /\
    (StrictWeakOrder c -> is_heap c l -> is_heap c l').
Proof.
  intros Hi.
  destruct (heap_Remove_ok l c i Hi) as (x & l' & Hrun & Hrest).
  exists x, l'. split; [|done].
  unfold bind, on_heap. cbn [heap equals]. by rewrite Hrun.
Qed.


(** [Remove] and [Contains] written with the test they apply. *)
Lemma Remove_unfold item pq :
  Remove item pq =
    if is_nil item then (Panic nil_dereference_msg, pq)
    else if negb (Comparable item) && negb (bool_decide (is_Some (equals pq)))
    then (Panic not_comparable_msg, pq)
    else
      bind (call (range_find (equal_to pq item) (items (heap pq)) 0)) (fun found =>
        match found with
        | Some i => bind (on_heap (heap.Remove i)) (fun _ => ret true)
        | None => ret false
        end) pq.
Proof.
  unfold Remove, reflect_Comparable, equal_to, bind at 1, get.
  destruct (is_nil item); [done|]. unfold bind at 1, ret.
  destruct (Comparable item); cbn [negb andb]; [done|].
  destruct (equals pq) as [f|]; cbn; done.
Qed.

Lemma Contains_unfold item pq :
  Contains item pq =
    if is_nil item then (Panic nil_dereference_msg, pq)
    else if negb (Comparable item) && negb (bool_decide (is_Some (equals pq)))
    then (Panic not_comparable_msg, pq)
    else
      bind (call (range_find (equal_to pq item) (items (heap pq)) 0)) (fun found =>
        match found with
        | Some _ => ret true
        | None => ret false
        end) pq.
Proof.
  unfold Contains, reflect_Comparable, equal_to, bind at 1, get.
  destruct (is_nil item); [done|]. unfold bind at 1, ret.
  destruct (Comparable item); cbn [negb andb]; [done|].
  destruct (equals pq) as [f|]; cbn; done.
Qed.

Lemma equal_to_ends pq item v :
  Comparable item = true \/ equals pq <> None -> equal_to pq item v <> OutOfFuel.
Proof.
  intros Hcfg. unfold equal_to. destruct (Comparable item); [apply go_eq_ends|].
  destruct (equals pq); [done|]. by destruct Hcfg.
Qed.

Lemma not_configured item pq :
  negb (Comparable item) && negb (bool_decide (is_Some (equals pq))) = false <->
  Comparable item = true \/ equals pq <> None.
Proof.
  destruct (Comparable item); cbn; [by split; [left|]|].
  destruct (equals pq) as [f|]; cbn.
  - split; [by right|done].
  - split; [done|]. intros [?|?]; done.
Qed.


(** [Remove] of an item that no element matches calls no ordering
    function. *)
Lemma Remove_none item pq :
  searchable pq item (items (heap pq)) ->
  existsb (matches pq item) (items (heap pq)) = false ->
  Remove item pq = (Ok false, pq).
Proof.
  intros (Hnil & Hcfg & Htest) Hnone. rewrite Remove_unfold, Hnil.
  rewrite (proj2 (not_configured item pq) Hcfg).
  rewrite (range_find_returns _ (matches pq item)) by done.
  apply first_match_None with (i := 0) in Hnone. by rewrite Hnone.
Qed.

(** [Remove] in every case: it returns or panics; when it returns [true]
    one element is gone, and otherwise the queue is as it was. *)
Lemma Remove_total item l c `{!Returns c} eq :
  exists r l',
    Remove item (mk_PriorityQueue (mk_internalHeap l c) eq) =
      (r, mk_PriorityQueue (mk_internalHeap l' c) eq) /\
    r <> OutOfFuel /\
    match r with
    | Ok true =>
        exists x, l ≡ₚ x :: l' /\
          equal_to (mk_PriorityQueue (mk_internalHeap l c) eq) item x = Ok true
    | _ => l' = l
    end /\
    (StrictWeakOrder c -> is_heap c l -> is_heap c l').
Proof.
  set (pq := mk_PriorityQueue (mk_internalHeap l c) eq).
  rewrite Remove_unfold.
  destruct (is_nil item); [by eexists _, l|].
  destruct (negb _ && negb _) eqn:Hcfg; [by eexists _, l|].
  apply not_configured in Hcfg.
  cbn [pq heap items]. unfold bind at 1, call.
  pose proof (range_find_ends (equal_to pq item) l 0
                (fun v => equal_to_ends pq item v Hcfg)) as Hends.
  destruct (range_find (equal_to pq item) l 0) as [[i|]|msg|] eqn:Hfind; [| | |done].
  - apply range_find_in_range in Hfind as (Hi & x & Hx & Hpx).
    rewrite Z.sub_0_r in Hx.
    destruct (Remove_at l c eq i) as (x' & l' & Hrun & Hx' & Hperm & Hheap); [lia|].
    assert (x' = x) as -> by congruence.
    exists (Ok true), l'. split; [done|]. split; [done|]. split; [by exists x|done].
  - by exists (Ok false), l.
  - by exists (Panic msg), l.
Qed.


Lemma Contains_ok item pq :
  searchable pq item (items (heap pq)) ->
  Contains item pq = (Ok (existsb (matches pq item) (items (heap pq))), pq).
Proof.
  intros (Hnil & Hcfg & Htest). rewrite Contains_unfold, Hnil.
  rewrite (proj2 (not_configured item pq) Hcfg).
  rewrite (range_find_returns _ (matches pq item)) by done.
  unfold bind, call.
  destruct (first_match _ _ 0) as [i|] eqn:Hfind.
  - apply first_match_Some in Hfind as (_ & -> & _). done.
  - apply first_match_None in Hfind as ->. done.
Qed.


(** [Contains] changes nothing, whatever its outcome. *)
Lemma Contains_state item pq : snd (Contains item pq) = pq.
Proof.
  rewrite Contains_unfold. destruct (is_nil item); [done|].
  destruct (negb _ && negb _); [done|].
  unfold bind, call. by destruct (range_find _ _ 0) as [[i|]|msg|].
Qed.

End queue_operations.

(** ** Construction and sequences of calls *)

Section sequences.
Import util priorityqueue caller.
Context {E : Type} `{GoType E}.
Implicit Types (l : list E) (c : util.Comparator E) (eq : option (util.Equals E))
  (pq : PriorityQueue E) (item : E).


Lemma no_ordering_package_option (opt : Option E) :
  no_ordering opt -> package_option opt.
Proof. intros [?|?]; [by left|by right; right]. Qed.

Lemma apply_options_ok opts : forall pq r pq',
  Forall package_option opts ->
  apply_options opts pq = (r, pq') ->
  items (heap pq) = [] ->
  items (heap pq') = [] /\ r <> OutOfFuel /\
  (Forall no_ordering opts -> comparator (heap pq') = comparator (heap pq)).
Proof.
  induction opts as [|opt opts IH]; intros pq r pq' Hopts Hrun Hnil.
  { injection Hrun as <- <-. done. }
  apply Forall_cons in Hopts as [Hopt Hopts].
  cbn [apply_options] in Hrun. unfold bind in Hrun.
  destruct (opt pq) as [r1 pq1] eqn:Hopt1.
  assert (items (heap pq1) = [] /\
          (r1 = Ok tt \/ exists msg, r1 = Panic msg) /\
          (no_ordering opt -> comparator (heap pq1) = comparator (heap pq))) as (Hnil1 & Hr1 & Hc1).
  { destruct Hopt as [[n ->]|[[c ->]|[f ->]]].
    - unfold WithCapacity, make_items in Hopt1. destruct (makeslice_ok n).
      + injection Hopt1 as <- <-. split; [done|]. split; [by left|done].
      + injection Hopt1 as <- <-. split; [done|]. split; [right; by eexists|done].
    - injection Hopt1 as <- <-. split; [done|]. split; [by left|].
      intros [[n Hn]|[f Hf]].
      + apply (f_equal (fun o => o pq)) in Hn.
        unfold WithComparator, WithCapacity, make_items in Hn.
        destruct (makeslice_ok n); [|discriminate].
        unfold on_heap, set_items in Hn. cbn in Hn. by injection Hn as _ ->.
      + apply (f_equal (fun o => o pq)) in Hf.
        unfold WithComparator, WithEquals in Hf. destruct pq as [[l0 c0] eq0].
        cbn in Hf. by injection Hf as ->.
    - injection Hopt1 as <- <-. split; [done|]. split; [by left|done]. }
  destruct Hr1 as [->|[msg ->]].
  - destruct (IH pq1 r pq' Hopts Hrun Hnil1) as (Hnil' & Hr & Hc).
    split; [done|]. split; [done|].
    intros Hno. apply Forall_cons in Hno as [Hno1 Hno]. rewrite Hc by done. by apply Hc1.
  - injection Hrun as <- <-. split; [done|]. split; [done|].
    intros Hno. apply Forall_cons in Hno as [Hno1 Hno]. by apply Hc1.
Qed.

Lemma New_ok opts pq :
  Forall package_option opts -> New opts = Ok pq ->
  items (heap pq) = [] /\
  (Forall no_ordering opts -> comparator (heap pq) = DefaultComparator).
Proof.
  intros Hopts. unfold New. unfold bind, make_items.
  set (pq0 := mk_PriorityQueue (mk_internalHeap [] DefaultComparator) None).
  destruct (makeslice_ok 11); [|by cbn; intros [=]].
  change (on_heap (set_items []) pq0) with (Ok tt, pq0).
  destruct (apply_options opts pq0) as [r pq1] eqn:Hrun.
  destruct (apply_options_ok opts pq0 r pq1 Hopts Hrun eq_refl) as (Hnil & _ & Hc).
  rewrite ?Hrun. destruct r as [[]|msg|]; [|by cbn; intros [=]..].
  destruct pq1 as [[l1 c1] eq1]. cbn in Hnil. subst l1.
  cbn. intros [= <-]. split; [done|]. intros Hno. by apply Hc.
Qed.


Lemma Permutation_length_cons l l' (x : E) :
  l ≡ₚ x :: l' -> Z.of_nat (length l) = Z.of_nat (length l') + 1.
Proof. intros Hp. apply Permutation_length in Hp. cbn in Hp. lia. Qed.

Lemma length_appended item l l' :
  l' ≡ₚ appended item ++ l ->
  Z.of_nat (length l') = Z.of_nat (length l) + (if negb (is_nil item) then 1 else 0).
Proof.
  intros Hp. apply Permutation_length in Hp. unfold appended in Hp.
  destruct (is_nil item); cbn in *; lia.
Qed.

Lemma run_op_ok o l c `{!Returns c} eq :
  exists r l',
    run_op o (mk_PriorityQueue (mk_internalHeap l c) eq) =
      (r, mk_PriorityQueue (mk_internalHeap l' c) eq) /\
    r <> OutOfFuel /\
    Z.of_nat (length l') = size_after (mk_event o (Z.of_nat (length l)) r) /\
    (StrictWeakOrder c -> is_heap c l -> is_heap c l') /\
    (is_insertion o = true -> l' ≡ₚ inserted o ++ l).
Proof.
  unfold size_after, insertion_stored, removal_succeeded, polled_nonempty.
  destruct o as [item|item| |item]; cbn [run_op ev_op ev_outcome ev_size is_insertion inserted].
  - destruct (Add_ok item l c eq) as (l' & Hrun & Hperm & Hheap).
    exists (Ok (VBool true)), l'. unfold bind. rewrite Hrun.
    split; [done|]. split; [done|]. split; [|done].
    rewrite (length_appended item l l' Hperm). lia.
  - destruct (Offer_ok item l c eq) as (l' & Hrun & Hperm & Hheap).
    exists (Ok (VBool true)), l'. unfold bind. rewrite Hrun.
    split; [done|]. split; [done|]. split; [|done].
    rewrite (length_appended item l l' Hperm). lia.
  - destruct l as [|x0 l0].
    + eexists _, []. unfold bind. rewrite Poll_empty. done.
    + destruct (Poll_ok (x0 :: l0) c eq) as (x & l' & Hrun & _ & Hperm & Hheap); [done|].
      exists (Ok (VElem x)), l'. unfold bind. rewrite Hrun.
      split; [done|]. split; [done|]. split; [|done].
      apply Permutation_length_cons in Hperm.
      destruct (Z.ltb_spec 0 (Z.of_nat (length (x0 :: l0)))); cbn [length] in *; lia.
  - destruct (Remove_total item l c eq) as (r & l' & Hrun & Hr & Hlen & Hheap).
    unfold bind. rewrite Hrun.
    destruct r as [[]|msg|]; [| | |done].
    + eexists _, l'. split; [done|]. split; [done|]. split; [|done].
      destruct Hlen as [x [Hperm _]]. apply Permutation_length_cons in Hperm. lia.
    + eexists _, l'. split; [done|]. split; [done|]. split; [|done]. subst l'. lia.
    + eexists _, l'. split; [done|]. split; [done|]. split; [|done]. subst l'. lia.
Qed.

Lemma count_cons (p : event E -> bool) e tr :
  count p (e :: tr) = (if p e then 1 else 0) + count p tr.
Proof.
  unfold count. rewrite filter_cons.
  destruct (p e); case_decide; try done; cbn [length]; lia.
Qed.

Lemma run_ops_ok ops : forall l c eq, Returns c ->
  exists tr l',
    run_ops ops (mk_PriorityQueue (mk_internalHeap l c) eq) =
      (tr, mk_PriorityQueue (mk_internalHeap l' c) eq) /\
    Forall (fun e => ev_outcome e <> OutOfFuel) tr /\
    Z.of_nat (length l') =
      Z.of_nat (length l) + count insertion_stored tr
        - count removal_succeeded tr - count polled_nonempty tr /\
    (StrictWeakOrder c -> is_heap c l -> is_heap c l') /\
    (Forall (fun o => is_insertion o = true) ops -> l' ≡ₚ concat (map inserted ops) ++ l).
Proof.
  induction ops as [|o ops IH]; intros l c eq Hret.
  { exists [], l. repeat split; try done. unfold count. cbn. lia. }
  destruct (run_op_ok o l c eq) as (r & l1 & Hrun1 & Hr & Hlen1 & Hheap1 & Hperm1).
  destruct (IH l1 c eq _) as (tr & l' & Hrun & Htr & Hlen & Hheap & Hperm).
  eexists _, l'. cbn [run_ops]. rewrite Hrun1, Hrun.
  split; [done|]. split; [by constructor|]. split; [|split].
  - rewrite Hlen, Hlen1. rewrite !count_cons. unfold size_after.
    cbn [ev_size items heap]. lia.
  - auto.
  - intros Hins. apply Forall_cons in Hins as [Ho Hins].
    rewrite (Hperm Hins), (Hperm1 Ho). cbn [map concat].
    rewrite <- !app_assoc. apply Permutation_app_swap_app.
Qed.

Lemma drain_loop_ok fuel : forall l c eq,
  (length l < fuel)%nat -> StrictWeakOrder c -> is_heap c l ->
  exists out,
    drain_loop fuel (mk_PriorityQueue (mk_internalHeap l c) eq) =
      (Ok out, mk_PriorityQueue (mk_internalHeap [] c) eq) /\
    StronglySorted (fun a b => result c a b <= 0) out /\ out ≡ₚ l.
Proof.
  induction fuel as [|fuel IH]; intros l c eq Hfuel Hswo Hheap; [lia|].
  cbn [drain_loop]. unfold bind at 1. cbn [Size bind get ret items heap].
  destruct l as [|x0 l0].
  { exists []. cbn. split; [done|]. split; [constructor|done]. }
  replace (0 <? Z.of_nat (length (x0 :: l0))) with true
    by (symmetry; apply Z.ltb_lt; cbn [length]; lia).
  destruct (Poll_ok (x0 :: l0) c eq) as (x & l' & Hrun & Hroot & Hperm & Hheap'); [done|].
  unfold bind at 1. rewrite Hrun.
  destruct (IH l' c eq) as (out & Hdrain & Hsorted & Hout).
  { apply Permutation_length in Hperm. cbn [length] in *. lia. }
  { done. } { by apply Hheap'. }
  exists (x :: out). unfold bind. rewrite Hdrain. split; [done|]. split.
  - constructor; [done|]. apply Forall_forall. intros y Hy.
    assert (y ∈ x0 :: l0) as Hin.
    { rewrite Hperm. right. by rewrite <- Hout. }
    apply list_elem_of_lookup in Hin as [k Hk].
    apply (is_heap_root_min c (x0 :: l0) x Hheap Hroot (Z.of_nat k)).
    unfold index. destruct (Z.ltb_spec (Z.of_nat k) 0); [lia|]. by rewrite Nat2Z.id.
  - by rewrite Hperm, Hout.
Qed.

(** *** Every method *)

Lemma Contains_ends item pq : fst (Contains item pq) <> OutOfFuel.
Proof.
  rewrite Contains_unfold. destruct (is_nil item); [done|].
  destruct (negb _ && negb _) eqn:Hcfg; [done|]. apply not_configured in Hcfg.
  unfold bind, call.
  pose proof (range_find_ends (equal_to pq item) (items (heap pq)) 0
                (fun v => equal_to_ends pq item v Hcfg)) as Hends.
  by destruct (range_find _ _ 0) as [[i|]|msg|].
Qed.

Lemma run_method_ok (m : method E) l c `{!Returns c} eq :
  exists r l',
    run_method m (mk_PriorityQueue (mk_internalHeap l c) eq) =
      (r, mk_PriorityQueue (mk_internalHeap l' c) eq) /\
    r <> OutOfFuel /\
    Z.of_nat (length l') = size_after_method (mk_record m (Z.of_nat (length l)) r) /\
    (StrictWeakOrder c -> is_heap c l -> is_heap c l').
Proof.
  set (pq := mk_PriorityQueue (mk_internalHeap l c) eq).
  destruct m as [o| | |item| | |]; cbn [run_method].
  - destruct (run_op_ok o l c eq) as (r & l' & Hrun & Hr & Hlen & Hheap & _).
    by exists r, l'.
  - exists (Ok VUnit), []. split; [reflexivity|]. split; [done|]. split; [done|].
    intros _ _. apply is_heap_nil.
  - exists (Ok (VElem (default zero (head l)))), l. split; [by destruct l|done].
  - pose proof (Contains_state item pq) as Hstate.
    pose proof (Contains_ends item pq) as Hends.
    destruct (Contains item pq) as [r pq'] eqn:Hrun. cbn in Hstate, Hends. subst pq'.
    unfold bind. rewrite Hrun.
    destruct r as [b|msg|]; [..|done]; by eexists _, l.
  - by eexists _, l.
  - by eexists _, l.
  - by eexists _, l.
Qed.

Lemma tally_app (p : event E -> bool) (tr1 tr2 : list (record E)) :
  tally p (tr1 ++ tr2) = tally p tr1 + tally p tr2.
Proof.
  unfold tally, count. rewrite omap_app, filter_app, length_app. lia.
Qed.

Lemma tally_single (p : event E -> bool) (r : record E) :
  tally p [r] = match as_event r with Some e => if p e then 1 else 0 | None => 0 end.
Proof.
  unfold tally. cbn. destruct (as_event r) as [e|]; [|done].
  rewrite count_cons. unfold count. cbn. lia.
Qed.

(** The size after any calls: the size before, or 0 when [Clear] was
    called, and the net count of the calls since. *)
Lemma run_methods_ok (ms : list (method E)) : forall l c eq acc (z : Z), Returns c ->
  Z.of_nat (length l) =
    z + (tally insertion_stored acc - tally removal_succeeded acc
         - tally polled_nonempty acc) ->
  exists tr l',
    run_methods ms (mk_PriorityQueue (mk_internalHeap l c) eq) =
      (tr, mk_PriorityQueue (mk_internalHeap l' c) eq) /\
    Forall (fun r => rec_outcome r <> OutOfFuel) tr /\
    Z.of_nat (length l') =
      (if existsb is_Clear tr then 0 else z) +
      (tally insertion_stored (after_last_Clear acc tr)
       - tally removal_succeeded (after_last_Clear acc tr)
       - tally polled_nonempty (after_last_Clear acc tr)) /\
    (StrictWeakOrder c -> is_heap c l -> is_heap c l').
Proof.
  induction ms as [|m ms IH]; intros l c eq acc z Hret Hsize.
  { exists [], l. by repeat split. }
  destruct (run_method_ok m l c eq) as (r & l1 & Hrun1 & Hr & Hlen1 & Hheap1).
  cbn [run_methods]. rewrite Hrun1. cbn [items heap].
  set (rec := mk_record m (Z.of_nat (length l)) r) in *.
  destruct (is_Clear rec) eqn:Hclear.
  - destruct (IH l1 c eq [] 0 _) as (tr & l' & Hrun & Htr & Hlen & Hheap).
    { by destruct m. }
    rewrite Hrun. eexists _, l'. split; [done|]. split; [by constructor|].
    split; [|auto].
    cbn [existsb after_last_Clear]. rewrite Hclear. cbn [orb].
    rewrite Hlen. by destruct (existsb is_Clear tr).
  - destruct (IH l1 c eq (acc ++ [rec]) z _) as (tr & l' & Hrun & Htr & Hlen & Hheap).
    { rewrite !tally_app, !tally_single. rewrite Hlen1.
      unfold size_after_method, as_event. subst rec. cbn [rec_method rec_size rec_outcome].
      destruct m as [o| | |item| | |]; try done; unfold size_after; cbn [ev_size]; lia. }
    rewrite Hrun. eexists _, l'. split; [done|]. split; [by constructor|].
    split; [|auto].
    cbn [existsb after_last_Clear]. rewrite Hclear. cbn [orb]. done.
Qed.

Lemma run_methods_methods (ms : list (method E)) : forall pq,
  map rec_method (fst (run_methods ms pq)) = ms.
Proof.
  induction ms as [|m ms IH]; intros pq; [done|].
  cbn [run_methods]. destruct (run_method m pq) as [r pq1].
  specialize (IH pq1). destruct (run_methods ms pq1) as [tr pq2].
  cbn in *. by rewrite IH.
Qed.

Lemma after_last_Clear_Forall (P : record E -> Prop) (tr : list (record E)) :
  forall acc, Forall P acc -> Forall P tr -> Forall P (after_last_Clear acc tr).
Proof.
  induction tr as [|r tr IH]; intros acc Hacc Htr; [done|].
  apply Forall_cons in Htr as [Hr Htr]. cbn [after_last_Clear].
  destruct (is_Clear r); apply IH; try done.
  apply Forall_app. split; [done|]. by constructor.
Qed.

(** When no nil interface value is inserted, every insertion that returned
    [true] put its item in. *)
Lemma tally_no_nil (tr : list (record E)) :
  Forall (fun r => inserts_nil (rec_method r) = false) tr ->
  tally insertion_stored tr = tally insertion_succeeded tr.
Proof.
  induction 1 as [|r tr Hr Htr IH]; [done|].
  change (r :: tr) with ([r] ++ tr). rewrite !tally_app, IH, !tally_single.
  f_equal. unfold as_event. destruct (rec_method r) as [o| | | | | |]; try done.
  unfold insertion_stored, insertion_succeeded. cbn [ev_op ev_outcome].
  destruct o as [item|item| |item]; cbn in Hr; rewrite ?Hr; try done.
Qed.

Lemma size_after_no_nil (m : method E) n r :
  inserts_nil m = false ->
  size_after_method (mk_record m n r) = size_after_call (mk_record m n r).
Proof.
  intros Hm. unfold size_after_method, size_after_call, as_event, is_Clear.
  cbn [rec_method rec_size rec_outcome].
  destruct m as [o| | | | | |]; try done.
  unfold size_after, insertion_stored, insertion_succeeded. cbn [ev_op ev_outcome ev_size].
  destruct o as [item|item| |item]; cbn in Hm; rewrite ?Hm; try done.
Qed.

Lemma StronglySorted_weaken {A : Type} (R1 R2 : A -> A -> Prop) (l : list A) :
  (forall a b, R1 a b -> R2 a b) -> StronglySorted R1 l -> StronglySorted R2 l.
Proof.
  intros HR. induction 1 as [|a l Hl IH Ha]; constructor; [done|].
  eapply Forall_impl; [exact Ha|]. auto.
Qed.

End sequences.

(** ** Two implementations of [heap.Interface] that agree *)

Section simulation.
Context {H1 H2 E : Type} {I1 : h.Interface H1 E} {I2 : h.Interface H2 E}.
Context (R : H1 -> H2 -> Prop).

Lemma sim_ret {A} (a : A) : sim R (ret a) (ret a).
Proof. by intros s1 s2 HR. Qed.

Lemma sim_bind {A B} (m1 : M H1 A) (m2 : M H2 A) (k1 : A -> M H1 B) (k2 : A -> M H2 B) :
  sim R m1 m2 -> (forall a, sim R (k1 a) (k2 a)) -> sim R (bind m1 k1) (bind m2 k2).
Proof.
  intros Hm Hk s1 s2 HR. unfold bind.
  destruct (Hm s1 s2 HR) as [Hfst Hsnd].
  destruct (m1 s1) as [r1 s1'], (m2 s2) as [r2 s2']. cbn in Hfst, Hsnd. subst r2.
  destruct r1 as [a|msg|]; [by apply Hk|done|done].
Qed.

Hypothesis sim_Len : sim R h.Len h.Len.
Hypothesis sim_Less : forall i j, sim R (h.Less i j) (h.Less i j).
Hypothesis sim_Swap : forall i j, sim R (h.Swap i j) (h.Swap i j).
Hypothesis sim_Push : forall x, sim R (h.Push x) (h.Push x).
Hypothesis sim_Pop : sim R h.Pop h.Pop.

Lemma sim_up_loop fuel : forall j, sim R (heap.up_loop fuel j) (heap.up_loop fuel j).
Proof.
  induction fuel as [|fuel IH]; intros j; [by intros s1 s2 HR|].
  cbn [heap.up_loop]. destruct (_ =? j); [apply sim_ret|].
  apply sim_bind; [apply sim_Less|]. intros [|]; cbn [negb]; [|apply sim_ret].
  apply sim_bind; [apply sim_Swap|]. intros _. apply IH.
Qed.

Lemma sim_down_loop fuel : forall i0 i n,
  sim R (heap.down_loop fuel i0 i n) (heap.down_loop fuel i0 i n).
Proof.
  induction fuel as [|fuel IH]; intros i0 i n; [by intros s1 s2 HR|].
  cbn [heap.down_loop]. destruct (_ || _); [apply sim_ret|].
  apply sim_bind.
  { destruct (_ <? n); [|apply sim_ret].
    apply sim_bind; [apply sim_Less|]. intros lt. apply sim_ret. }
  intros j. apply sim_bind; [apply sim_Less|]. intros [|]; cbn [negb]; [|apply sim_ret].
  apply sim_bind; [apply sim_Swap|]. intros _. apply IH.
Qed.

Lemma sim_heap_Push x : sim R (heap.Push x) (heap.Push x).
Proof.
  unfold heap.Push. apply sim_bind; [apply sim_Push|]. intros _.
  apply sim_bind; [apply sim_Len|]. intros n. apply sim_up_loop.
Qed.

Lemma sim_heap_Pop : sim R heap.Pop heap.Pop.
Proof.
  unfold heap.Pop. apply sim_bind; [apply sim_Len|]. intros n.
  apply sim_bind; [apply sim_Swap|]. intros _.
  apply sim_bind; [apply sim_down_loop|]. intros _. apply sim_Pop.
Qed.

Lemma sim_heap_Remove i : sim R (heap.Remove i) (heap.Remove i).
Proof.
  unfold heap.Remove. apply sim_bind; [apply sim_Len|]. intros n.
  apply sim_bind; [|intros _; apply sim_Pop].
  destruct (negb _); [|apply sim_ret].
  apply sim_bind; [apply sim_Swap|]. intros _.
  apply sim_bind; [apply sim_down_loop|]. intros [|]; cbn [negb]; [apply sim_ret|].
  apply sim_up_loop.
Qed.

End simulation.

(** ** The queue in memory against the queue as a value *)

Section memory_model.
Import util.
#[local] Existing Instance priorityqueue.internalHeap_Interface.
#[local] Existing Instance memory.world_Interface.
Context {E : Type} `{GoType E}.
Implicit Types (w : memory.world E) (m : memory.store E) (s : memory.slice)
  (ph : priorityqueue.internalHeap E).


Lemma view_length w :
  well_formed w -> length (memory.view w) = memory.len (memory.q_items w).
Proof.
  intros [Hlen Hcap]. unfold memory.view, memory.elements.
  rewrite length_take. lia.
Qed.

Lemma array_alter m s s' (f : list E -> list E) :
  memory.arr s' = memory.arr s ->
  (0 < length (memory.array m s))%nat ->
  memory.array (alter f (memory.arr s) m) s' = f (memory.array m s).
Proof.
  unfold memory.array. intros -> Hlen. rewrite list_lookup_alter.
  rewrite decide_True by done.
  destruct (m !! memory.arr s) as [a|]; [done|]. cbn in Hlen. lia.
Qed.

Lemma index_in_view w i x :
  well_formed w -> index (memory.view w) i = Some x ->
  0 <= i < Z.of_nat (memory.len (memory.q_items w)) /\
  (0 < length (memory.array (memory.mem w) (memory.q_items w)))%nat.
Proof.
  intros Hwf Hx. apply index_Some in Hx. rewrite view_length in Hx by done.
  destruct Hwf. split; lia.
Qed.

Lemma assign_run w i v x :
  well_formed w -> index (memory.view w) i = Some x ->
  exists w',
    memory.on_mem (memory.assign (memory.q_items w) i v) w = (Ok tt, w') /\
    well_formed w' /\
    memory.view w' = <[Z.to_nat i := v]> (memory.view w) /\
    memory.q_items w' = memory.q_items w /\
    memory.q_comparator w' = memory.q_comparator w /\
    memory.q_equals w' = memory.q_equals w.
Proof.
  intros Hwf Hx. destruct (index_in_view w i x Hwf Hx) as [Hi Harr].
  unfold memory.on_mem, memory.assign.
  replace ((0 <=? i) && (i <? Z.of_nat (memory.len (memory.q_items w)))) with true
    by (symmetry; apply andb_true_iff; split; [apply Z.leb_le|apply Z.ltb_lt]; lia).
  eexists. split; [done|].
  destruct Hwf as [Hlen Hcap].
  unfold well_formed, memory.view, memory.elements. cbn.
  rewrite array_alter by done. rewrite length_insert.
  split; [done|]. split; [|done].
  rewrite take_insert_lt by lia. done.
Qed.

Lemma represents_Len : sim represents h.Len h.Len.
Proof.
  intros ph w (Hwf & Hitems & Hc). cbn. split; [|done].
  rewrite Hitems, view_length by done. done.
Qed.

Lemma represents_Less i j : sim represents (h.Less i j) (h.Less i j).
Proof.
  intros ph w (Hwf & Hitems & Hc). cbn.
  unfold priorityqueue.Less, memory.Less, bind, get, read_index, call. cbn.
  rewrite Hitems, Hc.
  destruct (index (memory.view w) i) as [a|]; [|done].
  destruct (index (memory.view w) j) as [b|]; [|done]. cbn.
  by destruct (memory.q_comparator w a b).
Qed.

Lemma represents_Swap i j : sim represents (h.Swap i j) (h.Swap i j).
Proof.
  intros ph w (Hwf & Hitems & Hc). cbn.
  unfold priorityqueue.Swap, memory.Swap, bind, get, read_index. cbn.
  rewrite Hitems.
  destruct (index (memory.view w) j) as [vj|] eqn:Hj; [|done].
  destruct (index (memory.view w) i) as [vi|] eqn:Hi; [|done].
  cbn.
  destruct (assign_run w i vj vi Hwf Hi) as (w1 & Hrun1 & Hwf1 & Hview1 & Hs1 & Hc1 & He1).
  rewrite Hrun1.
  assert (exists x, index (memory.view w1) j = Some x) as [x Hj1].
  { apply index_is_Some. rewrite Hview1, length_insert. by apply index_Some in Hj. }
  destruct (assign_run w1 j vi x Hwf1 Hj1) as (w2 & Hrun2 & Hwf2 & Hview2 & Hs2 & Hc2 & He2).
  rewrite Hs1 in Hrun2. rewrite Hrun2. cbn. split; [done|].
  split; [done|]. split; [by rewrite Hview2, Hview1|]. cbn. congruence.
Qed.

Lemma represents_Pop : sim represents h.Pop h.Pop.
Proof.
  intros ph w (Hwf & Hitems & Hc). cbn.
  unfold priorityqueue.Pop, memory.Pop, bind, get, read_index. cbn.
  rewrite Hitems, view_length by done.
  destruct (index (memory.view w) _) as [x|] eqn:Hx; [|done].
  cbn. split; [done|].
  destruct (index_in_view w _ x Hwf Hx) as [Hi Harr]. destruct Hwf as [Hlen Hcap].
  split; [split; cbn; [lia|done]|]. split; [|done].
  cbn. unfold memory.view, memory.elements. cbn. by rewrite take_take, Nat.min_l by lia.
Qed.

Lemma represents_Push x : sim represents (h.Push x) (h.Push x).
Proof.
  intros ph w (Hwf & Hitems & Hc). cbn.
  destruct x as [|item]; [done|].
  unfold priorityqueue.Push, memory.Push, bind, get. cbn.
  unfold memory.on_mem, memory.append. cbn [length].
  destruct Hwf as [Hlen Hcap].
  set (s := memory.q_items w) in *. set (m := memory.mem w) in *.
  destruct (Nat.leb_spec (memory.len s + 1) (memory.cap s)) as [Hfit|Hgrow]; cbn.
  - split; [done|].
    assert (0 < length (memory.array m s))%nat as Harr by lia.
    unfold represents, well_formed, memory.view, memory.elements.
    cbn [memory.mem memory.q_items memory.q_comparator memory.len memory.cap snd].
    rewrite array_alter by done.
    cbn [priorityqueue.items priorityqueue.comparator app].
    assert (length (take (memory.len s) (memory.array m s)) = memory.len s) as Htake.
    { rewrite length_take. lia. }
    split; [|split; [|done]].
    + rewrite length_app, Htake. cbn [length]. rewrite length_drop. lia.
    + rewrite Hitems. unfold memory.view, memory.elements. fold s m.
      symmetry. rewrite (cons_middle item _ (drop _ _)), app_assoc.
      rewrite take_app_length'; [done|]. rewrite length_app, Htake. cbn. lia.
  - split; [done|].
    assert (length (memory.elements m s) = memory.len s) as Hel.
    { unfold memory.elements. rewrite length_take. lia. }
    unfold represents, well_formed, memory.view.
    cbn [memory.mem memory.q_items memory.q_comparator memory.len memory.cap snd
         priorityqueue.items priorityqueue.comparator].
    unfold memory.elements at 2. unfold memory.array.
    cbn [memory.arr memory.len].
    rewrite list_lookup_middle by done. cbn [default id].
    split; [|split; [|done]].
    + rewrite length_app, Hel. cbn [length]. rewrite length_replicate.
      unfold memory.growslice. lia.
    + rewrite Hitems. unfold memory.view. fold s m.
      rewrite (cons_middle item _ (replicate _ _)), app_assoc.
      rewrite take_app_length'; [done|]. rewrite length_app, Hel. cbn. lia.
Qed.

End memory_model.

Section to_array.
Import util.
#[local] Existing Instance priorityqueue.internalHeap_Interface.
#[local] Existing Instance memory.world_Interface.
Context {E : Type} `{GoType E}.
Implicit Types (w : memory.world E) (m : list (list E)) (s : memory.slice)
  (pq : priorityqueue.PriorityQueue E).


(** [heap.Push], [heap.Pop] and [heap.Remove] on the queue in memory do
    what they do on the queue as a value. *)
Lemma memory_refines_value :
  (forall x, sim represents (heap.Push x) (heap.Push x)) /\
  sim represents heap.Pop heap.Pop /\
  (forall i, sim represents (heap.Remove i) (heap.Remove i)).
Proof.
  split; [|split].
  - intros x. apply sim_heap_Push;
      auto using represents_Len, represents_Less, represents_Swap, represents_Push.
  - apply sim_heap_Pop;
      auto using represents_Len, represents_Less, represents_Swap, represents_Pop.
  - intros i. apply sim_heap_Remove;
      auto using represents_Len, represents_Less, represents_Swap, represents_Pop.
Qed.

Lemma represents_Poll pq w :
  represents (priorityqueue.heap pq) w ->
  fst (priorityqueue.Poll pq) = fst (memory.Poll w) /\
  represents (priorityqueue.heap (snd (priorityqueue.Poll pq))) (snd (memory.Poll w)).
Proof.
  intros HR.
  destruct (proj1 (proj2 memory_refines_value) (priorityqueue.heap pq) w HR)
    as [Hfst Hsnd].
  unfold priorityqueue.Poll, memory.Poll, bind, priorityqueue.on_heap.
  destruct (heap.Pop (priorityqueue.heap pq)) as [r1 ph1].
  destruct (heap.Pop w) as [r2 w2]. cbn in Hfst, Hsnd. subst r2.
  destruct r1 as [[|x]|msg|]; done.
Qed.

Lemma represents_poll_n n : forall pq w,
  represents (priorityqueue.heap pq) w ->
  memory.poll_n n w = caller.poll_n n pq.
Proof.
  induction n as [|n IH]; intros pq w HR; [done|].
  cbn [memory.poll_n caller.poll_n].
  destruct (represents_Poll pq w HR) as [Hfst Hsnd].
  destruct (priorityqueue.Poll pq) as [r1 pq1], (memory.Poll w) as [r2 w2].
  cbn in Hfst, Hsnd. subst r2. f_equal. by apply IH.
Qed.


Lemma assign_separate s i v w :
  well_formed w -> separate s w ->
  let w' := snd (memory.on_mem (memory.assign s i v) w) in
  well_formed w' /\ same_queue w w' /\ separate s w'.
Proof.
  intros Hwf Hsep. unfold memory.on_mem, memory.assign.
  destruct ((0 <=? i) && (i <? Z.of_nat (memory.len s))) eqn:Hin; cbn.
  2:{ destruct w. done. }
  apply andb_true_iff in Hin as [Hi0%Z.leb_le Hi%Z.ltb_lt].
  destruct Hsep as [Hs|Hsep]; [lia|].
  destruct Hwf as [Hlen Hcap].
  assert (memory.array (alter (fun a => <[Z.to_nat i := v]> a) (memory.arr s) (memory.mem w))
            (memory.q_items w) = memory.array (memory.mem w) (memory.q_items w) \/
          memory.cap (memory.q_items w) = 0%nat) as Harr.
  { destruct Hsep as [Hcap0|Hne]; [by right|left].
    unfold memory.array. by rewrite list_lookup_alter_ne. }
  unfold well_formed, same_queue, separate, memory.view, memory.elements. cbn.
  destruct Harr as [->|Hcap0].
  - split; [done|]. split; [done|]. by right.
  - assert (memory.len (memory.q_items w) = 0%nat) as -> by lia.
    rewrite Hcap0. split; [lia|]. split; [done|]. by right; left.
Qed.

Lemma assign_all_separate s writes : forall w,
  well_formed w -> separate s w ->
  well_formed (memory.assign_all s writes w) /\
  same_queue w (memory.assign_all s writes w).
Proof.
  induction writes as [|[i v] writes IH]; intros w Hwf Hsep; [done|].
  cbn [memory.assign_all].
  destruct (assign_separate s i v w Hwf Hsep) as (Hwf1 & Hsame1 & Hsep1).
  destruct (IH _ Hwf1 Hsep1) as (Hwf2 & Hsame2).
  split; [done|].
  destruct Hsame1 as (? & ? & ? & ?), Hsame2 as (? & ? & ? & ?).
  unfold same_queue. repeat split; congruence.
Qed.

Lemma same_queue_represents w w' :
  well_formed w' -> same_queue w w' ->
  represents (priorityqueue.heap (queue_of w)) w'.
Proof. intros Hwf (Hview & _ & Hc & _). by split. Qed.

(** An assignment in range writes the element of the slice. *)
Lemma assign_elements s i v w x :
  index (memory.elements (memory.mem w) s) i = Some x ->
  memory.elements (memory.mem (snd (memory.on_mem (memory.assign s i v) w))) s =
    <[Z.to_nat i := v]> (memory.elements (memory.mem w) s).
Proof.
  intros Hx. apply index_Some in Hx.
  unfold memory.elements in *. rewrite length_take in Hx.
  unfold memory.on_mem, memory.assign.
  replace ((0 <=? i) && (i <? Z.of_nat (memory.len s))) with true
    by (symmetry; apply andb_true_iff; split; [apply Z.leb_le|apply Z.ltb_lt]; lia).
  cbn. rewrite array_alter by (done || lia).
  rewrite take_insert_lt by lia. done.
Qed.

Lemma ToArray_run w :
  well_formed w ->
  exists s w',
    memory.ToArray w = (Ok s, w') /\
    memory.elements (memory.mem w') s = memory.view w /\
    memory.len s = length (memory.view w) /\
    well_formed w' /\ same_queue w w' /\ separate s w'.
Proof.
  intros Hwf. unfold memory.ToArray, bind, get, memory.on_mem, memory.append.
  cbn [memory.len memory.cap memory.arr memory.nil_slice Nat.add].
  destruct (Nat.leb_spec (length (memory.view w)) 0) as [Hnil|Hsome].
  - (* nothing to copy: the nil slice comes back *)
    assert (memory.view w = []) as Hv by (destruct (memory.view w); [done|cbn in Hnil; lia]).
    rewrite Hv. cbn [length app take drop].
    rewrite list_alter_id by done.
    exists (memory.mk_slice 0 0 0), w. destruct w. cbn in *.
    split; [done|]. split; [done|]. split; [done|]. split; [done|].
    split; [done|]. by left.
  - (* a new array, after all the others *)
    eexists _, _. split; [reflexivity|].
    destruct Hwf as [Hlen Hcap].
    set (q := memory.q_items w) in *. set (m := memory.mem w) in *.
    set (n := length (memory.view w)) in *.
    set (c := memory.growslice 0 n).
    assert (memory.array (m ++ [memory.view w ++ replicate (c - n) zero]) q
              = memory.array m q \/ memory.cap q = 0%nat) as Harr.
    { destruct (decide (memory.cap q = 0%nat)) as [?|Hne]; [by right|left].
      unfold memory.array. rewrite lookup_app_l; [done|].
      destruct (m !! memory.arr q) eqn:Hm; [by eapply lookup_lt_Some|].
      unfold memory.array in Hcap. rewrite Hm in Hcap. cbn in Hcap. lia. }
    cbn [memory.mem memory.q_items memory.elements memory.array memory.arr
         memory.len memory.cap snd].
    unfold memory.elements at 1. unfold memory.array at 1. cbn [memory.arr memory.len].
    rewrite list_lookup_middle by done. cbn [default app].
    change (memory.elements m memory.nil_slice) with (@nil E).
    cbn [id app].
    split; [by apply take_app_length'|]. split; [done|].
    set (a := memory.view w ++ replicate (c - n) zero) in *.
    unfold well_formed, same_queue, separate, memory.view, memory.elements.
    cbn [memory.mem memory.q_items memory.q_comparator memory.q_equals memory.arr].
    fold q m.
    destruct Harr as [Harr|Hcap0].
    + rewrite Harr. split; [done|]. split; [done|].
      right. destruct (decide (memory.cap q = 0%nat)) as [?|Hne]; [by left|right].
      destruct (m !! memory.arr q) eqn:Hm.
      * apply lookup_lt_Some in Hm. lia.
      * unfold memory.array in Hcap. rewrite Hm in Hcap. cbn in Hcap. lia.
    + assert (memory.len q = 0%nat) as Hlen0 by lia.
      rewrite Hcap0, Hlen0. split; [lia|]. split; [done|]. by right; left.
Qed.

End to_array.

(** ** The default comparator *)

Section default_comparator.
Import util.

Lemma wrap_is_int z : is_int (wrap z).
Proof.
  unfold is_int, wrap, MinInt, MaxInt, int_modulus.
  pose proof (Z.mod_pos_bound (z - - 2 ^ 63) (2 ^ 64)). lia.
Qed.

Lemma wrap_exact z : is_int z -> wrap z = z.
Proof.
  unfold is_int, wrap, MinInt, MaxInt, int_modulus. intros Hz.
  rewrite Z.mod_small; lia.
Qed.

Lemma wrap_congruent z : exists k, wrap z = z + k * int_modulus.
Proof.
  unfold wrap, MinInt, int_modulus.
  exists (- ((z - - 2 ^ 63) / 2 ^ 64)).
  pose proof (Z.div_mod (z - - 2 ^ 63) (2 ^ 64)). lia.
Qed.

Lemma SFcompare_antisym a b : SFcompare b a = CompOpp <$> SFcompare a b.
Proof.
  destruct a as [sa|sa| |sa ma ea], b as [sb|sb| |sb mb eb]; cbn;
    try done; try (by destruct sa); try (by destruct sb);
    try (by destruct sa, sb).
  destruct sa, sb; cbn; try done.
  - rewrite (Z.compare_antisym ea eb).
    destruct (ea ?= eb); cbn; try done.
    rewrite CompOpp_involutive. by rewrite Pos.compare_cont_antisym.
  - rewrite (Z.compare_antisym ea eb).
    destruct (ea ?= eb); cbn; try done.
    by rewrite Pos.compare_cont_antisym.
Qed.

Lemma DefaultComparator_float64 (a b : spec_float) :
  DefaultComparator a b = Ok (float64_sign_of_difference a b).
Proof.
  unfold DefaultComparator, float64_sign_of_difference. cbn. f_equal.
  unfold float64_lt, float64_gt, SFltb. rewrite (SFcompare_antisym a b).
  by destruct (SFcompare a b) as [[]|].
Qed.

Lemma String_compare_Lt a : forall b, String.compare a b = Lt <-> lex_lt a b.
Proof.
  induction a as [|c1 a IH]; intros [|c2 b]; cbn.
  - split; [done|inversion 1].
  - split; [constructor|done].
  - split; [done|inversion 1].
  - unfold Ascii.compare.
    destruct (N.compare_spec (Ascii.N_of_ascii c1) (Ascii.N_of_ascii c2)) as [Heq|Hlt|Hgt].
    + assert (c1 = c2) as ->.
      { rewrite <- (Ascii.ascii_N_embedding c1), <- (Ascii.ascii_N_embedding c2). by rewrite Heq. }
      rewrite IH. split; [by constructor|].
      inversion 1; subst; [lia|done].
    + split; [by constructor|done].
    + split; [done|]. inversion 1; subst; lia.
Qed.

Lemma strings_Compare_spec a b :
  (strings_Compare a b = -1 <-> lex_lt a b) /\
  (strings_Compare a b = 0 <-> a = b) /\
  (strings_Compare a b = 1 <-> lex_lt b a).
Proof.
  unfold strings_Compare, String.ltb.
  pose proof (String_compare_Lt a b) as Hab.
  pose proof (String_compare_Lt b a) as Hba.
  rewrite (String.compare_antisym b a) in Hba.
  destruct (String.eqb_spec a b) as [->|Hne].
  - assert (String.compare b b = Eq) as Hbb.
    { pose proof (String.compare_antisym b b). destruct (String.compare b b); done. }
    rewrite Hbb in Hab, Hba. cbn in Hba.
    split; [split; [done|by intros ?%Hab]|]. split; [done|].
    split; [done|by intros ?%Hba].
  - destruct (String.compare a b) eqn:Hcmp; cbn in Hba.
    + by apply String.compare_eq_iff in Hcmp.
    + split; [by rewrite <- Hab|]. split; [done|].
      split; [done|by intros ?%Hba].
    + split; [split; [done|by intros ?%Hab]|]. split; [done|]. by rewrite <- Hba.
Qed.

#[local] Instance three_way_StrictWeakOrder : StrictWeakOrder three_way.
Proof.
  split; unfold result, three_way; intros a b.
  - done.
  - destruct (Z.ltb_spec a b), (Z.ltb_spec b a); lia.
  - intros c. destruct (Z.ltb_spec a b), (Z.ltb_spec b a), (Z.ltb_spec b c),
      (Z.ltb_spec c b), (Z.ltb_spec a c), (Z.ltb_spec c a); lia.
  - intros c. destruct (Z.ltb_spec a b), (Z.ltb_spec b a), (Z.ltb_spec b c),
      (Z.ltb_spec c b), (Z.ltb_spec a c), (Z.ltb_spec c a); lia.
Qed.

End default_comparator.

(** * The properties of the specification *)

Section claims.
Import util priorityqueue caller.

(** Every queue reached from a new one keeps its comparator and its heap
    order, whatever the calls return; and every call returns or panics. *)
Lemma reachable_heap_ordered {E : Type} `{GoType E} (opts : list (Option E))
    (pq0 : PriorityQueue E) (ops : list (op E)) :
  Forall package_option opts -> New opts = Ok pq0 ->
  StrictWeakOrder (comparator (heap pq0)) ->
  Forall (fun e => ev_outcome e <> OutOfFuel) (fst (run_ops ops pq0)) /\
  comparator (heap (snd (run_ops ops pq0))) = comparator (heap pq0) /\
  heap_ordered (comparator (heap pq0)) (items (heap (snd (run_ops ops pq0)))).
Proof.
  intros Hopts Hnew Hswo.
  destruct (New_ok opts pq0 Hopts Hnew) as [Hnil _].
  destruct pq0 as [[l c] eq]. cbn in Hnil, Hswo. subst l.
  destruct (run_ops_ok ops [] c eq _) as (tr & l' & Hrun & Htr & _ & Hheap & _).
  rewrite Hrun. cbn. split; [done|]. split; [done|].
  apply (heap_ordered_is_heap c). apply Hheap; [done|]. apply is_heap_nil.
Qed.

(** C1, as the code has it: on an empty queue [Poll] panics, in
    [heap.Pop] at [h.Swap(0, -1)], and leaves the queue as it was; it does
    not return the zero value.  [Peek] on an empty queue does return the
    zero value, without a fault. *)
Theorem C1_Poll_on_empty_panics {E : Type} `{GoType E}
    (c : util.Comparator E) (eq : option (Equals E)) :
  Poll (mk_PriorityQueue (mk_internalHeap [] c) eq) =
    (Panic "runtime error: index out of range",
     mk_PriorityQueue (mk_internalHeap [] c) eq) /\
  Peek (mk_PriorityQueue (mk_internalHeap [] c) eq) =
    (Ok zero, mk_PriorityQueue (mk_internalHeap [] c) eq) /\
  (exists pq0, New (E := Z) [] = Ok pq0 /\
     fst (Poll pq0) = Panic "runtime error: index out of range" /\
     fst (Peek pq0) = Ok 0).
Proof.
  split; [reflexivity|]. split; [reflexivity|].
  eexists. split; [reflexivity|]. split; reflexivity.
Qed.

(** C2: every queue reached from a newly constructed one by calls of
    [Add], [Offer], [Poll] and [Remove], under a comparator that is a strict
    weak ordering, satisfies the binary min-heap property: for every index
    [i] with a child at [2i+1] or [2i+2] within bounds,
    [compare(items[i], items[child]) <= 0].  Every one of the calls returns
    or panics, and the comparator stays the one of the construction. *)
Theorem C2_heap_order_invariant {E : Type} `{GoType E} (opts : list (Option E))
    (pq0 : PriorityQueue E) (ops : list (op E)) :
  Forall package_option opts -> New opts = Ok pq0 ->
  StrictWeakOrder (comparator (heap pq0)) ->
  Forall (fun e => ev_outcome e <> OutOfFuel) (fst (run_ops ops pq0)) /\
  comparator (heap (snd (run_ops ops pq0))) = comparator (heap pq0) /\
  heap_ordered (comparator (heap (snd (run_ops ops pq0))))
    (items (heap (snd (run_ops ops pq0)))).
Proof.
  intros Hopts Hnew Hswo.
  destruct (reachable_heap_ordered opts pq0 ops Hopts Hnew Hswo) as (Htr & Hc & Hheap).
  split; [done|]. split; [done|]. by rewrite Hc.
Qed.

Lemma C2_witness :
  Forall (fun e => ev_outcome e <> OutOfFuel) (fst (run_ops
    [OpAdd 5; OpAdd 3; OpOffer 8; OpAdd 1; OpPoll; OpRemove 8; OpAdd 2; OpPoll; OpPoll; OpPoll; OpPoll]
    (mk_PriorityQueue (mk_internalHeap [] three_way) None))) /\
  comparator (heap (snd (run_ops
    [OpAdd 5; OpAdd 3; OpOffer 8; OpAdd 1; OpPoll; OpRemove 8; OpAdd 2; OpPoll; OpPoll; OpPoll; OpPoll]
    (mk_PriorityQueue (mk_internalHeap [] three_way) None)))) = three_way /\
  heap_ordered
    (comparator (heap (snd (run_ops
      [OpAdd 5; OpAdd 3; OpOffer 8; OpAdd 1; OpPoll; OpRemove 8; OpAdd 2; OpPoll; OpPoll; OpPoll; OpPoll]
      (mk_PriorityQueue (mk_internalHeap [] three_way) None)))))
    (items (heap (snd (run_ops
      [OpAdd 5; OpAdd 3; OpOffer 8; OpAdd 1; OpPoll; OpRemove 8; OpAdd 2; OpPoll; OpPoll; OpPoll; OpPoll]
      (mk_PriorityQueue (mk_internalHeap [] three_way) None))))).
Proof.
  apply (C2_heap_order_invariant [WithCapacity 16; WithComparator three_way]).
  - constructor; [left; by eexists|].
    constructor; [right; left; by eexists|]. constructor.
  - reflexivity.
  - exact three_way_StrictWeakOrder.
Defined.


(** C3: on a queue built by any sequence of insertions under a strict weak
    ordering, calling [Poll] until the queue is empty returns, without a
    fault, the inserted elements in non-decreasing order of the comparator;
    and after [Add(3)], [Add(2)], [Add(1)] on an [int] queue with the default
    ordering, three calls of [Poll] return 1, 2 and 3. *)
Theorem C3_sorted_extraction :
  (forall (E : Type) (HE : GoType E) (opts : list (Option E))
      (pq0 : PriorityQueue E) (ops : list (op E)) (fuel : nat),
    Forall package_option opts -> New opts = Ok pq0 ->
    StrictWeakOrder (comparator (heap pq0)) ->
    Forall (fun o => is_insertion o = true) ops ->
    (length ops < fuel)%nat ->
    exists out pq',
      drain_loop fuel (snd (run_ops ops pq0)) = (Ok out, pq') /\
      items (heap pq') = [] /\
      Sorted (at_most (comparator (heap pq0))) out /\
      out ≡ₚ concat (map inserted ops)) /\
  (exists pq0 : PriorityQueue Z,
    New [] = Ok pq0 /\
    poll_n 3 (snd (run_ops [OpAdd 3; OpAdd 2; OpAdd 1] pq0)) = [Ok 1; Ok 2; Ok 3]).
Proof.
  split.
  - intros E HE opts pq0 ops fuel Hopts Hnew Hswo Hins Hfuel.
    destruct (New_ok opts pq0 Hopts Hnew) as [Hnil _].
    destruct pq0 as [[l c] eq]. cbn in Hnil, Hswo. subst l.
    destruct (run_ops_ok ops [] c eq _) as (tr & l' & Hrun & _ & _ & Hheap & Hperm).
    specialize (Hperm Hins). rewrite app_nil_r in Hperm.
    destruct (drain_loop_ok fuel l' c eq) as (out & Hdrain & Hsorted & Hout).
    { apply Permutation_length in Hperm. rewrite Hperm.
      clear -Hins Hfuel. induction Hins as [|o ops Ho Hins IH] in fuel, Hfuel |- *; cbn in *; [lia|].
      rewrite length_app. destruct fuel; [lia|]. specialize (IH fuel).
      assert (length (inserted o) <= 1)%nat; [|lia].
      destruct o as [item|item| |item]; cbn; try lia; destruct (is_nil item); cbn; lia. }
    { done. } { apply Hheap; [done|apply is_heap_nil]. }
    exists out, (mk_PriorityQueue (mk_internalHeap [] c) eq).
    rewrite Hrun. cbn [snd heap comparator items].
    split; [done|]. split; [done|]. split; [|by rewrite Hout].
    apply StronglySorted_Sorted.
    eapply StronglySorted_weaken; [|exact Hsorted].
    intros a b. by apply (at_most_result c).
  - eexists. split; [reflexivity|]. vm_compute. reflexivity.
Qed.

Lemma C3_witness :
  exists out pq',
    drain_loop 6 (snd (run_ops [OpAdd 4; OpOffer 9; OpAdd 1; OpAdd 4; OpOffer 0]
      (mk_PriorityQueue (mk_internalHeap [] three_way) None))) = (Ok out, pq') /\
    items (heap pq') = [] /\
    Sorted (at_most three_way) out /\
    out ≡ₚ concat (map inserted [OpAdd 4; OpOffer 9; OpAdd 1; OpAdd 4; OpOffer 0]).
Proof.
  apply (proj1 C3_sorted_extraction Z _ [WithComparator three_way]).
  - constructor; [right; left; by eexists|]. constructor.
  - reflexivity.
  - exact three_way_StrictWeakOrder.
  - repeat constructor.
  - cbn. lia.
Defined.




(** C6, as the code has it: under an ordering function that returns,
    [Offer] returns [true] on every queue and for every item (there is no
    capacity ceiling), and keeps the comparator and the equality function.
    For every item but a nil interface value the item is then in the queue
    with the elements that were there, and [Size] has grown by one.  For a
    nil interface value [Offer] returns [true] and inserts nothing: the
    assertion [x.(E)] of [Push] fails, and [Size] stays; so it is on a new
    queue of element type [any]. *)
Theorem C6_Offer_returns_true :
  (forall (E : Type) (HE : GoType E) (pq : PriorityQueue E) (item : E),
     Returns (comparator (heap pq)) ->
     exists pq',
       Offer item pq = (Ok true, pq') /\
       comparator (heap pq') = comparator (heap pq) /\
       equals pq' = equals pq /\
       (is_nil item = false ->
          items (heap pq') ≡ₚ item :: items (heap pq) /\
          fst (Size pq') = Ok (Z.of_nat (length (items (heap pq))) + 1)) /\
       (is_nil item = true ->
          items (heap pq') ≡ₚ items (heap pq) /\
          fst (Size pq') = fst (Size pq))) /\
  (New (E := AnyValue) [] =
     Ok (mk_PriorityQueue (mk_internalHeap [] DefaultComparator) None) /\
   Offer AnyNil (mk_PriorityQueue (mk_internalHeap [] DefaultComparator) None) =
     (Ok true, mk_PriorityQueue (mk_internalHeap [] DefaultComparator) None) /\
   fst (Size (mk_PriorityQueue (mk_internalHeap ([] : list AnyValue) DefaultComparator) None)) =
     Ok 0).
Proof.
  split; [|repeat split; reflexivity].
  intros E HE [[l c] eq] item Hret. cbn [heap comparator items] in Hret.
  destruct (Offer_ok item l c eq) as (l' & Hrun & Hperm & _).
  eexists. split; [exact Hrun|]. cbn. split; [done|]. split; [done|].
  unfold appended in Hperm. split; intros Hnil; rewrite Hnil in Hperm.
  - split; [done|]. apply Permutation_length in Hperm. cbn in Hperm. f_equal. lia.
  - split; [done|]. apply Permutation_length in Hperm. cbn in Hperm. f_equal. lia.
Qed.

Lemma C6_witness :
  exists pq',
    Offer 4 (mk_PriorityQueue (mk_internalHeap [1; 5; 3] DefaultComparator) None) =
      (Ok true, pq') /\
    comparator (heap pq') = DefaultComparator /\
    equals pq' = None /\
    (is_nil 4 = false ->
       items (heap pq') ≡ₚ 4 :: [1; 5; 3] /\ fst (Size pq') = Ok (3 + 1)) /\
    (is_nil 4 = true ->
       items (heap pq') ≡ₚ [1; 5; 3] /\
       fst (Size pq') =
         fst (Size (mk_PriorityQueue (mk_internalHeap [1; 5; 3] DefaultComparator) None))).
Proof.
  apply (proj1 C6_Offer_returns_true Z _
           (mk_PriorityQueue (mk_internalHeap [1; 5; 3] DefaultComparator) None) 4).
  intros a b. reflexivity.
Defined.



(** C9, as the code has it: from a newly constructed queue whose ordering
    function returns, after any sequence of calls of the methods that insert
    no nil interface value, [Size] is the number of insertions that returned
    [true], minus the number of removals that returned [true], minus the
    number of polls made on a non-empty queue, all counted since the last
    call of [Clear] (since the construction when there is none); and every
    call changes the size by exactly that much: +1 for an insertion that
    succeeded, -1 for a removal that succeeded or a poll on a non-empty
    queue, to 0 for [Clear], and not at all otherwise. *)
Theorem C9_size_accounting {E : Type} `{GoType E} (opts : list (Option E))
    (pq0 : PriorityQueue E) (ms : list (method E)) :
  Forall package_option opts -> New opts = Ok pq0 ->
  Returns (comparator (heap pq0)) ->
  Forall (fun m => inserts_nil m = false) ms ->
  fst (Size (snd (run_methods ms pq0))) =
    Ok (tally insertion_succeeded (since_Clear (fst (run_methods ms pq0)))
        - tally removal_succeeded (since_Clear (fst (run_methods ms pq0)))
        - tally polled_nonempty (since_Clear (fst (run_methods ms pq0)))) /\
  forall (pq : PriorityQueue E) (m : method E),
    Returns (comparator (heap pq)) -> inserts_nil m = false ->
    fst (Size (snd (run_method m pq))) =
      Ok (size_after_call
            (mk_record m (Z.of_nat (length (items (heap pq)))) (fst (run_method m pq)))).
Proof.
  intros Hopts Hnew Hret Hms. split.
  - destruct (New_ok opts pq0 Hopts Hnew) as [Hnil _].
    destruct pq0 as [[l c] eq]. cbn [heap comparator items] in *. subst l.
    destruct (run_methods_ok ms [] c eq [] 0 _) as (tr & l' & Hrun & _ & Hlen & _); [done|].
    pose proof (run_methods_methods ms (mk_PriorityQueue (mk_internalHeap [] c) eq)) as Hmeth.
    rewrite Hrun in Hmeth |- *. cbn [fst snd] in *.
    assert (Forall (fun r => inserts_nil (rec_method r) = false) (since_Clear tr)) as Hno.
    { apply after_last_Clear_Forall; [done|]. rewrite <- Hmeth in Hms.
      by apply Forall_map in Hms. }
    cbn. f_equal. rewrite Hlen. fold (since_Clear tr). rewrite (tally_no_nil _ Hno).
    destruct (existsb is_Clear tr); lia.
  - intros [[l c] eq] m Hc Hm. cbn [heap comparator items] in *.
    destruct (run_method_ok m l c eq) as (r & l' & Hrun & _ & Hlen & _).
    rewrite Hrun. cbn. f_equal. rewrite Hlen. by apply size_after_no_nil.
Qed.

Lemma C9_witness :
  fst (Size (snd (run_methods
       [Mutating (OpAdd 5); Mutating OpPoll; MClear; Mutating (OpOffer 3); MPeek;
        Mutating (OpAdd 4); MContains 4; Mutating (OpRemove 9); Mutating (OpRemove 3)]
       (mk_PriorityQueue (mk_internalHeap [] DefaultComparator) None)))) =
    Ok (tally insertion_succeeded (since_Clear (fst (run_methods
          [Mutating (OpAdd 5); Mutating OpPoll; MClear; Mutating (OpOffer 3); MPeek;
           Mutating (OpAdd 4); MContains 4; Mutating (OpRemove 9); Mutating (OpRemove 3)]
          (mk_PriorityQueue (mk_internalHeap [] DefaultComparator) None))))
        - tally removal_succeeded (since_Clear (fst (run_methods
          [Mutating (OpAdd 5); Mutating OpPoll; MClear; Mutating (OpOffer 3); MPeek;
           Mutating (OpAdd 4); MContains 4; Mutating (OpRemove 9); Mutating (OpRemove 3)]
          (mk_PriorityQueue (mk_internalHeap [] DefaultComparator) None))))
        - tally polled_nonempty (since_Clear (fst (run_methods
          [Mutating (OpAdd 5); Mutating OpPoll; MClear; Mutating (OpOffer 3); MPeek;
           Mutating (OpAdd 4); MContains 4; Mutating (OpRemove 9); Mutating (OpRemove 3)]
          (mk_PriorityQueue (mk_internalHeap [] DefaultComparator) None))))) /\
  forall (pq : PriorityQueue Z) (m : method Z),
    Returns (comparator (heap pq)) -> inserts_nil m = false ->
    fst (Size (snd (run_method m pq))) =
      Ok (size_after_call
            (mk_record m (Z.of_nat (length (items (heap pq)))) (fst (run_method m pq)))).
Proof.
  apply (C9_size_accounting [WithCapacity 2]).
  - constructor; [left; by eexists|]. constructor.
  - reflexivity.
  - intros a b. reflexivity.
  - by repeat constructor.
Defined.

(** The claim C9 fails at [Add(5); Clear()] on a new [int] queue: [Size]
    is 0, and one insertion returned [true], with no removal and no poll. *)
Lemma C9_counterexample :
  New (E := Z) [] = Ok (mk_PriorityQueue (mk_internalHeap [] DefaultComparator) None) /\
  fst (Size (snd (run_methods [Mutating (OpAdd 5); MClear]
    (mk_PriorityQueue (mk_internalHeap [] DefaultComparator) None)))) = Ok 0 /\
  tally insertion_succeeded (fst (run_methods [Mutating (OpAdd 5); MClear]
    (mk_PriorityQueue (mk_internalHeap [] DefaultComparator) None)))
  - tally removal_succeeded (fst (run_methods [Mutating (OpAdd 5); MClear]
    (mk_PriorityQueue (mk_internalHeap [] DefaultComparator) None)))
  - tally polled_nonempty (fst (run_methods [Mutating (OpAdd 5); MClear]
    (mk_PriorityQueue (mk_internalHeap [] DefaultComparator) None))) = 1.
Proof. repeat split; reflexivity. Qed.


(** C5, as the code has it: a queue constructed without an ordering option
    has the default ordering as its comparator, and [Comparator] returns it.
    The default ordering decides by the dynamic type of its first argument:
    it compares two [int]s by (machine) subtraction, two [float64] values by
    the sign of their difference, two strings lexicographically, and
    returns 0 when the dynamic type of the first argument is none of the
    three; that is so for every pair of values of a struct type. *)
Theorem C5_default_ordering :
  (forall (E : Type) (HE : GoType E) (opts : list (Option E)) (pq : PriorityQueue E),
     Forall no_ordering opts -> New opts = Ok pq ->
     comparator (heap pq) = DefaultComparator /\
     Comparator pq = (Ok DefaultComparator, pq)) /\
  (forall (E : Type) (HE : GoType E) (a b : E),
     (forall x y : Z, type_switch a = CaseInt x -> type_switch b = CaseInt y ->
        DefaultComparator a b = Ok (wrap (x - y)) /\
        (is_int (x - y) -> DefaultComparator a b = Ok (x - y))) /\
     (forall x y : spec_float,
        type_switch a = CaseFloat64 x -> type_switch b = CaseFloat64 y ->
        DefaultComparator a b = Ok (float64_sign_of_difference x y)) /\
     (forall x y : string,
        type_switch a = CaseString x -> type_switch b = CaseString y ->
        exists z, DefaultComparator a b = Ok z /\
          (z = -1 <-> lex_lt x y) /\ (z = 0 <-> x = y) /\ (z = 1 <-> lex_lt y x)) /\
     (type_switch a = CaseOther -> DefaultComparator a b = Ok 0)) /\
  (forall a b : Z, DefaultComparator a b = Ok (wrap (a - b))) /\
  (forall a b : spec_float, DefaultComparator a b = Ok (float64_sign_of_difference a b)) /\
  (forall a b : string,
     exists z, DefaultComparator a b = Ok z /\
       (z = -1 <-> lex_lt a b) /\ (z = 0 <-> a = b) /\ (z = 1 <-> lex_lt b a)) /\
  (forall a b : Person, DefaultComparator a b = Ok 0).
Proof.
  split; [|split; [|split; [|split; [|split]]]].
  - intros E HE opts pq Hopts Hnew.
    destruct (New_ok opts pq) as [_ Hc]; [|done|].
    { eapply Forall_impl; [exact Hopts|]. apply no_ordering_package_option. }
    specialize (Hc Hopts). split; [done|].
    unfold Comparator, bind, get, ret. by rewrite Hc.
  - intros E HE a b. unfold DefaultComparator. split; [|split; [|split]].
    + intros x y -> ->. split; [done|]. intros Hxy. by rewrite wrap_exact.
    + intros x y -> ->. exact (DefaultComparator_float64 x y).
    + intros x y -> ->. eexists. split; [done|]. apply (strings_Compare_spec x y).
    + by intros ->.
  - done.
  - apply DefaultComparator_float64.
  - intros a b. eexists. split; [reflexivity|]. apply (strings_Compare_spec a b).
  - done.
Qed.

Lemma C5_witness :
  comparator (heap (mk_PriorityQueue (mk_internalHeap [] DefaultComparator) (Some Z.eqb))) =
    DefaultComparator /\
  Comparator (mk_PriorityQueue (mk_internalHeap [] DefaultComparator) (Some Z.eqb)) =
    (Ok DefaultComparator, mk_PriorityQueue (mk_internalHeap [] DefaultComparator) (Some Z.eqb)).
Proof.
  apply (proj1 C5_default_ordering Z _ [WithCapacity 32; WithEquals Z.eqb]).
  - constructor; [left; by eexists|]. constructor; [right; by eexists|]. constructor.
  - reflexivity.
Defined.

(** The claim C5 fails for the element type [any], which is none of [int],
    [float64] and [string]: the default ordering of a new queue of that
    type returns -1 for the [int]s 1 and 2, not 0. *)
Lemma C5_counterexample :
  New (E := AnyValue) [] =
    Ok (mk_PriorityQueue (mk_internalHeap [] DefaultComparator) None) /\
  DefaultComparator (AnyInt 1) (AnyInt 2) = Ok (-1) /\
  DefaultComparator (AnyInt 1) (AnyInt 2) <> Ok 0.
Proof.
  split; [reflexivity|]. split; [reflexivity|].
  intros Heq. vm_compute in Heq. discriminate.
Qed.

(** C10: the default ordering of [int]s is subtraction modulo 2^64.  For
    the smallest and the largest [int], [a < b] and yet the comparator
    returns a positive result; and there are [int]s for which it is negative
    in both directions, so it is not a strict weak ordering. *)
Theorem C10_default_int_ordering_overflows :
  (forall a b : Z,
     exists z, DefaultComparator a b = Ok z /\
       is_int z /\ exists k, z = (a - b) + k * 2 ^ 64) /\
  (is_int MinInt /\ is_int MaxInt /\ MinInt < MaxInt /\
   exists z, DefaultComparator MinInt MaxInt = Ok z /\ 0 < z) /\
  (exists a b : Z,
     is_int a /\ is_int b /\
     (exists z, DefaultComparator a b = Ok z /\ z < 0) /\
     (exists z, DefaultComparator b a = Ok z /\ z < 0)) /\
  ~ StrictWeakOrder (DefaultComparator (T := Z)).
Proof.
  assert (is_int MinInt /\ is_int 0 /\
          result DefaultComparator MinInt 0 < 0 /\ result DefaultComparator 0 MinInt < 0)
    as Hbad.
  { unfold is_int. vm_compute. repeat split; congruence. }
  split; [|split; [|split]].
  - intros a b. exists (wrap (a - b)). split; [reflexivity|].
    split; [apply wrap_is_int|apply wrap_congruent].
  - split; [|split; [|split]]; [by vm_compute|by vm_compute|by vm_compute|].
    exists 1. split; [by vm_compute|lia].
  - exists MinInt, 0. destruct Hbad as (Ha & Hb & Hlt & Hgt).
    split; [done|]. split; [done|]. split; eexists; (split; [reflexivity|done]).
  - intros Hswo. destruct Hbad as (_ & _ & Hlt & Hgt).
    apply (cmp_sign (cmp := DefaultComparator)) in Hlt. lia.
Qed.

End claims.

Section claim_to_array.
Import util.

(** The queue of the world, and the results of its later polls, are those
    of the value the world holds. *)
Lemma same_queue_poll_n {E : Type} `{GoType E} (w w' : memory.world E) n :
  well_formed w' -> same_queue w w' ->
  memory.poll_n n w' = caller.poll_n n (queue_of w).
Proof.
  intros Hwf Hsame. apply represents_poll_n. by apply same_queue_represents.
Qed.

(** C7: [ToArray] returns a slice whose length is [Size()] and whose
    elements are the items of the queue in their heap order.  The call does
    not change the queue.  The slice is a copy: assignments to its elements
    change the slice, never the items of the queue, and the later calls of
    [Poll] return what they would have returned without them. *)
Theorem C7_ToArray_independent_copy {E : Type} `{util.GoType E} (w : memory.world E) :
  well_formed w ->
  exists s w',
    memory.ToArray w = (Ok s, w') /\
    fst (memory.Size w) = Ok (Z.of_nat (memory.len s)) /\
    memory.elements (memory.mem w') s = memory.view w /\
    fst (priorityqueue.ToArray (queue_of w)) = Ok (memory.elements (memory.mem w') s) /\
    same_queue w w' /\
    (forall i v x,
       index (memory.elements (memory.mem w') s) i = Some x ->
       memory.elements (memory.mem (memory.assign_all s [(i, v)] w')) s =
         <[Z.to_nat i := v]> (memory.elements (memory.mem w') s)) /\
    (forall writes,
       same_queue w' (memory.assign_all s writes w') /\
       forall n,
         memory.poll_n n (memory.assign_all s writes w') = memory.poll_n n w').
Proof.
  intros Hwf.
  destruct (ToArray_run w Hwf) as (s & w' & Hrun & Hel & Hlen & Hwf' & Hsame & Hsep).
  exists s, w'. split; [done|]. split; [|split; [done|split; [|split; [done|split]]]].
  - cbn. rewrite Hlen, view_length by done. done.
  - cbn. by rewrite Hel.
  - intros i v x Hx. cbn [memory.assign_all]. by apply (assign_elements s i v w' x).
  - intros writes.
    destruct (assign_all_separate s writes w' Hwf' Hsep) as [Hwf'' Hsame''].
    split; [done|]. intros n.
    rewrite (same_queue_poll_n w' _ n Hwf'' Hsame'').
    symmetry. apply same_queue_poll_n; [done|]. by repeat split.
Qed.

Lemma C7_witness :
  exists s w',
    memory.ToArray (memory.world_of
      (priorityqueue.mk_PriorityQueue (priorityqueue.mk_internalHeap [1; 3; 2] three_way) None)) =
      (Ok s, w') /\
    fst (memory.Size (memory.world_of
      (priorityqueue.mk_PriorityQueue (priorityqueue.mk_internalHeap [1; 3; 2] three_way) None))) =
      Ok (Z.of_nat (memory.len s)) /\
    memory.elements (memory.mem w') s =
      memory.view (memory.world_of
        (priorityqueue.mk_PriorityQueue (priorityqueue.mk_internalHeap [1; 3; 2] three_way) None)) /\
    fst (priorityqueue.ToArray (queue_of (memory.world_of
      (priorityqueue.mk_PriorityQueue (priorityqueue.mk_internalHeap [1; 3; 2] three_way) None)))) =
      Ok (memory.elements (memory.mem w') s) /\
    same_queue (memory.world_of
      (priorityqueue.mk_PriorityQueue (priorityqueue.mk_internalHeap [1; 3; 2] three_way) None)) w' /\
    (forall i v x,
       index (memory.elements (memory.mem w') s) i = Some x ->
       memory.elements (memory.mem (memory.assign_all s [(i, v)] w')) s =
         <[Z.to_nat i := v]> (memory.elements (memory.mem w') s)) /\
    (forall writes,
       same_queue w' (memory.assign_all s writes w') /\
       forall n,
         memory.poll_n n (memory.assign_all s writes w') = memory.poll_n n w').
Proof.
  apply C7_ToArray_independent_copy.
  split; cbn; lia.
Defined.

End claim_to_array.

(** * Further properties of the queue *)

Section further_properties.
Import util priorityqueue caller.

(** On a non-empty queue that satisfies the heap invariant under a strict
    weak ordering, [Poll] returns the root, which is a minimum of the queue,
    removes that one element and keeps the heap invariant. *)
Theorem Poll_returns_minimum {E : Type} `{GoType E} (pq : PriorityQueue E) :
  items (heap pq) <> [] ->
  StrictWeakOrder (comparator (heap pq)) ->
  heap_ordered (comparator (heap pq)) (items (heap pq)) ->
  exists x pq',
    Poll pq = (Ok x, pq') /\
    index (items (heap pq)) 0 = Some x /\
    (forall y, y ∈ items (heap pq) -> at_most (comparator (heap pq)) x y) /\
    items (heap pq) ≡ₚ x :: items (heap pq') /\
    comparator (heap pq') = comparator (heap pq) /\
    heap_ordered (comparator (heap pq')) (items (heap pq')).
Proof.
  intros Hne Hswo Hheap. destruct pq as [[l c] eq]. cbn [heap comparator items] in *.
  apply (heap_ordered_is_heap c) in Hheap.
  destruct (Poll_ok l c eq Hne) as (x & l' & Hrun & Hroot & Hperm & Hheap').
  eexists x, _. split; [exact Hrun|]. cbn. split; [done|]. split; [|split; [done|split; [done|]]].
  - intros y Hy. apply list_elem_of_lookup in Hy as [k Hk].
    apply (at_most_result c).
    apply (is_heap_root_min c l x Hheap Hroot (Z.of_nat k)).
    unfold index. destruct (Z.ltb_spec (Z.of_nat k) 0); [lia|]. by rewrite Nat2Z.id.
  - apply (heap_ordered_is_heap c). by apply Hheap'.
Qed.

Lemma Poll_returns_minimum_witness :
  exists x pq',
    Poll (snd (run_ops [OpAdd 3; OpAdd 2; OpAdd 1]
                 (mk_PriorityQueue (mk_internalHeap [] three_way) None))) = (Ok x, pq') /\
    index (items (heap (snd (run_ops [OpAdd 3; OpAdd 2; OpAdd 1]
                 (mk_PriorityQueue (mk_internalHeap [] three_way) None))))) 0 = Some x /\
    (forall y,
       y ∈ items (heap (snd (run_ops [OpAdd 3; OpAdd 2; OpAdd 1]
                 (mk_PriorityQueue (mk_internalHeap [] three_way) None)))) ->
       at_most (comparator (heap (snd (run_ops [OpAdd 3; OpAdd 2; OpAdd 1]
                 (mk_PriorityQueue (mk_internalHeap [] three_way) None))))) x y) /\
    items (heap (snd (run_ops [OpAdd 3; OpAdd 2; OpAdd 1]
                 (mk_PriorityQueue (mk_internalHeap [] three_way) None)))) ≡ₚ
      x :: items (heap pq') /\
    comparator (heap pq') =
      comparator (heap (snd (run_ops [OpAdd 3; OpAdd 2; OpAdd 1]
                 (mk_PriorityQueue (mk_internalHeap [] three_way) None)))) /\
    heap_ordered (comparator (heap pq')) (items (heap pq')).
Proof.
  apply Poll_returns_minimum.
  - intros Hnil. vm_compute in Hnil. discriminate.
  - exact three_way_StrictWeakOrder.
  - apply (reachable_heap_ordered [WithComparator three_way]
             (mk_PriorityQueue (mk_internalHeap [] three_way) None) [OpAdd _; OpAdd _; OpAdd _]).
    + constructor; [right; left; by eexists|]. constructor.
    + reflexivity.
    + exact three_way_StrictWeakOrder.
Defined.



(** The second program of the README, with the names in Latin letters: a
    queue of [Person] ordered by [Age]. *)
Theorem README_Person_scenario :
  exists pq0 : PriorityQueue Person,
    New [WithComparator by_age] = Ok pq0 /\
    fst (Contains (mk_Person "Gibeom" 25)
           (snd (run_ops [OpAdd (mk_Person "Minsu" 28); OpAdd (mk_Person "Chanu" 29)] pq0))) =
      Ok false /\
    fst (Contains (mk_Person "Gibeom" 25)
           (snd (run_ops [OpAdd (mk_Person "Minsu" 28); OpAdd (mk_Person "Chanu" 29);
                          OpAdd (mk_Person "Gibeom" 25)] pq0))) = Ok true /\
    fst (ToArray
           (snd (run_ops [OpAdd (mk_Person "Minsu" 28); OpAdd (mk_Person "Chanu" 29);
                          OpAdd (mk_Person "Gibeom" 25)] pq0))) =
      Ok [mk_Person "Gibeom" 25; mk_Person "Chanu" 29; mk_Person "Minsu" 28] /\
    fst (Size
           (snd (run_ops [OpAdd (mk_Person "Minsu" 28); OpAdd (mk_Person "Chanu" 29);
                          OpAdd (mk_Person "Gibeom" 25)] pq0))) = Ok 3 /\
    fst (Peek
           (snd (run_ops [OpAdd (mk_Person "Minsu" 28); OpAdd (mk_Person "Chanu" 29);
                          OpAdd (mk_Person "Gibeom" 25)] pq0))) = Ok (mk_Person "Gibeom" 25) /\
    poll_n 3
      (snd (run_ops [OpAdd (mk_Person "Minsu" 28); OpAdd (mk_Person "Chanu" 29);
                     OpAdd (mk_Person "Gibeom" 25)] pq0)) =
      [Ok (mk_Person "Gibeom" 25); Ok (mk_Person "Minsu" 28); Ok (mk_Person "Chanu" 29)].
Proof.
  eexists. split; [reflexivity|]. vm_compute. repeat split; reflexivity.
Qed.

End further_properties.

(** * How the calls of the queue compose *)

Section calls_compose.
Import util priorityqueue caller.

(** [Peek] and [Poll] agree: on every non-empty queue, heap or not, whose
    ordering function returns, [Poll] returns the element [Peek] returns,
    [items[0]], and the queue has one element less afterwards. *)
Theorem Peek_agrees_with_Poll {E : Type} `{GoType E} (pq : PriorityQueue E) :
  items (heap pq) <> [] ->
  Returns (comparator (heap pq)) ->
  exists x pq',
    Peek pq = (Ok x, pq) /\
    Poll pq = (Ok x, pq') /\
    items (heap pq) ≡ₚ x :: items (heap pq') /\
    fst (Size pq') = Ok (Z.of_nat (length (items (heap pq))) - 1).
Proof.
  intros Hne Hret. destruct pq as [[l c] eq]. cbn [heap comparator items] in *.
  destruct (Poll_ok l c eq Hne) as (x & l' & Hrun & Hroot & Hperm & _).
  exists x, (mk_PriorityQueue (mk_internalHeap l' c) eq).
  split; [|split; [done|split; [done|]]].
  - destruct l as [|x0 l]; [done|]. cbn in Hroot. injection Hroot as ->. reflexivity.
  - cbn. apply Permutation_length in Hperm. cbn in Hperm. f_equal. lia.
Qed.

Lemma Peek_agrees_with_Poll_witness :
  exists x pq',
    Peek (mk_PriorityQueue (mk_internalHeap [5; 1; 3] three_way) None) =
      (Ok x, mk_PriorityQueue (mk_internalHeap [5; 1; 3] three_way) None) /\
    Poll (mk_PriorityQueue (mk_internalHeap [5; 1; 3] three_way) None) = (Ok x, pq') /\
    [5; 1; 3] ≡ₚ x :: items (heap pq') /\
    fst (Size pq') = Ok (Z.of_nat (length [5; 1; 3]) - 1).
Proof.
  apply (Peek_agrees_with_Poll (mk_PriorityQueue (mk_internalHeap [5; 1; 3] three_way) None)).
  - cbn. discriminate.
  - intros a b. reflexivity.
Defined.


(** [Clear] starts the queue afresh from any state, heap or not: whatever
    calls follow, every one of them returns or panics, the queue is in heap
    order under its comparator (a strict weak ordering), and [Size] counts
    the calls made since the [Clear]: the insertions that returned [true]
    of an item other than a nil interface value, less the removals that
    returned [true] and the polls on a non-empty queue. *)
Theorem Clear_starts_afresh {E : Type} `{GoType E}
    (pq : PriorityQueue E) (ops : list (op E)) :
  StrictWeakOrder (comparator (heap pq)) ->
  fst (Clear pq) = Ok tt /\
  Forall (fun e => ev_outcome e <> OutOfFuel) (fst (run_ops ops (snd (Clear pq)))) /\
  comparator (heap (snd (run_ops ops (snd (Clear pq))))) = comparator (heap pq) /\
  equals (snd (run_ops ops (snd (Clear pq)))) = equals pq /\
  heap_ordered (comparator (heap pq))
    (items (heap (snd (run_ops ops (snd (Clear pq)))))) /\
  fst (Size (snd (run_ops ops (snd (Clear pq))))) =
    Ok (count insertion_stored (fst (run_ops ops (snd (Clear pq))))
        - count removal_succeeded (fst (run_ops ops (snd (Clear pq))))
        - count polled_nonempty (fst (run_ops ops (snd (Clear pq))))).
Proof.
  intros Hswo. destruct pq as [[l c] eq]. cbn [heap comparator] in Hswo.
  change (Clear (mk_PriorityQueue (mk_internalHeap l c) eq)) with
    (Ok tt, mk_PriorityQueue (mk_internalHeap [] c) eq).
  cbn [fst snd heap comparator equals].
  destruct (run_ops_ok ops [] c eq _) as (tr & l' & Hrun & Htr & Hlen & Hheap & _).
  rewrite Hrun. cbn. split; [done|]. split; [done|]. split; [done|]. split; [done|].
  split.
  - apply (heap_ordered_is_heap c). apply Hheap; [done|]. apply is_heap_nil.
  - f_equal. cbn in Hlen. lia.
Qed.

Lemma Clear_starts_afresh_witness :
  fst (Clear (mk_PriorityQueue (mk_internalHeap [9; 1; 7; 0] three_way) None)) = Ok tt /\
  Forall (fun e => ev_outcome e <> OutOfFuel)
    (fst (run_ops [OpAdd 4; OpPoll; OpPoll; OpAdd 2; OpAdd 1]
            (snd (Clear (mk_PriorityQueue (mk_internalHeap [9; 1; 7; 0] three_way) None))))) /\
  comparator (heap (snd (run_ops [OpAdd 4; OpPoll; OpPoll; OpAdd 2; OpAdd 1]
            (snd (Clear (mk_PriorityQueue (mk_internalHeap [9; 1; 7; 0] three_way) None)))))) =
    three_way /\
  equals (snd (run_ops [OpAdd 4; OpPoll; OpPoll; OpAdd 2; OpAdd 1]
            (snd (Clear (mk_PriorityQueue (mk_internalHeap [9; 1; 7; 0] three_way) None))))) =
    None /\
  heap_ordered three_way
    (items (heap (snd (run_ops [OpAdd 4; OpPoll; OpPoll; OpAdd 2; OpAdd 1]
            (snd (Clear (mk_PriorityQueue (mk_internalHeap [9; 1; 7; 0] three_way) None))))))) /\
  fst (Size (snd (run_ops [OpAdd 4; OpPoll; OpPoll; OpAdd 2; OpAdd 1]
            (snd (Clear (mk_PriorityQueue (mk_internalHeap [9; 1; 7; 0] three_way) None)))))) =
    Ok (count insertion_stored
          (fst (run_ops [OpAdd 4; OpPoll; OpPoll; OpAdd 2; OpAdd 1]
            (snd (Clear (mk_PriorityQueue (mk_internalHeap [9; 1; 7; 0] three_way) None)))))
        - count removal_succeeded
          (fst (run_ops [OpAdd 4; OpPoll; OpPoll; OpAdd 2; OpAdd 1]
            (snd (Clear (mk_PriorityQueue (mk_internalHeap [9; 1; 7; 0] three_way) None)))))
        - count polled_nonempty
          (fst (run_ops [OpAdd 4; OpPoll; OpPoll; OpAdd 2; OpAdd 1]
            (snd (Clear (mk_PriorityQueue (mk_internalHeap [9; 1; 7; 0] three_way) None)))))).
Proof.
  apply (Clear_starts_afresh
           (mk_PriorityQueue (mk_internalHeap [9; 1; 7; 0] three_way) None)).
  exact three_way_StrictWeakOrder.
Defined.

Lemma existsb_Permutation {A : Type} (p : A -> bool) (l l' : list A) :
  l ≡ₚ l' -> existsb p l = existsb p l'.
Proof.
  induction 1 as [|x l l' _ IH|x y l|l1 l2 l3 _ IH1 _ IH2]; cbn.
  - done.
  - by rewrite IH.
  - by destruct (p x), (p y).
  - by rewrite IH1.
Qed.

(** Insertion, then lookup, under an ordering function that returns: after
    [Add(item)] of an item other than a nil interface value, [Contains] of
    a value that can be looked for among the item and the elements of the
    queue finds whatever it found before, and also finds every value that
    matches [item]; so it finds [item] itself whenever [item] can be looked
    for and is equal to itself. *)
Theorem Contains_after_Add {E : Type} `{GoType E}
    (pq : PriorityQueue E) (item sought : E) :
  Returns (comparator (heap pq)) ->
  is_nil item = false ->
  searchable pq sought (item :: items (heap pq)) ->
  fst (Contains sought (snd (Add item pq))) =
    Ok (matches pq sought item || existsb (matches pq sought) (items (heap pq))) /\
  (searchable pq item (item :: items (heap pq)) ->
   matches pq item item = true ->
   fst (Contains item (snd (Add item pq))) = Ok true).
Proof.
  intros Hret Hnil Hsought. destruct pq as [[l c] eq]. cbn [heap comparator items] in *.
  destruct (Add_ok item l c eq) as (l' & Hrun & Hperm & _).
  unfold appended in Hperm. rewrite Hnil in Hperm. cbn [app] in Hperm.
  rewrite Hrun. cbn [snd].
  assert (forall s, searchable (mk_PriorityQueue (mk_internalHeap l c) eq) s (item :: l) ->
            fst (Contains s (mk_PriorityQueue (mk_internalHeap l' c) eq)) =
            Ok (matches (mk_PriorityQueue (mk_internalHeap l c) eq) s item
                || existsb (matches (mk_PriorityQueue (mk_internalHeap l c) eq) s) l)) as Hc.
  { intros s (Hs & Hcfg & Htest). rewrite Contains_ok.
    - cbn [fst heap items].
      rewrite (existsb_Permutation _ l' (item :: l)) by done. done.
    - split; [done|]. split; [done|]. cbn [heap items].
      revert Htest. apply Permutation_Forall. by symmetry. }
  split; [by apply Hc|]. intros Hitem Hrefl. by rewrite Hc, Hrefl.
Qed.

Lemma Contains_after_Add_witness :
  fst (Contains 7 (snd (Add 4 (mk_PriorityQueue (mk_internalHeap [3; 7] three_way) None)))) =
    Ok (matches (mk_PriorityQueue (mk_internalHeap [3; 7] three_way) None) 7 4
        || existsb (matches (mk_PriorityQueue (mk_internalHeap [3; 7] three_way) None) 7)
             [3; 7]) /\
  (searchable (mk_PriorityQueue (mk_internalHeap [3; 7] three_way) None) 4 [4; 3; 7] ->
   matches (mk_PriorityQueue (mk_internalHeap [3; 7] three_way) None) 4 4 = true ->
   fst (Contains 4 (snd (Add 4 (mk_PriorityQueue (mk_internalHeap [3; 7] three_way) None)))) =
     Ok true).
Proof.
  apply (Contains_after_Add (mk_PriorityQueue (mk_internalHeap [3; 7] three_way) None) 4 7).
  - intros a b. reflexivity.
  - reflexivity.
  - split; [reflexivity|]. split; [by left|]. by repeat constructor.
Defined.

(** A [float64] NaN can be put in a queue but never found in it: on every
    [float64] queue, [Contains(NaN)] is [false] and [Remove(NaN)] returns
    [false] and leaves the queue as it is, also right after [Add(NaN)]. *)
Theorem NaN_is_never_found (pq : PriorityQueue spec_float) :
  Contains S754_nan pq = (Ok false, pq) /\
  Remove S754_nan pq = (Ok false, pq) /\
  fst (Contains S754_nan (snd (Add S754_nan pq))) = Ok false /\
  fst (Size (snd (Add S754_nan pq))) = Ok (Z.of_nat (length (items (heap pq))) + 1).
Proof.
  assert (forall l, existsb (fun v => SFeqb v S754_nan) l = false) as Hnan.
  { induction l as [|v l IH]; [done|]. cbn. rewrite IH. by destruct v. }
  assert (forall q l, searchable q S754_nan l) as Hs.
  { intros q l. split; [done|]. split; [by left|]. by apply Forall_forall. }
  assert (forall q, existsb (matches q S754_nan) (items (heap q)) = false) as Hm.
  { intros q. unfold matches. cbn. apply Hnan. }
  assert (forall q, Contains S754_nan q = (Ok false, q)) as Hc.
  { intros q. rewrite Contains_ok by done. by rewrite Hm. }
  split; [apply Hc|]. split; [by apply Remove_none|].
  rewrite Hc. split; [done|].
  destruct (Offer_state S754_nan pq) as (l & Hrun & Hlen & ->).
  rewrite Hrun. cbn. rewrite Hlen. cbn. f_equal. lia.
Qed.

End calls_compose.

(** * Construction *)

Section construction.
Import util priorityqueue caller.
Context {E : Type} `{GoType E}.
Implicit Types (names : list (option_name E)) (c : util.Comparator E)
  (eq : option (Equals E)).

Lemma apply_options_configured names : forall c eq,
  match configured names c eq with
  | Some (c', eq') =>
      apply_options (map option_of names)
        (mk_PriorityQueue (mk_internalHeap [] c) eq) =
        (Ok tt, mk_PriorityQueue (mk_internalHeap [] c') eq')
  | None =>
      exists pq',
        apply_options (map option_of names)
          (mk_PriorityQueue (mk_internalHeap [] c) eq) =
          (Panic makeslice_msg, pq')
  end.
Proof.
  induction names as [|[n|c'|f] names IH]; intros c eq; cbn [configured map apply_options].
  - done.
  - unfold bind, option_of, WithCapacity, make_items.
    destruct (makeslice_ok n); [|by eexists]. cbn. apply IH.
  - unfold bind. cbn. apply IH.
  - unfold bind. cbn. apply IH.
Qed.

Lemma configured_without_capacities names : forall c eq,
  forallb capacity_ok names = true ->
  configured (filter (fun o => is_capacity o = false) names) c eq = configured names c eq.
Proof.
  induction names as [|[n|c'|f] names IH]; intros c eq Hok; cbn in Hok.
  - done.
  - apply andb_true_iff in Hok as [Hn Hok].
    rewrite filter_cons. cbn. rewrite decide_False by done.
    rewrite Hn. by apply IH.
  - rewrite filter_cons. cbn. rewrite decide_True by done. cbn. by apply IH.
  - rewrite filter_cons. cbn. rewrite decide_True by done. cbn. by apply IH.
Qed.

Lemma configured_None names : forall c eq,
  configured names c eq = None <->
  exists n, Capacity n ∈ names /\ makeslice_ok n = false.
Proof.
  induction names as [|[n|c'|f] names IH]; intros c eq; cbn [configured].
  - split; [done|]. intros (n & Hin & _). by apply elem_of_nil in Hin.
  - destruct (makeslice_ok n) eqn:Hn.
    + rewrite IH. split; intros (m & Hin & Hm).
      * exists m. split; [by right|done].
      * apply elem_of_cons in Hin as [[= ->]|Hin]; [congruence|]. by exists m.
    + split; [|done]. intros _. exists n. split; [left|done].
  - rewrite IH. split; intros (m & Hin & Hm).
    + exists m. split; [by right|done].
    + apply elem_of_cons in Hin as [?|Hin]; [done|]. by exists m.
  - rewrite IH. split; intros (m & Hin & Hm).
    + exists m. split; [by right|done].
    + apply elem_of_cons in Hin as [?|Hin]; [done|]. by exists m.
Qed.

(** What [New] returns for any list of the package's options.  [New] makes
    the items with capacity 11 and then applies the options in order; it
    panics exactly when [makeslice] refuses one of these capacities, which
    it does for a negative one and for one whose array would be larger
    than the allocator's limit.  Otherwise the queue is empty, its
    comparator is the one of the last [WithComparator] (the default
    comparator when there is none) and its equality function the one of
    the last [WithEquals] (nil when there is none).  A capacity that
    [makeslice] accepts changes nothing: the queue is the one [New] returns
    without the capacity options. *)
Theorem New_configures (names : list (option_name E)) :
  New (map option_of names) =
    match configured (Capacity 11 :: names) DefaultComparator None with
    | Some (c, eq) => Ok (mk_PriorityQueue (mk_internalHeap [] c) eq)
    | None => Panic makeslice_msg
    end /\
  (configured (Capacity 11 :: names) DefaultComparator None = None <->
   exists n, Capacity n ∈ Capacity 11 :: names /\
     (n < 0 \/ maxAlloc < Sizeof * n)) /\
  (forallb capacity_ok names = true ->
   New (map option_of names) =
     New (map option_of (filter (fun o => is_capacity o = false) names))).
Proof.
  assert (forall l, New (map option_of l) =
            match configured (Capacity 11 :: l) DefaultComparator None with
            | Some (c, eq) => Ok (mk_PriorityQueue (mk_internalHeap [] c) eq)
            | None => Panic makeslice_msg
            end) as Hnew.
  { intros l. unfold New, bind. cbn [configured]. unfold make_items.
    set (pq0 := mk_PriorityQueue (mk_internalHeap [] DefaultComparator) None).
    destruct (makeslice_ok 11); [|done].
    change (on_heap (set_items []) pq0) with (Ok tt, pq0).
    pose proof (apply_options_configured l DefaultComparator None) as Hrun.
    fold pq0 in Hrun.
    destruct (configured l DefaultComparator None) as [[c eq]|].
    - by rewrite Hrun.
    - destruct Hrun as [pq' ->]. done. }
  split; [apply Hnew|]. split.
  - rewrite configured_None. unfold makeslice_ok.
    split; intros (n & Hin & Hn); exists n; (split; [done|]).
    + apply andb_false_iff in Hn as [Hn%Z.leb_gt|Hn%Z.leb_gt]; [by left|by right].
    + apply andb_false_iff. destruct Hn; [left|right]; by apply Z.leb_gt.
  - intros Hok. rewrite !Hnew. cbn [configured].
    by rewrite configured_without_capacities.
Qed.

End construction.

Section construction_witness.
Import util priorityqueue.

Lemma New_configures_witness :
  New (map option_of [Capacity 4; Ordering three_way; Capacity 0]) =
    New (map option_of
           (filter (fun o => is_capacity o = false)
              [Capacity 4; Ordering three_way; Capacity 0])).
Proof.
  apply (proj2 (proj2 (New_configures [Capacity 4; Ordering three_way; Capacity 0]))).
  reflexivity.
Defined.

End construction_witness.

(** * The elements that go in and come out *)

Section elements.
Import util priorityqueue caller.
Context {E : Type} `{GoType E}.
Implicit Types (l : list E) (c : util.Comparator E) (eq : option (Equals E)).

Lemma run_op_conserves o l c `{!Returns c} eq :
  (forall item v,
     matches (mk_PriorityQueue (mk_internalHeap l c) eq) item v = true -> v = item) ->
  exists r l',
    run_op o (mk_PriorityQueue (mk_internalHeap l c) eq) =
      (r, mk_PriorityQueue (mk_internalHeap l' c) eq) /\
    put_in (mk_event o (Z.of_nat (length l)) r) ++ l ≡ₚ
      taken_out (mk_event o (Z.of_nat (length l)) r) ++ l'.
Proof.
  intros Hid. unfold put_in, taken_out.
  destruct o as [item|item| |item]; cbn [run_op ev_op ev_outcome].
  - destruct (Add_ok item l c eq) as (l' & Hrun & Hperm & _).
    exists (Ok (VBool true)), l'. unfold bind. rewrite Hrun. split; [done|]. by cbn.
  - destruct (Offer_ok item l c eq) as (l' & Hrun & Hperm & _).
    exists (Ok (VBool true)), l'. unfold bind. rewrite Hrun. split; [done|]. by cbn.
  - destruct l as [|x0 l0].
    + eexists _, []. unfold bind. by rewrite Poll_empty.
    + destruct (Poll_ok (x0 :: l0) c eq) as (x & l' & Hrun & _ & Hperm & _); [done|].
      exists (Ok (VElem x)), l'. unfold bind. rewrite Hrun. split; [done|]. by cbn.
  - destruct (Remove_total item l c eq) as (r & l' & Hrun & _ & Hrem & _).
    unfold bind. rewrite Hrun.
    destruct r as [[]|msg|]; eexists _, l'; (split; [done|]); try (by subst l').
    destruct Hrem as (x & Hperm & Hx).
    assert (x = item) as ->; [|by cbn].
    apply Hid. unfold matches. by rewrite Hx.
Qed.

Lemma run_ops_conserves ops : forall l c eq, Returns c ->
  (forall item v,
     matches (mk_PriorityQueue (mk_internalHeap l c) eq) item v = true -> v = item) ->
  exists tr l',
    run_ops ops (mk_PriorityQueue (mk_internalHeap l c) eq) =
      (tr, mk_PriorityQueue (mk_internalHeap l' c) eq) /\
    concat (map put_in tr) ++ l ≡ₚ concat (map taken_out tr) ++ l'.
Proof.
  induction ops as [|o ops IH]; intros l c eq Hret Hid.
  { by exists [], l. }
  destruct (run_op_conserves o l c eq Hid) as (r & l1 & Hrun1 & Hperm1).
  destruct (IH l1 c eq _) as (tr & l' & Hrun & Hperm); [exact Hid|].
  eexists _, l'. cbn [run_ops]. rewrite Hrun1, Hrun. split; [done|].
  cbn [map concat items heap].
  set (e := mk_event o (Z.of_nat (length l)) r) in *.
  rewrite <- !app_assoc.
  rewrite (Permutation_app_swap_app (put_in e)).
  rewrite Hperm1.
  rewrite (Permutation_app_swap_app _ (taken_out e)).
  rewrite Hperm. rewrite (Permutation_app_swap_app (taken_out e)). done.
Qed.

(** Nothing is lost and nothing is made up: from a newly constructed queue
    whose ordering function returns, after any sequence of calls, the
    elements that were put in (the items, other than nil interface values,
    of the insertions that returned [true]) are exactly the elements that
    polls returned and removals took out together with the elements still
    in the queue, counted with their multiplicity.  The element a removal
    takes out is its argument when equality holds between identical values
    only. *)
Theorem elements_are_conserved (opts : list (Option E)) (pq0 : PriorityQueue E)
    (ops : list (op E)) :
  Forall package_option opts -> New opts = Ok pq0 ->
  Returns (comparator (heap pq0)) ->
  (forall item v, matches pq0 item v = true -> v = item) ->
  concat (map put_in (fst (run_ops ops pq0))) ≡ₚ
    concat (map taken_out (fst (run_ops ops pq0))) ++
    items (heap (snd (run_ops ops pq0))).
Proof.
  intros Hopts Hnew Hret Hid.
  destruct (New_ok opts pq0 Hopts Hnew) as [Hnil _].
  destruct pq0 as [[l c] eq]. cbn [heap comparator items] in *. subst l.
  destruct (run_ops_conserves ops [] c eq _ Hid) as (tr & l' & Hrun & Hperm).
  rewrite Hrun. cbn. by rewrite app_nil_r in Hperm.
Qed.

Lemma sorted_Permutation_unique (R : E -> E -> Prop) (l1 : list E) : forall l2,
  (forall a b, R a b -> R b a -> a = b) ->
  StronglySorted R l1 -> StronglySorted R l2 -> l1 ≡ₚ l2 -> l1 = l2.
Proof.
  induction l1 as [|x l1 IH]; intros l2 Hanti Hs1 Hs2 Hperm.
  { by apply Permutation_nil_l in Hperm. }
  destruct l2 as [|y l2]; [by apply Permutation_nil_r in Hperm|].
  apply StronglySorted_inv in Hs1 as [Hs1 Hx].
  apply StronglySorted_inv in Hs2 as [Hs2 Hy].
  rewrite Forall_forall in Hx, Hy.
  assert (x = y) as ->.
  { assert (x ∈ y :: l2) as Hin1 by (rewrite <- Hperm; left).
    assert (y ∈ x :: l1) as Hin2 by (rewrite Hperm; left).
    apply elem_of_cons in Hin1 as [?|Hin1]; [done|].
    apply elem_of_cons in Hin2 as [?|Hin2]; [done|].
    apply Hanti; [by apply Hx|by apply Hy]. }
  f_equal. apply IH; [done..|]. by apply Permutation_cons_inv in Hperm.
Qed.

Lemma insertions_fit (ops : list (op E)) (fuel : nat) :
  Forall (fun o => is_insertion o = true) ops -> (length ops < fuel)%nat ->
  (length (concat (map inserted ops)) < fuel)%nat.
Proof.
  intros Hins. revert fuel.
  induction Hins as [|o ops Ho Hins IH]; intros fuel Hfuel; cbn in *; [lia|].
  rewrite length_app. destruct fuel; [lia|]. specialize (IH fuel).
  assert (length (inserted o) <= 1)%nat; [|lia].
  destruct o as [item|item| |item]; cbn; try lia; destruct (is_nil item); cbn; lia.
Qed.

(** Under a strict weak ordering in which only identical values are
    equivalent, the order of the insertions does not matter: two sequences
    of insertions of the same elements give queues from which polling until
    empty returns the same sequence. *)
Theorem insertion_order_does_not_matter (opts : list (Option E))
    (pq0 : PriorityQueue E) (ops1 ops2 : list (op E)) (fuel : nat) :
  Forall package_option opts -> New opts = Ok pq0 ->
  StrictWeakOrder (comparator (heap pq0)) ->
  (forall a b, comparator (heap pq0) a b = Ok 0 -> a = b) ->
  Forall (fun o => is_insertion o = true) ops1 ->
  Forall (fun o => is_insertion o = true) ops2 ->
  concat (map inserted ops1) ≡ₚ concat (map inserted ops2) ->
  (length ops1 < fuel)%nat ->
  exists out,
    fst (drain_loop fuel (snd (run_ops ops1 pq0))) = Ok out /\
    fst (drain_loop fuel (snd (run_ops ops2 pq0))) = Ok out.
Proof.
  intros Hopts Hnew Hswo Hanti Hins1 Hins2 Hsame Hfuel.
  destruct (New_ok opts pq0 Hopts Hnew) as [Hnil _].
  destruct pq0 as [[l c] eq]. cbn [heap comparator items] in *. subst l.
  destruct (run_ops_ok ops1 [] c eq _) as (tr1 & l1 & Hrun1 & _ & _ & Hheap1 & Hperm1).
  destruct (run_ops_ok ops2 [] c eq _) as (tr2 & l2 & Hrun2 & _ & _ & Hheap2 & Hperm2).
  specialize (Hperm1 Hins1). specialize (Hperm2 Hins2).
  rewrite app_nil_r in Hperm1, Hperm2.
  pose proof (insertions_fit ops1 fuel Hins1 Hfuel) as Hfit.
  destruct (drain_loop_ok fuel l1 c eq) as (out1 & Hdrain1 & Hsorted1 & Hout1).
  { apply Permutation_length in Hperm1. lia. }
  { done. } { apply Hheap1; [done|apply is_heap_nil]. }
  destruct (drain_loop_ok fuel l2 c eq) as (out2 & Hdrain2 & Hsorted2 & Hout2).
  { apply Permutation_length in Hperm2, Hsame. lia. }
  { done. } { apply Hheap2; [done|apply is_heap_nil]. }
  exists out1. rewrite Hrun1, Hrun2. cbn [snd]. rewrite Hdrain1, Hdrain2. cbn.
  split; [done|]. f_equal.
  apply (sorted_Permutation_unique (fun a b => result c a b <= 0)); [|done|done|].
  - intros a b Hab Hba. apply Hanti. rewrite (returns (cmp := c) a b). f_equal.
    pose proof (cmp_sign (cmp := c) a b). pose proof (cmp_sign (cmp := c) b a). lia.
  - by rewrite Hout2, Hperm2, <- Hsame, <- Hperm1, Hout1.
Qed.

End elements.

Section elements_witnesses.
Import util priorityqueue caller.

Lemma three_way_identical (a b : Z) : three_way a b = Ok 0 -> a = b.
Proof.
  unfold three_way. destruct (Z.ltb_spec a b), (Z.ltb_spec b a); intros [=]; lia.
Qed.

Lemma int_equal_is_identical (pq : PriorityQueue Z) (item v : Z) :
  matches pq item v = true -> v = item.
Proof. unfold matches. cbn. by intros ?%Z.eqb_eq. Qed.

Lemma elements_are_conserved_witness :
  concat (map put_in (fst (run_ops
      [OpAdd 5; OpAdd 3; OpPoll; OpOffer 5; OpRemove 5; OpRemove 9; OpPoll; OpPoll; OpPoll]
      (mk_PriorityQueue (mk_internalHeap [] three_way) None)))) ≡ₚ
    concat (map taken_out (fst (run_ops
      [OpAdd 5; OpAdd 3; OpPoll; OpOffer 5; OpRemove 5; OpRemove 9; OpPoll; OpPoll; OpPoll]
      (mk_PriorityQueue (mk_internalHeap [] three_way) None)))) ++
    items (heap (snd (run_ops
      [OpAdd 5; OpAdd 3; OpPoll; OpOffer 5; OpRemove 5; OpRemove 9; OpPoll; OpPoll; OpPoll]
      (mk_PriorityQueue (mk_internalHeap [] three_way) None)))).
Proof.
  apply (elements_are_conserved [WithComparator three_way]).
  - constructor; [right; left; by eexists|]. constructor.
  - reflexivity.
  - intros a b. reflexivity.
  - apply int_equal_is_identical.
Defined.

Lemma insertion_order_does_not_matter_witness :
  exists out,
    fst (drain_loop 5 (snd (run_ops [OpAdd 4; OpOffer 9; OpAdd 1; OpAdd 4]
           (mk_PriorityQueue (mk_internalHeap [] three_way) None)))) = Ok out /\
    fst (drain_loop 5 (snd (run_ops [OpAdd 9; OpAdd 4; OpOffer 4; OpOffer 1]
           (mk_PriorityQueue (mk_internalHeap [] three_way) None)))) = Ok out.
Proof.
  apply (insertion_order_does_not_matter [WithComparator three_way]).
  - constructor; [right; left; by eexists|]. constructor.
  - reflexivity.
  - exact three_way_StrictWeakOrder.
  - apply three_way_identical.
  - repeat constructor.
  - repeat constructor.
  - cbn. rewrite (Permutation_swap 4 9). do 2 constructor. apply Permutation_swap.
  - cbn. lia.
Defined.

End elements_witnesses.

(** * The queue reads its comparator by the sign of its results *)

Section comparator_sign.
Import util priorityqueue caller.
Context {E : Type} `{GoType E}.
Context (P : E -> Prop) (c1 c2 : util.Comparator E).
Implicit Types (ph : internalHeap E) (pq : PriorityQueue E).

Hypothesis Hsign : (same_sign P c1 c2).

Lemma index_Forall (l : list E) i x : Forall P l -> index l i = Some x -> P x.
Proof.
  intros Hl. unfold index. destruct (i <? 0); [done|].
  intros Hx. rewrite Forall_forall in Hl. apply Hl.
  apply list_elem_of_lookup. eauto.
Qed.

Lemma same_items_Len : sim (same_items P c1 c2) h.Len h.Len.
Proof. intros [l1 d1] [l2 d2] (Hl & HP & Hc1 & Hc2). cbn in *. by subst. Qed.

Lemma same_items_Less i j : sim (same_items P c1 c2) (h.Less i j) (h.Less i j).
Proof.
  intros [l1 d1] [l2 d2] (Hl & HP & Hc1 & Hc2). cbn in *. subst.
  unfold Less, bind, get, read_index. cbn.
  destruct (index l2 i) as [a|] eqn:Ha; [|done].
  destruct (index l2 j) as [b|] eqn:Hb; [|done]. cbn.
  pose proof (Hsign a b) as Hab. unfold negative, call in *.
  destruct (c1 a b), (c2 a b);
    (discriminate Hab; by eapply index_Forall) ||
    (injection Hab; [by intros ->|by eapply index_Forall..]) || done.
Qed.

Lemma same_items_Swap i j : sim (same_items P c1 c2) (h.Swap i j) (h.Swap i j).
Proof.
  intros [l1 d1] [l2 d2] (Hl & HP & Hc1 & Hc2). cbn in *. subst.
  unfold Swap, bind, get, read_index. cbn.
  destruct (index l2 j) as [b|] eqn:Hb; [|done].
  destruct (index l2 i) as [a|] eqn:Ha; [|done]. cbn.
  split; [done|]. split; [done|]. split; [|done].
  pose proof (exchange_Permutation l2 i j) as Hperm.
  unfold exchange in Hperm. rewrite Ha, Hb in Hperm. cbn [items set_items].
  revert HP. apply Permutation_Forall. exact Hperm.
Qed.

Lemma same_items_Pop : sim (same_items P c1 c2) h.Pop h.Pop.
Proof.
  intros [l1 d1] [l2 d2] (Hl & HP & Hc1 & Hc2). cbn in *. subst.
  unfold Pop, bind, get, read_index. cbn.
  destruct (index l2 _) as [x|]; [|done]. cbn.
  split; [done|]. split; [done|]. split; [|done]. by apply Forall_take.
Qed.

Lemma same_items_Push (x : any E) :
  (forall y, x = box y -> P y) -> sim (same_items P c1 c2) (h.Push x) (h.Push x).
Proof.
  intros Hx [l1 d1] [l2 d2] (Hl & HP & Hc1 & Hc2). cbn in *. subst.
  destruct x as [|y]; [done|].
  split; [done|]. split; [done|]. split; [|done].
  apply Forall_app. split; [done|]. constructor; [by apply Hx|done].
Qed.

Lemma same_items_heap_Push (x : any E) :
  (forall y, x = box y -> P y) -> sim (same_items P c1 c2) (heap.Push x) (heap.Push x).
Proof.
  intros Hx. unfold heap.Push.
  apply sim_bind; [by apply same_items_Push|]. intros _.
  apply sim_bind; [apply same_items_Len|]. intros n.
  apply sim_up_loop; [apply same_items_Less|apply same_items_Swap].
Qed.

Lemma inserted_to_any (item : E) :
  Forall P (if is_nil item then [] else [item]) ->
  forall y, to_any item = box y -> P y.
Proof.
  unfold to_any. destruct (is_nil item); [done|].
  intros [Hitem _]%Forall_cons y [= <-]. done.
Qed.

Lemma same_items_heap_Pop : sim (same_items P c1 c2) heap.Pop heap.Pop.
Proof.
  apply sim_heap_Pop;
    auto using same_items_Len, same_items_Less, same_items_Swap, same_items_Pop.
Qed.

Lemma same_items_heap_Remove i : sim (same_items P c1 c2) (heap.Remove i) (heap.Remove i).
Proof.
  apply sim_heap_Remove;
    auto using same_items_Len, same_items_Less, same_items_Swap, same_items_Pop.
Qed.

Lemma same_queues_on_heap {A} (m1 m2 : M (internalHeap E) A) :
  sim (same_items P c1 c2) m1 m2 -> sim (same_queues P c1 c2) (on_heap m1) (on_heap m2).
Proof.
  intros Hm pq1 pq2 [HR Heq]. unfold on_heap.
  destruct (Hm _ _ HR) as [Hfst Hsnd].
  destruct (m1 (heap pq1)) as [r1 ph1], (m2 (heap pq2)) as [r2 ph2].
  cbn in *. by subst.
Qed.

Lemma same_queues_Offer (item : E) :
  Forall P (if is_nil item then [] else [item]) ->
  sim (same_queues P c1 c2) (Offer item) (Offer item).
Proof.
  intros Hitem pq1 pq2 HR. unfold Offer.
  destruct (same_queues_on_heap _ _ (same_items_heap_Push (to_any item) (inserted_to_any item Hitem)) pq1 pq2 HR)
    as [Hfst Hsnd].
  destruct (on_heap (heap.Push (to_any item)) pq1) as [r1 q1],
           (on_heap (heap.Push (to_any item)) pq2) as [r2 q2].
  cbn in *. subst r2. by destruct r1.
Qed.

Lemma same_queues_Remove_scan (p : E -> outcome bool) pq1 pq2 :
  (same_queues P c1 c2) pq1 pq2 ->
  let m := fun l : list E =>
    bind (call (range_find p l 0)) (fun found =>
      match found with
      | Some i => bind (on_heap (heap.Remove i)) (fun _ => ret true)
      | None => ret false
      end) in
  fst (m (items (heap pq1)) pq1) = fst (m (items (heap pq2)) pq2) /\
  (same_queues P c1 c2) (snd (m (items (heap pq1)) pq1)) (snd (m (items (heap pq2)) pq2)).
Proof.
  intros HR m. subst m. cbv beta.
  pose proof HR as [(Hl & HP) Heq]. rewrite Hl.
  assert (forall (r : outcome (option Z)) (k : option Z -> M (PriorityQueue E) bool) pq,
            bind (call r) k pq =
            match r with
            | Ok found => k found pq
            | Panic msg => (Panic msg, pq)
            | OutOfFuel => (OutOfFuel, pq)
            end) as Hcall by (by intros [] k pq).
  rewrite !Hcall.
  destruct (range_find p (items (heap pq2)) 0) as [[i|]|msg|]; [|by split..].
  apply (sim_bind (same_queues P c1 c2)); [|by intros _ ? ? ?|done].
  apply same_queues_on_heap, same_items_heap_Remove.
Qed.

Lemma same_queues_run_op (o : op E) :
  Forall P (inserted o) -> sim (same_queues P c1 c2) (run_op o) (run_op o).
Proof.
  intros Hins. destruct o as [item|item| |item]; cbn [run_op inserted] in *.
  - apply sim_bind; [|by intros b ? ? ?].
    unfold Add. apply sim_bind; [|by intros b ? ? ?; destruct b].
    by apply same_queues_Offer.
  - apply sim_bind; [|by intros b ? ? ?].
    by apply same_queues_Offer.
  - apply sim_bind; [|by intros b ? ? ?].
    unfold Poll. apply sim_bind; [|by intros [|x] ? ? ?].
    apply same_queues_on_heap, same_items_heap_Pop.
  - apply sim_bind; [|by intros b ? ? ?].
    intros pq1 pq2 HR. rewrite !Remove_unfold.
    destruct (is_nil item); [done|].
    pose proof HR as [HRh Heq]. rewrite Heq.
    destruct (negb _ && negb _); [done|].
    replace (equal_to pq1 item) with (equal_to pq2 item)
      by (unfold equal_to; by rewrite Heq).
    exact (same_queues_Remove_scan (equal_to pq2 item) pq1 pq2 HR).
Qed.

Lemma same_queues_run_ops (ops : list (op E)) : forall pq1 pq2,
  Forall P (concat (map inserted ops)) -> (same_queues P c1 c2) pq1 pq2 ->
  fst (run_ops ops pq1) = fst (run_ops ops pq2) /\
  (same_queues P c1 c2) (snd (run_ops ops pq1)) (snd (run_ops ops pq2)).
Proof.
  induction ops as [|o ops IH]; intros pq1 pq2 Hins HR; [done|].
  cbn [map concat] in Hins. apply Forall_app in Hins as [Ho Hins].
  cbn [run_ops].
  destruct (same_queues_run_op o Ho pq1 pq2 HR) as [Hfst Hsnd].
  destruct (run_op o pq1) as [r1 q1], (run_op o pq2) as [r2 q2]. cbn in Hfst, Hsnd.
  subst r2. destruct (IH q1 q2 Hins Hsnd) as [Htr Hq].
  destruct (run_ops ops q1) as [tr1 q1'], (run_ops ops q2) as [tr2 q2'].
  destruct HR as [(Hl & HP) Heq].
  cbn in *. by rewrite Htr, Hl.
Qed.

Lemma same_queues_drain_loop fuel :
  sim (same_queues P c1 c2) (drain_loop fuel) (drain_loop fuel).
Proof.
  induction fuel as [|fuel IH]; [by intros ? ? ?|].
  cbn [drain_loop]. apply sim_bind.
  { intros pq1 pq2 HR. unfold Size, bind, get, ret. cbn.
    destruct HR as [(Hl & HP) Heq]. by rewrite Hl. }
  intros n. destruct (0 <? n); [|by intros ? ? ?].
  apply sim_bind.
  { unfold Poll. apply sim_bind; [|by intros [|x] ? ? ?].
    apply same_queues_on_heap, same_items_heap_Pop. }
  intros x. apply sim_bind; [apply IH|]. by intros rest ? ? ?.
Qed.

End comparator_sign.

(** * Orderings a caller gets *)

Section orderings.
Import util priorityqueue caller.
#[local] Existing Instance priorityqueue.internalHeap_Interface.

Lemma run_ops_length_bound {E : Type} `{GoType E} (ops : list (op E)) :
  forall pq : PriorityQueue E,
  Returns (comparator (heap pq)) ->
  (length (items (heap (snd (run_ops ops pq)))) <=
     length (items (heap pq)) + length ops)%nat.
Proof.
  induction ops as [|o ops IH]; intros [[l c] eq] Hret; cbn [run_ops]; [cbn; lia|].
  cbn [heap comparator] in Hret.
  destruct (run_op_ok o l c eq) as (r & l1 & Hrun & _ & Hlen & _).
  rewrite Hrun. specialize (IH (mk_PriorityQueue (mk_internalHeap l1 c) eq) Hret).
  destruct (run_ops ops _) as [tr pq']. cbn [snd fst items heap length] in *.
  unfold size_after in Hlen. cbn [ev_size] in Hlen.
  destruct (insertion_stored _), (removal_succeeded _), (polled_nonempty _); lia.
Qed.

Lemma same_sign_runs {E : Type} `{GoType E} (P : E -> Prop)
    (c1 c2 : util.Comparator E) (l : list E) (eq : option (util.Equals E))
    (ops : list (op E)) (fuel : nat) :
  same_sign P c1 c2 -> Forall P l -> Forall P (concat (map inserted ops)) ->
  let pq1 := mk_PriorityQueue (mk_internalHeap l c1) eq in
  let pq2 := mk_PriorityQueue (mk_internalHeap l c2) eq in
  fst (run_ops ops pq1) = fst (run_ops ops pq2) /\
  same_queues P c1 c2 (snd (run_ops ops pq1)) (snd (run_ops ops pq2)) /\
  fst (drain_loop fuel (snd (run_ops ops pq1))) =
    fst (drain_loop fuel (snd (run_ops ops pq2))).
Proof.
  intros Hsign Hl Hins pq1 pq2.
  assert (HR : same_queues P c1 c2 pq1 pq2) by done.
  destruct (same_queues_run_ops P c1 c2 Hsign ops pq1 pq2 Hins HR) as [Htr HR'].
  split; [done|]. split; [done|].
  apply (same_queues_drain_loop P c1 c2 Hsign fuel _ _ HR').
Qed.

(** A queue only looks at whether a comparison is negative.  Two comparators
    that agree on that for the values held and inserted give the same
    outcome for every call, the same backing array, and the same elements
    when the queue is polled until empty. *)
Theorem comparator_is_read_by_sign {E : Type} `{GoType E} (P : E -> Prop)
    (c1 c2 : util.Comparator E) (l : list E) (eq : option (util.Equals E))
    (ops : list (op E)) (fuel : nat) :
  same_sign P c1 c2 -> Forall P l -> Forall P (concat (map inserted ops)) ->
  let pq1 := mk_PriorityQueue (mk_internalHeap l c1) eq in
  let pq2 := mk_PriorityQueue (mk_internalHeap l c2) eq in
  fst (run_ops ops pq1) = fst (run_ops ops pq2) /\
  items (heap (snd (run_ops ops pq1))) = items (heap (snd (run_ops ops pq2))) /\
  fst (drain_loop fuel (snd (run_ops ops pq1))) =
    fst (drain_loop fuel (snd (run_ops ops pq2))).
Proof.
  intros Hsign Hl Hins pq1 pq2.
  destruct (same_sign_runs P c1 c2 l eq ops fuel Hsign Hl Hins) as (Htr & HR & Hdrain).
  split; [done|]. split; [apply HR|done].
Qed.

Lemma DefaultComparator_in_window lo :
  same_sign (in_window lo) (DefaultComparator (T := Z)) three_way.
Proof.
  intros a b Ha Hb. unfold DefaultComparator, three_way, negative, in_window in *.
  cbn [type_switch int_GoType]. f_equal. rewrite wrap_exact.
  - destruct (Z.ltb_spec a b), (Z.ltb_spec b a), (Z.ltb_spec (a - b) 0); lia.
  - unfold is_int, MinInt, MaxInt in *. lia.
Qed.

(** With the default ordering, a queue of [int]s that all lie in one window
    of width [MaxInt] (all non-negative, say) is a priority queue for the
    numeric order: whatever calls were made, polling until it is empty
    returns its elements in ascending order. *)
Theorem default_int_ordering_in_window (lo : Z) (opts : list (Option Z))
    (pq0 : PriorityQueue Z) (ops : list (op Z)) (fuel : nat) :
  Forall package_option opts -> Forall no_ordering opts -> New opts = Ok pq0 ->
  Forall (in_window lo) (concat (map inserted ops)) ->
  (length ops < fuel)%nat ->
  exists out,
    fst (drain_loop fuel (snd (run_ops ops pq0))) = Ok out /\
    StronglySorted Z.le out /\
    out ≡ₚ items (heap (snd (run_ops ops pq0))).
Proof.
  intros Hopts Hno Hnew Hins Hfuel.
  destruct (New_ok opts pq0 Hopts Hnew) as [Hnil Hc]. specialize (Hc Hno).
  destruct pq0 as [[l0 c0] eq0]. cbn in Hnil, Hc. subst l0 c0.
  destruct (same_sign_runs (in_window lo) DefaultComparator three_way
              [] eq0 ops fuel (DefaultComparator_in_window lo) (Forall_nil_2 _) Hins)
    as (_ & ((Hitems & _) & _) & Hdrain).
  rewrite Hdrain, Hitems.
  pose proof three_way_StrictWeakOrder as Hswo.
  pose proof (run_ops_length_bound ops
                (mk_PriorityQueue (mk_internalHeap [] three_way) eq0) _) as Hlen.
  destruct (run_ops_ok ops [] three_way eq0 _) as (tr & l' & Hrun & _ & _ & Hheap & _).
  rewrite Hrun in Hlen |- *. cbn [snd items heap length] in Hlen |- *.
  destruct (drain_loop_ok fuel l' three_way eq0) as (out & Hout & Hsorted & Hperm).
  { lia. } { apply three_way_StrictWeakOrder. }
  { apply Hheap; [apply three_way_StrictWeakOrder|apply is_heap_nil]. }
  exists out. rewrite Hout. split; [done|]. split; [|done].
  eapply StronglySorted_weaken; [|exact Hsorted].
  intros a b. unfold result, three_way.
  destruct (Z.ltb_spec a b), (Z.ltb_spec b a); lia.
Qed.

Lemma lex_lt_trans a b c : lex_lt a b -> lex_lt b c -> lex_lt a c.
Proof.
  intros Hab. revert c.
  induction Hab as [ch s|c1 c2 s1 s2 Hlt|ch s1 s2 Hab IH]; intros c Hbc;
    inversion Hbc; subst; try (by constructor).
  - constructor. lia.
  - by apply lex_lt_tail, IH.
Qed.

Lemma strings_Compare_cases a b :
  strings_Compare a b = -1 \/ strings_Compare a b = 0 \/ strings_Compare a b = 1.
Proof.
  unfold strings_Compare. destruct (String.eqb a b); [by right; left|].
  destruct (String.ltb a b); [by left|by right; right].
Qed.

Lemma DefaultComparator_string_StrictWeakOrder :
  StrictWeakOrder (DefaultComparator (T := string)).
Proof.
  unfold DefaultComparator. cbn [type_switch string_GoType].
  split; unfold result; cbn beta iota.
  - intros a b. reflexivity.
  - intros a b.
    destruct (strings_Compare_spec a b) as (Hlt & Heq & Hgt).
    destruct (strings_Compare_spec b a) as (Hlt' & Heq' & Hgt').
    destruct (strings_Compare_cases a b) as [Hab|[Hab|Hab]],
             (strings_Compare_cases b a) as [Hba|[Hba|Hba]];
      rewrite ?Hab, ?Hba; try lia.
    + apply Hlt in Hab. apply Hgt' in Hab. lia.
    + apply Hlt in Hab. apply Hgt' in Hab. lia.
    + apply Hgt' in Hba. apply Hlt in Hba. lia.
    + apply Hgt' in Hba. apply Hlt in Hba. lia.
  - intros a b c Hab Hbc.
    destruct (strings_Compare_spec a b) as (Hlt1 & _).
    destruct (strings_Compare_spec b c) as (Hlt2 & _).
    destruct (strings_Compare_spec a c) as (Hlt3 & _).
    assert (strings_Compare a c = -1); [|lia].
    apply Hlt3. apply (lex_lt_trans a b c).
    + apply Hlt1. destruct (strings_Compare_cases a b) as [?|[?|?]]; lia.
    + apply Hlt2. destruct (strings_Compare_cases b c) as [?|[?|?]]; lia.
  - intros a b c Hab Hbc.
    destruct (strings_Compare_spec a b) as (_ & Heq1 & _).
    destruct (strings_Compare_spec b c) as (_ & Heq2 & _).
    destruct (strings_Compare_spec a c) as (_ & Heq3 & _).
    apply Heq3. apply Heq1 in Hab. apply Heq2 in Hbc. congruence.
Qed.

(** With the default ordering a queue of strings is a priority queue for
    the byte-wise lexicographic order: the backing array is heap-ordered
    after any calls, and polling until the queue is empty returns its
    elements in ascending order. *)
Theorem default_string_ordering (opts : list (Option string))
    (pq0 : PriorityQueue string) (ops : list (op string)) (fuel : nat) :
  Forall package_option opts -> Forall no_ordering opts -> New opts = Ok pq0 ->
  (length ops < fuel)%nat ->
  heap_ordered DefaultComparator (items (heap (snd (run_ops ops pq0)))) /\
  exists out,
    fst (drain_loop fuel (snd (run_ops ops pq0))) = Ok out /\
    StronglySorted (fun a b => a = b \/ lex_lt a b) out /\
    out ≡ₚ items (heap (snd (run_ops ops pq0))).
Proof.
  intros Hopts Hno Hnew Hfuel.
  destruct (New_ok opts pq0 Hopts Hnew) as [Hnil Hc]. specialize (Hc Hno).
  destruct pq0 as [[l0 c0] eq0]. cbn in Hnil, Hc. subst l0 c0.
  pose proof DefaultComparator_string_StrictWeakOrder as Hswo.
  pose proof (run_ops_length_bound ops
                (mk_PriorityQueue (mk_internalHeap [] DefaultComparator) eq0) _) as Hlen.
  destruct (run_ops_ok ops [] DefaultComparator eq0 _)
    as (tr & l' & Hrun & _ & _ & Hheap & _).
  rewrite Hrun in Hlen |- *. cbn [snd items heap length] in Hlen |- *.
  specialize (Hheap Hswo (is_heap_nil _)).
  split; [by apply (heap_ordered_is_heap DefaultComparator)|].
  destruct (drain_loop_ok fuel l' DefaultComparator eq0) as (out & Hout & Hsorted & Hperm);
    [lia|done|done|].
  exists out. rewrite Hout. split; [done|]. split; [|done].
  eapply StronglySorted_weaken; [|exact Hsorted].
  intros a b. unfold result, DefaultComparator. cbn [type_switch string_GoType].
  destruct (strings_Compare_spec a b) as (Hlt & Heq & _).
  destruct (strings_Compare_cases a b) as [Hab|[Hab|Hab]]; [|by left; apply Heq|lia].
  intros _. right. by apply Hlt.
Qed.

(** ** [float64] *)

Lemma compare_rank_Lt x1 y1 z1 x2 y2 z2 :
  compare_rank (x1, y1, z1) (x2, y2, z2) = Lt <->
  x1 < x2 \/ (x1 = x2 /\ (y1 < y2 \/ (y1 = y2 /\ z1 < z2))).
Proof.
  unfold compare_rank.
  destruct (Z.compare_spec x1 x2), (Z.compare_spec y1 y2), (Z.compare_spec z1 z2);
    split; try done; try lia.
Qed.

Lemma compare_rank_Gt x1 y1 z1 x2 y2 z2 :
  compare_rank (x1, y1, z1) (x2, y2, z2) = Gt <->
  x2 < x1 \/ (x1 = x2 /\ (y2 < y1 \/ (y1 = y2 /\ z2 < z1))).
Proof.
  unfold compare_rank.
  destruct (Z.compare_spec x1 x2), (Z.compare_spec y1 y2), (Z.compare_spec z1 z2);
    split; try done; try lia.
Qed.

Lemma compare_rank_Eq x1 y1 z1 x2 y2 z2 :
  compare_rank (x1, y1, z1) (x2, y2, z2) = Eq <-> x1 = x2 /\ y1 = y2 /\ z1 = z2.
Proof.
  unfold compare_rank.
  destruct (Z.compare_spec x1 x2), (Z.compare_spec y1 y2), (Z.compare_spec z1 z2);
    split; try done; try lia.
Qed.

Ltac rank_cases :=
  repeat match goal with
  | H : compare_rank _ _ = Lt |- _ => apply compare_rank_Lt in H
  | H : compare_rank _ _ = Eq |- _ => apply compare_rank_Eq in H
  | H : compare_rank _ _ = Gt |- _ => apply compare_rank_Gt in H
  end.

Lemma float64_total_StrictWeakOrder : StrictWeakOrder float64_total.
Proof.
  unfold float64_total. split; unfold result; cbn beta iota.
  - intros a b. reflexivity.
  - intros a b.
    destruct (float64_rank a) as [[x1 y1] z1], (float64_rank b) as [[x2 y2] z2].
    destruct (compare_rank (x1, y1, z1) (x2, y2, z2)) eqn:H12,
             (compare_rank (x2, y2, z2) (x1, y1, z1)) eqn:H21;
      split; intros; try lia; exfalso; rank_cases; lia.
  - intros a b c.
    destruct (float64_rank a) as [[x1 y1] z1], (float64_rank b) as [[x2 y2] z2],
             (float64_rank c) as [[x3 y3] z3].
    destruct (compare_rank (x1, y1, z1) (x2, y2, z2)) eqn:H12; try lia.
    destruct (compare_rank (x2, y2, z2) (x3, y3, z3)) eqn:H23; try lia.
    intros _ _. replace (compare_rank (x1, y1, z1) (x3, y3, z3)) with Lt; [lia|].
    symmetry. apply compare_rank_Lt. rank_cases. lia.
  - intros a b c.
    destruct (float64_rank a) as [[x1 y1] z1], (float64_rank b) as [[x2 y2] z2],
             (float64_rank c) as [[x3 y3] z3].
    destruct (compare_rank (x1, y1, z1) (x2, y2, z2)) eqn:H12; try lia.
    destruct (compare_rank (x2, y2, z2) (x3, y3, z3)) eqn:H23; try lia.
    intros _ _. replace (compare_rank (x1, y1, z1) (x3, y3, z3)) with Eq; [lia|].
    symmetry. apply compare_rank_Eq. rank_cases. lia.
Qed.

Lemma SFcompare_rank a b :
  not_NaN a -> not_NaN b ->
  SFcompare a b = Some (compare_rank (float64_rank a) (float64_rank b)).
Proof.
  unfold not_NaN.
  destruct a as [sa|sa| |sa ma ea], b as [sb|sb| |sb mb eb]; try done; intros _ _;
    try (by destruct sa); try (by destruct sb); try (by destruct sa, sb).
  destruct sa, sb; cbn [SFcompare float64_rank compare_rank]; try done.
  rewrite Z.compare_opp, (Z.compare_antisym ea eb). cbn.
  by destruct (ea ?= eb).
Qed.

Lemma DefaultComparator_not_NaN (a b : spec_float) :
  not_NaN a -> not_NaN b -> DefaultComparator a b = float64_total a b.
Proof.
  intros Ha Hb. rewrite DefaultComparator_float64.
  unfold float64_sign_of_difference, float64_total.
  by rewrite (SFcompare_rank a b Ha Hb).
Qed.

Lemma StronglySorted_weaken_on {A : Type} (P : A -> Prop) (R1 R2 : A -> A -> Prop)
    (l : list A) :
  (forall a b, P a -> P b -> R1 a b -> R2 a b) ->
  Forall P l -> StronglySorted R1 l -> StronglySorted R2 l.
Proof.
  intros HR HP. induction 1 as [|a l Hl IH Ha]; constructor.
  - apply IH. by apply Forall_cons in HP as [_ ?].
  - apply Forall_cons in HP as [Hpa HP].
    rewrite Forall_forall in Ha, HP |- *. intros b Hb. apply HR; auto.
Qed.

(** With the default ordering, a queue of [float64] values into which no
    NaN is inserted is a priority queue for the numeric order: polling
    until it is empty returns its elements in ascending order ([<=]). *)
Theorem default_float64_ordering_without_NaN (opts : list (Option spec_float))
    (pq0 : PriorityQueue spec_float) (ops : list (op spec_float)) (fuel : nat) :
  Forall package_option opts -> Forall no_ordering opts -> New opts = Ok pq0 ->
  Forall not_NaN (concat (map inserted ops)) ->
  (length ops < fuel)%nat ->
  exists out,
    fst (drain_loop fuel (snd (run_ops ops pq0))) = Ok out /\
    StronglySorted (fun a b => SFleb a b = true) out /\
    out ≡ₚ items (heap (snd (run_ops ops pq0))).
Proof.
  intros Hopts Hno Hnew Hins Hfuel.
  destruct (New_ok opts pq0 Hopts Hnew) as [Hnil Hc]. specialize (Hc Hno).
  destruct pq0 as [[l0 c0] eq0]. cbn in Hnil, Hc. subst l0 c0.
  assert (Hsign : same_sign not_NaN (DefaultComparator (T := spec_float)) float64_total).
  { intros a b Ha Hb. by rewrite DefaultComparator_not_NaN. }
  destruct (same_sign_runs not_NaN DefaultComparator float64_total
              [] eq0 ops fuel Hsign (Forall_nil_2 _) Hins)
    as (_ & ((Hitems & HP & _) & _) & Hdrain).
  rewrite Hdrain, Hitems. rewrite Hitems in HP.
  pose proof float64_total_StrictWeakOrder as Hswo.
  pose proof (run_ops_length_bound ops
                (mk_PriorityQueue (mk_internalHeap [] float64_total) eq0) _) as Hlen.
  destruct (run_ops_ok ops [] float64_total eq0 _) as (tr & l' & Hrun & _ & _ & Hheap & _).
  rewrite Hrun in Hlen, HP |- *. cbn [snd items heap length] in Hlen, HP |- *.
  destruct (drain_loop_ok fuel l' float64_total eq0) as (out & Hout & Hsorted & Hperm).
  { lia. } { apply float64_total_StrictWeakOrder. }
  { apply Hheap; [apply float64_total_StrictWeakOrder|apply is_heap_nil]. }
  exists out. rewrite Hout. split; [done|]. split; [|done].
  eapply (StronglySorted_weaken_on not_NaN); [|by rewrite Hperm|exact Hsorted].
  intros a b Ha Hb. cbv beta. unfold result, float64_total, SFleb.
  rewrite (SFcompare_rank a b Ha Hb).
  by destruct (compare_rank _ _).
Qed.

End orderings.

Section orderings_examples.
Import util priorityqueue caller.

Lemma comparator_is_read_by_sign_witness :
  fst (run_ops [OpAdd 7; OpAdd 2; OpPoll; OpOffer 5; OpRemove 7]
         (mk_PriorityQueue (mk_internalHeap [] DefaultComparator) None)) =
    fst (run_ops [OpAdd 7; OpAdd 2; OpPoll; OpOffer 5; OpRemove 7]
         (mk_PriorityQueue (mk_internalHeap [] three_way) None)) /\
  items (heap (snd (run_ops [OpAdd 7; OpAdd 2; OpPoll; OpOffer 5; OpRemove 7]
         (mk_PriorityQueue (mk_internalHeap [] DefaultComparator) None)))) =
    items (heap (snd (run_ops [OpAdd 7; OpAdd 2; OpPoll; OpOffer 5; OpRemove 7]
         (mk_PriorityQueue (mk_internalHeap [] three_way) None)))) /\
  fst (drain_loop 5 (snd (run_ops [OpAdd 7; OpAdd 2; OpPoll; OpOffer 5; OpRemove 7]
         (mk_PriorityQueue (mk_internalHeap [] DefaultComparator) None)))) =
    fst (drain_loop 5 (snd (run_ops [OpAdd 7; OpAdd 2; OpPoll; OpOffer 5; OpRemove 7]
         (mk_PriorityQueue (mk_internalHeap [] three_way) None)))).
Proof.
  apply (comparator_is_read_by_sign (in_window 0)).
  - apply DefaultComparator_in_window.
  - constructor.
  - cbn. repeat (constructor; [unfold in_window, MaxInt; lia|]). constructor.
Defined.

Lemma default_int_ordering_in_window_witness :
  exists out,
    fst (drain_loop 6 (snd (run_ops [OpAdd 7; OpAdd (-2); OpPoll; OpOffer 5; OpAdd 0]
           (mk_PriorityQueue (mk_internalHeap [] DefaultComparator) None)))) = Ok out /\
    StronglySorted Z.le out /\
    out ≡ₚ items (heap (snd (run_ops [OpAdd 7; OpAdd (-2); OpPoll; OpOffer 5; OpAdd 0]
           (mk_PriorityQueue (mk_internalHeap [] DefaultComparator) None)))).
Proof.
  apply (default_int_ordering_in_window (-10) [WithCapacity 8]).
  - constructor; [left; by eexists|]. constructor.
  - constructor; [left; by eexists|]. constructor.
  - reflexivity.
  - cbn. repeat (constructor; [unfold in_window, MaxInt; lia|]). constructor.
  - cbn. lia.
Defined.

Lemma default_string_ordering_witness :
  heap_ordered DefaultComparator
    (items (heap (snd (run_ops
       [OpAdd "pear"%string; OpAdd "apple"%string; OpPoll; OpAdd "fig"%string]
       (mk_PriorityQueue (mk_internalHeap [] DefaultComparator) None))))) /\
  exists out,
    fst (drain_loop 5 (snd (run_ops
       [OpAdd "pear"%string; OpAdd "apple"%string; OpPoll; OpAdd "fig"%string]
       (mk_PriorityQueue (mk_internalHeap [] DefaultComparator) None)))) = Ok out /\
    StronglySorted (fun a b => a = b \/ lex_lt a b) out /\
    out ≡ₚ items (heap (snd (run_ops
       [OpAdd "pear"%string; OpAdd "apple"%string; OpPoll; OpAdd "fig"%string]
       (mk_PriorityQueue (mk_internalHeap [] DefaultComparator) None)))).
Proof.
  apply (default_string_ordering []).
  - constructor.
  - constructor.
  - reflexivity.
  - cbn. lia.
Defined.

Lemma default_float64_ordering_without_NaN_witness :
  exists out,
    fst (drain_loop 5 (snd (run_ops
       [OpAdd float64_one; OpAdd float64_five; OpPoll; OpAdd float64_zero]
       (mk_PriorityQueue (mk_internalHeap [] DefaultComparator) None)))) = Ok out /\
    StronglySorted (fun a b => SFleb a b = true) out /\
    out ≡ₚ items (heap (snd (run_ops
       [OpAdd float64_one; OpAdd float64_five; OpPoll; OpAdd float64_zero]
       (mk_PriorityQueue (mk_internalHeap [] DefaultComparator) None)))).
Proof.
  apply (default_float64_ordering_without_NaN []).
  - constructor.
  - constructor.
  - reflexivity.
  - cbn. repeat (constructor; [discriminate|]). constructor.
  - cbn. lia.
Defined.

(** NaN compares as equal to every [float64] value, in both directions, so
    the default ordering of [float64] is no strict weak ordering; and a
    queue that holds a NaN can return 1 from [Poll()] while it holds 0. *)
Theorem NaN_breaks_default_float64_ordering :
  (forall x : spec_float,
     DefaultComparator S754_nan x = Ok 0 /\ DefaultComparator x S754_nan = Ok 0) /\
  ~ StrictWeakOrder (DefaultComparator (T := spec_float)) /\
  exists (ops : list (op spec_float)) (pq : PriorityQueue spec_float)
         (x y : spec_float),
    Forall (fun o => is_insertion o = true) ops /\
    snd (run_ops ops (mk_PriorityQueue (mk_internalHeap [] DefaultComparator) None)) = pq /\
    fst (Poll pq) = Ok x /\ y ∈ items (heap pq) /\ float64_lt y x = true.
Proof.
  split; [|split].
  - intros x. rewrite !DefaultComparator_float64. unfold float64_sign_of_difference.
    split; [done|]. f_equal. by destruct x.
  - intros Hswo.
    pose proof (cmp_eq_trans (cmp := DefaultComparator (T := spec_float))
                  float64_one S754_nan float64_zero eq_refl eq_refl) as Habs.
    vm_compute in Habs. discriminate.
  - exists [OpAdd float64_one; OpAdd S754_nan; OpAdd float64_five; OpAdd float64_zero].
    eexists. exists float64_one, float64_zero.
    split; [repeat constructor|]. split; [reflexivity|].
    split; [by vm_compute|]. split; [|by vm_compute].
    apply list_elem_of_lookup. exists 3%nat. by vm_compute.
Qed.

End orderings_examples.

(** * The queue in memory: capacity and allocation *)

Section keeping.
Context {S E : Type} `{h.Interface S E} (I : S -> Prop).

Lemma keeps_ret {A} (a : A) : keeps I (ret a).
Proof. by intros s. Qed.

Lemma keeps_panic {A} msg : keeps I (panic (A := A) msg).
Proof. by intros s. Qed.

Lemma keeps_get : keeps I get.
Proof. by intros s. Qed.

Lemma keeps_call {A} (r : outcome A) : keeps I (call r).
Proof. by intros s. Qed.

Lemma keeps_read_index {A} (l : list A) i : keeps I (read_index l i).
Proof. intros s. unfold read_index. by destruct (index l i). Qed.

Lemma keeps_bind {A B} (m : M S A) (k : A -> M S B) :
  keeps I m -> (forall a, keeps I (k a)) -> keeps I (bind m k).
Proof.
  intros Hm Hk s Hs. unfold bind. specialize (Hm s Hs).
  destruct (m s) as [[a|msg|] s']; cbn in *; [by apply Hk|done|done].
Qed.

Hypothesis keeps_Len : keeps I h.Len.
Hypothesis keeps_Less : forall i j, keeps I (h.Less i j).
Hypothesis keeps_Swap : forall i j, keeps I (h.Swap i j).
Hypothesis keeps_Pop : keeps I h.Pop.

Lemma keeps_up_loop fuel : forall j, keeps I (heap.up_loop fuel j).
Proof.
  induction fuel as [|fuel IH]; intros j; cbn [heap.up_loop]; [by intros s|].
  destruct (_ =? j); [apply keeps_ret|].
  apply keeps_bind; [apply keeps_Less|]. intros lt.
  destruct (negb lt); [apply keeps_ret|].
  apply keeps_bind; [apply keeps_Swap|]. intros _. apply IH.
Qed.

Lemma keeps_down_loop fuel : forall i0 i n, keeps I (heap.down_loop fuel i0 i n).
Proof.
  induction fuel as [|fuel IH]; intros i0 i n; cbn [heap.down_loop]; [by intros s|].
  destruct (_ || _); [apply keeps_ret|].
  apply keeps_bind.
  { destruct (_ <? n); [|apply keeps_ret].
    apply keeps_bind; [apply keeps_Less|]. intros lt. apply keeps_ret. }
  intros j. apply keeps_bind; [apply keeps_Less|]. intros lt.
  destruct (negb lt); [apply keeps_ret|].
  apply keeps_bind; [apply keeps_Swap|]. intros _. apply IH.
Qed.

Lemma keeps_heap_Pop : keeps I heap.Pop.
Proof.
  unfold heap.Pop. apply keeps_bind; [apply keeps_Len|]. intros len.
  apply keeps_bind; [apply keeps_Swap|]. intros _.
  apply keeps_bind; [apply keeps_down_loop|]. intros _. apply keeps_Pop.
Qed.

Lemma keeps_heap_Remove i : keeps I (heap.Remove i).
Proof.
  unfold heap.Remove. apply keeps_bind; [apply keeps_Len|]. intros len.
  apply keeps_bind; [|intros _; apply keeps_Pop].
  destruct (negb _); [|apply keeps_ret].
  apply keeps_bind; [apply keeps_Swap|]. intros _.
  apply keeps_bind; [apply keeps_down_loop|]. intros moved.
  destruct (negb moved); [apply keeps_up_loop|apply keeps_ret].
Qed.

End keeping.

Section in_place.
Import util memory caller.
#[local] Existing Instance memory.world_Interface.
Context {E : Type} `{GoType E}.
Implicit Types (w : world E) (s : slice) (a c k n : nat).

Lemma within_Len a c k n : keeps (within a c k n) (h.Len (H := world E)).
Proof. by intros w. Qed.

Lemma within_Less a c k n i j : keeps (within a c k n) (h.Less (H := world E) i j).
Proof.
  cbn [h.Less world_Interface]. unfold Less.
  apply keeps_bind; [apply keeps_get|]. intros w.
  apply keeps_bind; [apply keeps_read_index|]. intros x.
  apply keeps_bind; [apply keeps_read_index|]. intros y.
  apply keeps_bind; [apply keeps_call|]. intros r. apply keeps_ret.
Qed.

Lemma within_assign a c k n s i v :
  keeps (within a c k n) (on_mem (assign (E := E) s i v)).
Proof.
  intros w (Ha & Hc & Hk & Hn). unfold on_mem, assign.
  destruct (_ && _); cbn; [|done].
  unfold within. cbn. by rewrite length_alter.
Qed.

Lemma within_Swap a c k n i j : keeps (within a c k n) (h.Swap (H := world E) i j).
Proof.
  cbn [h.Swap world_Interface]. unfold Swap.
  apply keeps_bind; [apply keeps_get|]. intros w.
  apply keeps_bind; [apply keeps_read_index|]. intros x.
  apply keeps_bind; [apply keeps_read_index|]. intros y.
  apply keeps_bind; [apply within_assign|]. intros _. apply within_assign.
Qed.

Lemma within_Pop a c k n : keeps (within a c k n) (h.Pop (H := world E)).
Proof.
  intros w (Ha & Hc & Hk & Hn).
  cbn [h.Pop world_Interface]. unfold Pop, bind, get, read_index.
  destruct (index _ _); [|done]. cbn. unfold within. cbn.
  split; [done|]. split; [done|]. split; [done|]. lia.
Qed.

Lemma within_Push a c k n item w :
  within a c k n w -> (n + length (appended item) <= c)%nat ->
  within a c k (n + length (appended item)) (snd (h.Push (to_any item) w)).
Proof.
  intros (Ha & Hc & Hk & Hn) Hnc. unfold to_any, appended in *.
  destruct (is_nil item); cbn [length] in *.
  { rewrite Nat.add_0_r. by repeat split. }
  cbn [h.Push world_Interface]. unfold Push, bind, get, on_mem, append, set_items.
  cbn [length]. rewrite !Nat.add_1_r in *.
  replace (Datatypes.S (len (q_items w)) <=? cap (q_items w))%nat with true
    by (symmetry; apply Nat.leb_le; lia).
  unfold within. cbn. rewrite length_alter. repeat split; try done. lia.
Qed.

Lemma within_heap_Push a c k n item w :
  within a c k n w -> (n + length (appended item) <= c)%nat ->
  within a c k (n + length (appended item)) (snd (heap.Push (to_any item) w)).
Proof.
  intros Hw Hnc. unfold heap.Push, bind at 1.
  pose proof (within_Push a c k n item w Hw Hnc) as Hpush.
  destruct (h.Push (to_any item) w) as [[[]|msg|] w1]; cbn [snd] in Hpush |- *; [|done..].
  revert w1 Hpush.
  apply (keeps_bind (within a c k (n + length (appended item)))); [apply within_Len|].
  intros len. apply keeps_up_loop; auto using within_Less, within_Swap.
Qed.

Lemma within_le a c k n n' w : within a c k n w -> (n <= n')%nat -> within a c k n' w.
Proof. intros (Ha & Hc & Hk & Hn) Hle. repeat split; try done. lia. Qed.

Lemma within_run_op a c k n (o : op E) w :
  within a c k n w -> (n + length (inserted o) <= c)%nat ->
  within a c k (n + length (inserted o)) (snd (allocation.run_op o w)).
Proof.
  intros Hw Hfit.
  assert (Hoffer : forall item, (n + length (appended item) <= c)%nat ->
            within a c k (n + length (appended item)) (snd (allocation.Offer item w))).
  { intros item Hnc. pose proof (within_heap_Push a c k n item w Hw Hnc) as Hpush.
    unfold allocation.Offer. by destruct (heap.Push (to_any item) w) as [[[]|msg|] w1]. }
  destruct o as [item|item| |item]; cbn [allocation.run_op inserted] in *.
  - specialize (Hoffer item Hfit).
    unfold bind at 1, allocation.Add, bind at 1.
    destruct (allocation.Offer item w) as [[[]|msg|] w1]; by cbn in *.
  - specialize (Hoffer item Hfit).
    unfold bind at 1.
    destruct (allocation.Offer item w) as [[[]|msg|] w1]; by cbn in *.
  - cbn [length]. rewrite Nat.add_0_r. clear Hfit Hoffer. revert w Hw.
    apply (keeps_bind (within a c k n)); [|intros x; apply keeps_ret].
    unfold Poll. apply keeps_bind; [|intros [|x]; apply keeps_ret].
    apply keeps_heap_Pop; auto using within_Len, within_Less, within_Swap, within_Pop.
  - cbn [length]. rewrite Nat.add_0_r. clear Hfit Hoffer. revert w Hw.
    apply (keeps_bind (within a c k n)); [|intros x; apply keeps_ret].
    unfold allocation.Remove. apply keeps_bind; [apply keeps_get|]. intros w.
    assert (Hscan : forall p : E -> outcome bool, keeps (within a c k n)
              (let* found := call (priorityqueue.range_find p (view w) 0) in
               match found with
               | Some i => bind (heap.Remove i) (fun _ => ret true)
               | None => ret false
               end)).
    { intros p. apply keeps_bind; [apply keeps_call|]. intros [i|]; [|apply keeps_ret].
      apply keeps_bind; [|intros _; apply keeps_ret].
      apply keeps_heap_Remove; auto using within_Len, within_Less, within_Swap, within_Pop. }
    apply keeps_bind.
    { unfold priorityqueue.reflect_Comparable.
      destruct (is_nil item); [apply keeps_panic|apply keeps_ret]. }
    intros [|]; [apply Hscan|].
    destruct (q_equals w) as [f|]; [apply Hscan|apply keeps_panic].
Qed.

Lemma within_run_ops a c k (ops : list (op E)) : forall n w,
  within a c k n w -> (n + length (concat (map inserted ops)) <= c)%nat ->
  within a c k (n + length (concat (map inserted ops))) (snd (allocation.run_ops ops w)).
Proof.
  induction ops as [|o ops IH]; intros n w Hw Hfit; cbn [map concat] in *.
  { cbn. by rewrite Nat.add_0_r. }
  rewrite length_app in *. cbn [allocation.run_ops].
  pose proof (within_run_op a c k n o w Hw ltac:(lia)) as Ho.
  destruct (allocation.run_op o w) as [r w1]. cbn [snd] in Ho.
  specialize (IH _ w1 Ho ltac:(lia)).
  destruct (allocation.run_ops ops w1) as [tr w2]. cbn [snd] in *.
  by rewrite Nat.add_assoc.
Qed.

(** While the insertions fit the capacity of the queue's slice, no call
    allocates: after any calls the memory holds the arrays it held, and the
    queue is on the same array with the same capacity. *)
Theorem insertions_within_capacity_do_not_allocate (ops : list (op E)) w :
  (len (q_items w) + length (concat (map inserted ops)) <= cap (q_items w))%nat ->
  length (mem (snd (allocation.run_ops ops w))) = length (mem w) /\
  arr (q_items (snd (allocation.run_ops ops w))) = arr (q_items w) /\
  cap (q_items (snd (allocation.run_ops ops w))) = cap (q_items w) /\
  (len (q_items (snd (allocation.run_ops ops w))) <=
     len (q_items w) + length (concat (map inserted ops)))%nat.
Proof.
  intros Hfit.
  destruct (within_run_ops (arr (q_items w)) (cap (q_items w)) (length (mem w)) ops
              (len (q_items w)) w) as (Ha & Hc & Hk & Hn); [done|done|].
  done.
Qed.

End in_place.

(** * The queue in memory and the queue as a value *)

Section memory_agrees.
Import util memory caller.
#[local] Existing Instance priorityqueue.internalHeap_Interface.
#[local] Existing Instance memory.world_Interface.
Context {E : Type} `{GoType E}.
Implicit Types (w : world E) (pq : priorityqueue.PriorityQueue E).

Lemma equals_Len e : keeps (fun w => q_equals w = e) (h.Len (H := world E)).
Proof. by intros w. Qed.

Lemma equals_Less e i j : keeps (fun w => q_equals w = e) (h.Less (H := world E) i j).
Proof.
  cbn [h.Less world_Interface]. unfold Less.
  apply keeps_bind; [apply keeps_get|]. intros w.
  apply keeps_bind; [apply keeps_read_index|]. intros x.
  apply keeps_bind; [apply keeps_read_index|]. intros y.
  apply keeps_bind; [apply keeps_call|]. intros r. apply keeps_ret.
Qed.

Lemma equals_assign e s i v :
  keeps (fun w => q_equals w = e) (on_mem (assign (E := E) s i v)).
Proof. intros w He. unfold on_mem, assign. by destruct (_ && _). Qed.

Lemma equals_Swap e i j : keeps (fun w => q_equals w = e) (h.Swap (H := world E) i j).
Proof.
  cbn [h.Swap world_Interface]. unfold Swap.
  apply keeps_bind; [apply keeps_get|]. intros w.
  apply keeps_bind; [apply keeps_read_index|]. intros x.
  apply keeps_bind; [apply keeps_read_index|]. intros y.
  apply keeps_bind; [apply equals_assign|]. intros _. apply equals_assign.
Qed.

Lemma equals_Pop e : keeps (fun w => q_equals w = e) (h.Pop (H := world E)).
Proof.
  intros w He. cbn [h.Pop world_Interface]. unfold Pop, bind, get, read_index.
  by destruct (index _ _).
Qed.

Lemma equals_Push e x : keeps (fun w => q_equals w = e) (h.Push (H := world E) x).
Proof.
  intros w He. destruct x as [|item]; [done|].
  cbn [h.Push world_Interface]. unfold Push, bind, get, on_mem, append, set_items.
  by destruct (_ <=? _)%nat.
Qed.

Lemma equals_heap_Push e x : keeps (fun w => q_equals w = e) (heap.Push (H := world E) x).
Proof.
  unfold heap.Push. apply keeps_bind; [apply equals_Push|]. intros _.
  apply keeps_bind; [apply equals_Len|]. intros n.
  apply keeps_up_loop; auto using equals_Less, equals_Swap.
Qed.

Lemma equals_heap_Pop e : keeps (fun w => q_equals w = e) (heap.Pop (H := world E)).
Proof.
  apply keeps_heap_Pop; auto using equals_Len, equals_Less, equals_Swap, equals_Pop.
Qed.

Lemma equals_heap_Remove e i :
  keeps (fun w => q_equals w = e) (heap.Remove (H := world E) i).
Proof.
  apply keeps_heap_Remove; auto using equals_Len, equals_Less, equals_Swap, equals_Pop.
Qed.

Lemma holds_on_heap {A} (m1 : M (priorityqueue.internalHeap E) A) (m2 : M (world E) A) :
  sim represents m1 m2 -> (forall e, keeps (fun w => q_equals w = e) m2) ->
  sim holds (priorityqueue.on_heap m1) m2.
Proof.
  intros Hm He pq w [HR Heq]. unfold priorityqueue.on_heap.
  destruct (Hm _ _ HR) as [Hfst Hsnd]. specialize (He _ w eq_refl).
  destruct (m1 (priorityqueue.heap pq)) as [r1 ph1], (m2 w) as [r2 w2].
  cbn in *. split; [done|]. split; [done|]. cbn. congruence.
Qed.

Lemma holds_Offer item : sim holds (priorityqueue.Offer item) (allocation.Offer item).
Proof.
  intros pq w HR. unfold priorityqueue.Offer, allocation.Offer.
  destruct (holds_on_heap _ _ (proj1 memory_refines_value (to_any item))
              (fun e => equals_heap_Push e (to_any item)) pq w HR) as [Hfst Hsnd].
  destruct (priorityqueue.on_heap (heap.Push (to_any item)) pq) as [r1 q1],
           (heap.Push (to_any item) w) as [r2 w2].
  cbn in Hfst, Hsnd. subst r2. by destruct r1.
Qed.

Lemma holds_Remove_scan (p : E -> outcome bool) pq w :
  holds pq w ->
  let m1 := let* found := call (priorityqueue.range_find p (view w) 0) in
            match found with
            | Some i => bind (priorityqueue.on_heap (heap.Remove i)) (fun _ => ret true)
            | None => ret false
            end in
  let m2 := let* found := call (priorityqueue.range_find p (view w) 0) in
            match found with
            | Some i => bind (heap.Remove (H := world E) i) (fun _ => ret true)
            | None => ret false
            end in
  fst (m1 pq) = fst (m2 w) /\ holds (snd (m1 pq)) (snd (m2 w)).
Proof.
  intros HR m1 m2. subst m1 m2.
  apply (sim_bind holds); [by intros ? ? ?| |done].
  intros [i|]; [|by intros ? ? ?].
  apply (sim_bind holds); [|by intros _ ? ? ?].
  apply holds_on_heap; [apply memory_refines_value|].
  intros e. apply equals_heap_Remove.
Qed.

Lemma holds_run_op (o : op E) : sim holds (caller.run_op o) (allocation.run_op o).
Proof.
  destruct o as [item|item| |item]; cbn [caller.run_op allocation.run_op].
  - apply sim_bind; [|by intros b ? ? ?].
    unfold priorityqueue.Add, allocation.Add.
    apply sim_bind; [apply holds_Offer|]. by intros [] ? ? ?.
  - apply sim_bind; [apply holds_Offer|]. by intros b ? ? ?.
  - apply sim_bind; [|by intros b ? ? ?].
    unfold priorityqueue.Poll, Poll. apply sim_bind; [|by intros [|x] ? ? ?].
    apply holds_on_heap; [apply memory_refines_value|].
    intros e. apply equals_heap_Pop.
  - apply sim_bind; [|by intros b ? ? ?].
    intros pq w HR.
    assert (Hscan1 : priorityqueue.Remove item pq =
      if is_nil item then (Panic priorityqueue.nil_dereference_msg, pq)
      else if Comparable item then
        (let* found :=
           call (priorityqueue.range_find (fun v => go_eq v item) (view w) 0) in
         match found with
         | Some i => bind (priorityqueue.on_heap (heap.Remove i)) (fun _ => ret true)
         | None => ret false
         end) pq
      else
        match q_equals w with
        | None => (Panic priorityqueue.not_comparable_msg, pq)
        | Some eq =>
            (let* found :=
               call (priorityqueue.range_find (fun v => Ok (eq v item)) (view w) 0) in
             match found with
             | Some i => bind (priorityqueue.on_heap (heap.Remove i)) (fun _ => ret true)
             | None => ret false
             end) pq
        end).
    { destruct HR as [(_ & Hitems & _) Heq].
      unfold priorityqueue.Remove, priorityqueue.reflect_Comparable, bind at 1, get.
      rewrite Hitems, Heq.
      destruct (is_nil item); [done|]. unfold bind at 1, ret.
      destruct (Comparable item); [done|]. by destruct (q_equals w). }
    assert (Hscan2 : allocation.Remove item w =
      if is_nil item then (Panic priorityqueue.nil_dereference_msg, w)
      else if Comparable item then
        (let* found :=
           call (priorityqueue.range_find (fun v => go_eq v item) (view w) 0) in
         match found with
         | Some i => bind (heap.Remove (H := world E) i) (fun _ => ret true)
         | None => ret false
         end) w
      else
        match q_equals w with
        | None => (Panic priorityqueue.not_comparable_msg, w)
        | Some eq =>
            (let* found :=
               call (priorityqueue.range_find (fun v => Ok (eq v item)) (view w) 0) in
             match found with
             | Some i => bind (heap.Remove (H := world E) i) (fun _ => ret true)
             | None => ret false
             end) w
        end).
    { unfold allocation.Remove, priorityqueue.reflect_Comparable, bind at 1, get.
      destruct (is_nil item); [done|]. unfold bind at 1, ret.
      destruct (Comparable item); [done|]. by destruct (q_equals w). }
    rewrite Hscan1, Hscan2. destruct (is_nil item); [done|].
    destruct (Comparable item).
    + exact (holds_Remove_scan (fun v => go_eq v item) pq w HR).
    + destruct (q_equals w) as [f|]; [|done].
      exact (holds_Remove_scan (fun v => Ok (f v item)) pq w HR).
Qed.

Lemma holds_run_ops (ops : list (op E)) : forall pq w,
  holds pq w ->
  map ev_outcome (fst (caller.run_ops ops pq)) = fst (allocation.run_ops ops w) /\
  holds (snd (caller.run_ops ops pq)) (snd (allocation.run_ops ops w)).
Proof.
  induction ops as [|o ops IH]; intros pq w HR; [done|].
  cbn [caller.run_ops allocation.run_ops].
  destruct (holds_run_op o pq w HR) as [Hfst Hsnd].
  destruct (caller.run_op o pq) as [r1 q1], (allocation.run_op o w) as [r2 w2].
  cbn in Hfst, Hsnd. subst r2. destruct (IH q1 w2 Hsnd) as [Htr Hq].
  destruct (caller.run_ops ops q1) as [tr1 q1'], (allocation.run_ops ops w2) as [tr2 w2'].
  cbn in *. by rewrite Htr.
Qed.

(** Capacity and allocation never show in a result.  On a queue laid out
    in memory, with spare capacity or without, every call has the outcome
    it has on the queue seen as a value (the elements in view, the
    comparator, the equality function), and the queue in memory afterwards
    is the value afterwards. *)
Theorem memory_agrees_with_value (ops : list (op E)) w :
  well_formed w ->
  fst (allocation.run_ops ops w) = map ev_outcome (fst (caller.run_ops ops (queue_of w))) /\
  well_formed (snd (allocation.run_ops ops w)) /\
  queue_of (snd (allocation.run_ops ops w)) = snd (caller.run_ops ops (queue_of w)).
Proof.
  intros Hwf.
  destruct (holds_run_ops ops (queue_of w) w) as [Htr ((Hwf' & Hitems & Hc) & Heq)].
  { by split. }
  split; [done|]. split; [done|].
  destruct (snd (caller.run_ops ops (queue_of w))) as [[l c] eq].
  unfold queue_of. cbn in *. by subst.
Qed.

End memory_agrees.

(** * What happens to the backing arrays *)

Section arrays.
Import util memory caller.
#[local] Existing Instance priorityqueue.internalHeap_Interface.
#[local] Existing Instance memory.world_Interface.
Context {E : Type} `{GoType E}.
Implicit Types (w : world E) (s : slice) (k : nat).

Lemma bind_Ok {S A B} (m : M S A) (f : A -> M S B) (st st' : S) (b : B) :
  bind m f st = (Ok b, st') ->
  exists a st1, m st = (Ok a, st1) /\ f a st1 = (Ok b, st').
Proof.
  unfold bind. destruct (m st) as [[a|msg|] st1]; [|done..]. eauto.
Qed.

Lemma keeps_run {S A} (I : S -> Prop) (m : M S A) (st st' : S) (r : outcome A) :
  keeps I m -> I st -> m st = (r, st') -> I st'.
Proof. intros Hm Hst Hrun. specialize (Hm st Hst). by rewrite Hrun in Hm. Qed.

Lemma same_slice_Less s k i j : keeps (same_slice s k) (h.Less (H := world E) i j).
Proof.
  cbn [h.Less world_Interface]. unfold Less.
  apply keeps_bind; [apply keeps_get|]. intros w.
  apply keeps_bind; [apply keeps_read_index|]. intros x.
  apply keeps_bind; [apply keeps_read_index|]. intros y.
  apply keeps_bind; [apply keeps_call|]. intros r. apply keeps_ret.
Qed.

Lemma same_slice_assign s k s' i v :
  keeps (same_slice s k) (on_mem (assign (E := E) s' i v)).
Proof.
  intros w [Hs Hk]. unfold on_mem, assign.
  destruct (_ && _); cbn; [|done]. unfold same_slice. cbn. by rewrite length_alter.
Qed.

Lemma same_slice_Swap s k i j : keeps (same_slice s k) (h.Swap (H := world E) i j).
Proof.
  cbn [h.Swap world_Interface]. unfold Swap.
  apply keeps_bind; [apply keeps_get|]. intros w.
  apply keeps_bind; [apply keeps_read_index|]. intros x.
  apply keeps_bind; [apply keeps_read_index|]. intros y.
  apply keeps_bind; [apply same_slice_assign|]. intros _. apply same_slice_assign.
Qed.

(** [Poll] does not clear the cell it gives up.  On a queue that is not
    empty, whose ordering function returns, it returns an element, the
    queue stays on its array with one element less in view, nothing is
    allocated, and the cell just past the view still holds the element
    returned. *)
Theorem Poll_leaves_the_element_in_the_array w :
  well_formed w -> view w <> [] -> Returns (q_comparator w) ->
  exists x w',
    Poll w = (Ok x, w') /\
    q_items w' =
      mk_slice (arr (q_items w)) (len (q_items w) - 1) (cap (q_items w)) /\
    array (mem w') (q_items w') !! (len (q_items w) - 1)%nat = Some x /\
    length (mem w') = length (mem w).
Proof.
  intros Hwf Hne Hret0.
  destruct (Poll_ok (view w) (q_comparator w) (q_equals w) Hne)
    as (x & l' & Hvalue & _).
  destruct (represents_Poll (queue_of w) w) as [Hfst _]; [done|].
  unfold queue_of in Hfst. rewrite Hvalue in Hfst. cbn [fst] in Hfst.
  destruct (Poll w) as [r w'] eqn:Hrun. cbn [fst] in Hfst. subst r.
  exists x, w'. split; [done|].
  unfold Poll in Hrun. apply bind_Ok in Hrun as (a & w1 & Hpop & Hret).
  unfold heap.Pop in Hpop.
  apply bind_Ok in Hpop as (n & w0 & Hlen & Hpop).
  apply bind_Ok in Hpop as ([] & w2 & Hswap & Hpop).
  apply bind_Ok in Hpop as (moved & w3 & Hdown & Hpop).
  cbn in Hlen. injection Hlen as <- <-.
  set (s := q_items w) in *. set (k := length (mem w)) in *.
  assert (Hw : same_slice s k w) by done.
  assert (Hw2 : same_slice s k w2).
  { eapply keeps_run; [apply same_slice_Swap|exact Hw|exact Hswap]. }
  assert (Hw3 : same_slice s k w3).
  { eapply keeps_run; [|exact Hw2|exact Hdown].
    apply keeps_down_loop; auto using same_slice_Less, same_slice_Swap. }
  destruct Hw3 as [Hs3 Hk3].
  cbn [h.Pop world_Interface] in Hpop. unfold Pop, bind, get, read_index in Hpop.
  rewrite Hs3 in Hpop.
  destruct (index (view w3) (Z.of_nat (len s) - 1)) as [item|] eqn:Hitem; [|done].
  cbn in Hpop. injection Hpop as <- <-.
  pose proof (from_to_any item) as Hitem'.
  assert (x = item /\ w' = mk_world (mem w3)
            (mk_slice (arr s) (Z.to_nat (Z.of_nat (len s) - 1)) (cap s))
            (q_comparator w3) (q_equals w3)) as [-> ->].
  { destruct (to_any item) as [|y]; cbn in Hret, Hitem'; injection Hret as <- <-;
      by subst. }
  assert (Hpos : (0 < len s)%nat).
  { apply index_Some in Hitem. lia. }
  replace (Z.to_nat (Z.of_nat (len s) - 1)) with (len s - 1)%nat by lia.
  cbn. split; [done|]. split; [|done].
  unfold index in Hitem. destruct (_ <? 0); [done|].
  replace (Z.to_nat (Z.of_nat (len s) - 1)) with (len s - 1)%nat in Hitem by lia.
  unfold view, elements in Hitem. rewrite Hs3 in Hitem.
  apply lookup_take_Some in Hitem as [Hitem _]. exact Hitem.
Qed.

Lemma on_new_array_Less s m0 i j :
  keeps (on_new_array s m0) (h.Less (H := world E) i j).
Proof.
  cbn [h.Less world_Interface]. unfold Less.
  apply keeps_bind; [apply keeps_get|]. intros w.
  apply keeps_bind; [apply keeps_read_index|]. intros x.
  apply keeps_bind; [apply keeps_read_index|]. intros y.
  apply keeps_bind; [apply keeps_call|]. intros r. apply keeps_ret.
Qed.

Lemma on_new_array_assign s m0 i v :
  arr s = length m0 -> keeps (on_new_array s m0) (on_mem (assign (E := E) s i v)).
Proof.
  intros Harr w (Hs & Hk & Hm). unfold on_mem, assign.
  destruct (_ && _); cbn; [|done]. unfold on_new_array. cbn.
  rewrite length_alter, take_alter_ge by lia. done.
Qed.

Lemma on_new_array_Swap s m0 i j :
  arr s = length m0 -> keeps (on_new_array s m0) (h.Swap (H := world E) i j).
Proof.
  intros Harr w Hw. cbn [h.Swap world_Interface]. unfold Swap, bind at 1, get.
  rewrite (proj1 Hw).
  refine (keeps_bind (on_new_array s m0) _ _ _ _ w Hw); [apply keeps_read_index|].
  intros x. apply keeps_bind; [apply keeps_read_index|]. intros y.
  apply keeps_bind; [by apply on_new_array_assign|]. intros _.
  by apply on_new_array_assign.
Qed.

Lemma Offer_on_full (item : E) w :
  well_formed w -> len (q_items w) = cap (q_items w) ->
  is_nil item = false -> Returns (q_comparator w) ->
  exists w',
    allocation.Offer item w = (Ok true, w') /\
    well_formed w' /\
    length (mem w') = Datatypes.S (length (mem w)) /\
    take (length (mem w)) (mem w') = mem w /\
    arr (q_items w') = length (mem w) /\
    len (q_items w') = Datatypes.S (len (q_items w)).
Proof.
  intros Hwf Hfull Hnil Hret.
  destruct (holds_Offer item (queue_of w) w) as [Hfst [(Hwf' & _) _]]; [done|].
  destruct (Offer_ok item (view w) (q_comparator w) (q_equals w)) as (l' & Hvalue & _).
  unfold queue_of in Hfst. rewrite Hvalue in Hfst. cbn [fst] in Hfst.
  destruct (allocation.Offer item w) as [r w'] eqn:Hrun. cbn [fst snd] in Hfst, Hwf'.
  subst r. exists w'. split; [done|]. split; [done|].
  unfold allocation.Offer, to_any in Hrun. rewrite Hnil in Hrun.
  assert (Hon : on_new_array
            (mk_slice (length (mem w)) (Datatypes.S (len (q_items w)))
               (growslice (cap (q_items w)) (Datatypes.S (len (q_items w)))))
            (mem w) (snd (heap.Push (box item) w))).
  { unfold heap.Push, bind at 1.
    cbn [h.Push world_Interface]. unfold Push, bind at 1, get.
    unfold bind at 1, on_mem, append. cbn [length]. rewrite Nat.add_1_r.
    replace (Datatypes.S (len (q_items w)) <=? cap (q_items w))%nat with false
      by (symmetry; apply Nat.leb_gt; lia).
    cbn [set_items snd fst].
    match goal with
    | |- on_new_array ?s ?m0 (snd (bind _ _ ?w1)) =>
        refine (keeps_bind (on_new_array s m0) _ _ _ _ w1 _)
    end.
    - by intros w1.
    - intros n. apply keeps_up_loop;
        auto using on_new_array_Less, on_new_array_Swap.
    - unfold on_new_array. cbn. rewrite length_app. cbn.
      split; [done|]. split; [lia|]. by rewrite take_app_length. }
  destruct (heap.Push (box item) w) as [[[]|msg|] w1]; [|done..].
  injection Hrun as <-. destruct Hon as (Hs & Hk & Hm). cbn [snd] in *.
  rewrite Hs. done.
Qed.

(** An insertion, of an item other than a nil interface value, into a
    queue whose slice is full and whose ordering function returns allocates
    one array and moves the queue onto it; the arrays that were there are
    left as they were.  The insertion succeeds, and the queue has one
    element more. *)
Theorem insertion_into_a_full_queue_allocates (item : E) w :
  well_formed w -> len (q_items w) = cap (q_items w) ->
  is_nil item = false -> Returns (q_comparator w) ->
  exists w',
    allocation.Offer item w = (Ok true, w') /\
    well_formed w' /\
    length (mem w') = Datatypes.S (length (mem w)) /\
    take (length (mem w)) (mem w') = mem w /\
    arr (q_items w') = length (mem w) /\
    len (q_items w') = Datatypes.S (len (q_items w)).
Proof. apply Offer_on_full. Qed.

(** [Clear] gives up the capacity.  It leaves every array as it was and
    puts the queue on an empty slice of capacity 0, whatever capacity the
    queue had, so that the next insertion, of an item other than a nil
    interface value, allocates an array. *)
Theorem Clear_gives_up_the_capacity w :
  fst (allocation.Clear w) = Ok tt /\
  mem (snd (allocation.Clear w)) = mem w /\
  len (q_items (snd (allocation.Clear w))) = 0%nat /\
  cap (q_items (snd (allocation.Clear w))) = 0%nat /\
  q_comparator (snd (allocation.Clear w)) = q_comparator w /\
  q_equals (snd (allocation.Clear w)) = q_equals w /\
  forall item, is_nil item = false -> exists w',
    allocation.Offer item (snd (allocation.Clear w)) = (Ok true, w') /\
    length (mem w') = Datatypes.S (length (mem w)) /\
    arr (q_items w') = length (mem w) /\
    view w' = [item].
Proof.
  assert (Hrun : allocation.Clear w =
            (Ok tt, mk_world (mem w) nil_slice (q_comparator w) (q_equals w))) by done.
  rewrite Hrun. cbn [fst snd mem q_items q_comparator q_equals nil_slice len cap].
  repeat (split; [done|]). intros item Hnil.
  unfold allocation.Offer, to_any. rewrite Hnil.
  eexists. split; [reflexivity|]. cbn.
  rewrite length_app. cbn. split; [lia|]. split; [done|].
  unfold view, elements, array. cbn.
  by rewrite list_lookup_middle.
Qed.

Lemma apply_options_allocates (names : list (option_name E)) : forall w,
  forallb capacity_ok names = true ->
  len (q_items w) = 0%nat -> well_formed w ->
  Datatypes.S (arr (q_items w)) = length (mem w) ->
  exists w',
    allocation.apply_options (map memory_option_of names) w = (Ok tt, w') /\
    len (q_items w') = 0%nat /\ well_formed w' /\
    Datatypes.S (arr (q_items w')) = length (mem w') /\
    Z.of_nat (cap (q_items w')) =
      configured_capacity names (Z.of_nat (cap (q_items w))) /\
    length (mem w') = (length (mem w) + capacities names)%nat /\
    take (length (mem w)) (mem w') = mem w /\
    configured names (q_comparator w) (q_equals w) =
      Some (q_comparator w', q_equals w').
Proof.
  induction names as [|[n|c'|f] names IH]; intros w Hok Hlen Hwf Harr;
    cbn [forallb capacity_ok] in Hok.
  - exists w. unfold capacities. cbn. rewrite Nat.add_0_r, firstn_all. done.
  - apply andb_true_iff in Hok as [Hn Hok].
    cbn [map memory_option_of allocation.apply_options].
    unfold bind at 1, allocation.WithCapacity, bind at 1, on_mem, allocation.make.
    rewrite Hn. cbn [set_items].
    assert (0 <= n) as Hn0.
    { unfold makeslice_ok in Hn. apply andb_true_iff in Hn as [Hn0 _]. lia. }
    set (w1 := mk_world _ _ _ _).
    destruct (IH w1 Hok) as (w' & Hrun & Hlen' & Hwf' & Harr' & Hcap & Hmem & Htake & Hconf).
    { done. }
    { unfold well_formed, w1, array. cbn.
      rewrite list_lookup_middle by done. cbn. rewrite length_replicate. lia. }
    { unfold w1. cbn. rewrite length_app. cbn. lia. }
    exists w'. split; [done|]. split; [done|]. split; [done|]. split; [done|].
    unfold w1 in Hcap, Hmem, Htake, Hconf. cbn in Hcap, Hmem, Htake, Hconf.
    rewrite length_app in Hmem, Htake. cbn [length] in Hmem, Htake.
    split; [|split; [|split]].
    + cbn [configured_capacity]. rewrite Hcap. f_equal. lia.
    + unfold capacities in *. rewrite filter_cons. cbn [is_capacity].
      rewrite decide_True by done. cbn [length]. lia.
    + apply (f_equal (take (length (mem w)))) in Htake.
      rewrite take_take, Nat.min_l in Htake by lia.
      rewrite take_app_length in Htake. done.
    + cbn [configured]. by rewrite Hn.
  - cbn [map memory_option_of allocation.apply_options].
    unfold bind at 1, allocation.WithComparator.
    destruct (IH (mk_world (mem w) (q_items w) c' (q_equals w)) Hok Hlen Hwf Harr)
      as (w' & Hrun & Hrest).
    exists w'. split; [done|]. unfold capacities in *. rewrite filter_cons.
    cbn [is_capacity]. rewrite decide_False by done. exact Hrest.
  - cbn [map memory_option_of allocation.apply_options].
    unfold bind at 1, allocation.WithEquals.
    destruct (IH (mk_world (mem w) (q_items w) (q_comparator w) (Some f)) Hok Hlen Hwf Harr)
      as (w' & Hrun & Hrest).
    exists w'. split; [done|]. unfold capacities in *. rewrite filter_cons.
    cbn [is_capacity]. rewrite decide_False by done. exact Hrest.
Qed.

(** [New] allocates an array of capacity 11 and one array for each
    [WithCapacity] option, when [makeslice] accepts these capacities, and
    touches no other array.  The queue it returns is empty, on the last
    array allocated, with the capacity of the last [WithCapacity] option
    (11 without one) and the comparator and equality function that the
    options name; as many insertions as that capacity, with any other calls
    between them, allocate nothing more. *)
Theorem New_allocates (names : list (option_name E)) (m : store E) :
  forallb capacity_ok (Capacity 11 :: names) = true ->
  exists w,
    allocation.New (map memory_option_of names) m = Ok w /\
    well_formed w /\ view w = [] /\
    Z.of_nat (cap (q_items w)) = configured_capacity names 11 /\
    configured names DefaultComparator None = Some (q_comparator w, q_equals w) /\
    length (mem w) = (length m + 1 + capacities names)%nat /\
    take (length m) (mem w) = m /\
    Datatypes.S (arr (q_items w)) = length (mem w) /\
    forall ops : list (op E),
      Z.of_nat (length (concat (map inserted ops))) <= configured_capacity names 11 ->
      length (mem (snd (allocation.run_ops ops w))) = length (mem w) /\
      arr (q_items (snd (allocation.run_ops ops w))) = arr (q_items w).
Proof.
  intros Hok. cbn [forallb capacity_ok] in Hok.
  apply andb_true_iff in Hok as [H11 Hok].
  unfold allocation.New, allocation.make. rewrite H11.
  set (w0 := mk_world _ _ _ _).
  destruct (apply_options_allocates names w0 Hok)
    as (w & Hrun & Hlen & Hwf & Harr & Hcap & Hmem & Htake & Hconf).
  { done. }
  { unfold well_formed, w0, array. cbn.
    rewrite list_lookup_middle by done. cbn -[Z.to_nat replicate].
    rewrite length_replicate. lia. }
  { unfold w0. cbn. rewrite length_app. cbn. lia. }
  unfold w0 in Hcap, Hmem, Htake, Hconf. cbn in Hcap, Hmem, Htake, Hconf.
  rewrite length_app in Hmem, Htake. cbn [length] in Hmem, Htake.
  exists w. unfold bind at 1. rewrite Hrun.
  assert (Hinit : heap.Init w = (Ok tt, w)).
  { unfold heap.Init, bind. cbn [h.Len world_Interface]. unfold Len, bind, get, ret.
    rewrite Hlen. done. }
  rewrite Hinit. split; [done|]. split; [done|].
  split; [unfold view, elements; by rewrite Hlen|].
  split; [done|]. split; [done|]. split; [lia|]. split; [|split; [done|]].
  - apply (f_equal (take (length m))) in Htake.
    rewrite take_take, Nat.min_l in Htake by lia.
    rewrite take_app_length in Htake. done.
  - intros ops Hfit.
    destruct (within_run_ops (arr (q_items w)) (cap (q_items w)) (length (mem w)) ops
                (len (q_items w)) w) as (Ha & Hc & Hk & Hn); [done| |done].
    change (Z.of_nat (Z.to_nat 11)) with 11 in Hcap. lia.
Qed.

End arrays.

Section arrays_examples.
Import util memory caller.

Lemma insertions_within_capacity_do_not_allocate_witness :
  length (mem (snd (allocation.run_ops [OpAdd 1; OpPoll; OpOffer 7; OpRemove 5]
                      spacious_world))) = length (mem spacious_world) /\
  arr (q_items (snd (allocation.run_ops [OpAdd 1; OpPoll; OpOffer 7; OpRemove 5]
                       spacious_world))) = arr (q_items spacious_world) /\
  cap (q_items (snd (allocation.run_ops [OpAdd 1; OpPoll; OpOffer 7; OpRemove 5]
                       spacious_world))) = cap (q_items spacious_world) /\
  (len (q_items (snd (allocation.run_ops
                        [OpAdd 1%Z; OpPoll; OpOffer 7%Z; OpRemove 5%Z]
                        spacious_world))) <=
     len (q_items spacious_world) +
     length (concat (map inserted [OpAdd 1%Z; OpPoll; OpOffer 7%Z; OpRemove 5%Z])))%nat.
Proof.
  apply (insertions_within_capacity_do_not_allocate
           [OpAdd 1; OpPoll; OpOffer 7; OpRemove 5] spacious_world).
  cbn. lia.
Defined.

Lemma memory_agrees_with_value_witness :
  fst (allocation.run_ops [OpAdd 1; OpPoll; OpOffer 7; OpAdd 2; OpRemove 5; OpAdd 4]
         spacious_world) =
    map ev_outcome
      (fst (caller.run_ops [OpAdd 1; OpPoll; OpOffer 7; OpAdd 2; OpRemove 5; OpAdd 4]
              (queue_of spacious_world))) /\
  well_formed
    (snd (allocation.run_ops [OpAdd 1; OpPoll; OpOffer 7; OpAdd 2; OpRemove 5; OpAdd 4]
            spacious_world)) /\
  queue_of
    (snd (allocation.run_ops [OpAdd 1; OpPoll; OpOffer 7; OpAdd 2; OpRemove 5; OpAdd 4]
            spacious_world)) =
    snd (caller.run_ops [OpAdd 1; OpPoll; OpOffer 7; OpAdd 2; OpRemove 5; OpAdd 4]
           (queue_of spacious_world)).
Proof.
  apply (memory_agrees_with_value
           [OpAdd 1; OpPoll; OpOffer 7; OpAdd 2; OpRemove 5; OpAdd 4] spacious_world).
  unfold well_formed. cbn. lia.
Defined.

Lemma Poll_leaves_the_element_in_the_array_witness :
  exists x w',
    Poll spacious_world = (Ok x, w') /\
    q_items w' =
      mk_slice (arr (q_items spacious_world)) (len (q_items spacious_world) - 1)
        (cap (q_items spacious_world)) /\
    array (mem w') (q_items w') !! (len (q_items spacious_world) - 1)%nat = Some x /\
    length (mem w') = length (mem spacious_world).
Proof.
  apply (Poll_leaves_the_element_in_the_array spacious_world).
  - unfold well_formed. cbn. lia.
  - discriminate.
  - intros a b. reflexivity.
Defined.

Lemma insertion_into_a_full_queue_allocates_witness :
  exists w',
    allocation.Offer 4 full_world = (Ok true, w') /\
    well_formed w' /\
    length (mem w') = Datatypes.S (length (mem full_world)) /\
    take (length (mem full_world)) (mem w') = mem full_world /\
    arr (q_items w') = length (mem full_world) /\
    len (q_items w') = Datatypes.S (len (q_items full_world)).
Proof.
  apply (insertion_into_a_full_queue_allocates 4 full_world).
  - unfold well_formed. cbn. lia.
  - reflexivity.
  - reflexivity.
  - intros a b. reflexivity.
Defined.

Lemma New_allocates_witness :
  exists w : world Z,
    allocation.New (map memory_option_of [Capacity 4; Ordering three_way]) [] = Ok w /\
    well_formed w /\ view w = [] /\
    Z.of_nat (cap (q_items w)) =
      configured_capacity [Capacity 4; Ordering three_way] 11 /\
    configured [Capacity 4; Ordering three_way] DefaultComparator None =
      Some (q_comparator w, q_equals w) /\
    length (mem w) =
      (length ([] : store Z) + 1 + capacities [Capacity 4; Ordering three_way])%nat /\
    take (length ([] : store Z)) (mem w) = [] /\
    Datatypes.S (arr (q_items w)) = length (mem w) /\
    forall ops : list (op Z),
      Z.of_nat (length (concat (map inserted ops))) <=
        configured_capacity [Capacity 4; Ordering three_way] 11 ->
      length (mem (snd (allocation.run_ops ops w))) = length (mem w) /\
      arr (q_items (snd (allocation.run_ops ops w))) = arr (q_items w).
Proof.
  apply (New_allocates [Capacity 4; Ordering three_way] []).
  reflexivity.
Defined.

End arrays_examples.
